(** * Tuvok Lua scripting bridge: marshalling and undo/redo provenance

    A shallow embedding of
    - [LuaFunBinding.h]  (the [LuaStrictStack] type bindings), and
    - [LUAProvenance.cpp] (the [LuaProvenance] undo/redo ledger),
    together with the properties of the bridge that the specification
    states about them.

    Conventions.  C++ exceptions are values of [Exception]; a member
    function is a state transformer that returns its result (or the
    exception it throws) together with the state it leaves behind, so that
    what an exception leaves half-done stays visible.  Lua numbers are
    modelled by [Z]; Lua tables are finite maps with value semantics. *)

From stdpp Require Import gmap strings list fin_maps pretty.
From Stdlib Require Import ZArith Lia.

Set Warnings "-register-all".
Set Default Proof Using "Type".

Local Open Scope Z_scope.

(* ===================================================================== *)
(** ** Exceptions and the state-and-exception monad                      *)
(* ===================================================================== *)

(** The exception classes that the modelled code throws or lets through.
    [LuaRuntimeError] stands for an error raised by the Lua runtime itself
    ([lua_error], the [luaL_check*] family).  The last constructors are the
    error kinds of the function registry, which the specification names. *)
Inductive Exception :=
| LuaRuntimeError (what : string)
| LuaError (what : string)
| LuaProvenanceReenter (what : string)
| LuaProvenanceInvalidUndoOrRedo (what : string)
| LuaProvenanceInvalidUndo (what : string)
| LuaProvenanceInvalidRedo (what : string)
| NativeException (what : string)
| UnknownFunctionError (fname : string)
| DuplicateNameError (fname : string)
| ArityError (fname : string)
| MarshalTypeError (fname : string)
| SignatureTooLargeError (fname : string)
| UndefinedBehaviour (what : string)
| LoopFuelExhausted.

Inductive Res (A : Type) :=
| Ok (a : A)
| Throw (e : Exception).
Arguments Ok {A} a.
Arguments Throw {A} e.

Definition is_Ok {A} (r : Res A) : bool :=
  match r with Ok _ => true | Throw _ => false end.

(** A computation over a state [S]: it returns a value or throws, and in
    both cases hands back the state it reached. *)
Definition SE (S A : Type) : Type := S -> Res A * S.

Definition ret {S A} (a : A) : SE S A := fun s => (Ok a, s).
Definition throw {S A} (e : Exception) : SE S A := fun s => (Throw e, s).
Definition bind {S A B} (m : SE S A) (k : A -> SE S B) : SE S B :=
  fun s => match m s with
           | (Ok a, s') => k a s'
           | (Throw e, s') => (Throw e, s')
           end.
Definition gets {S A} (f : S -> A) : SE S A := fun s => (Ok (f s), s).
Definition modify {S} (f : S -> S) : SE S unit := fun s => (Ok tt, f s).

(** [try c catch h]: run [c]; an exception [e] for which the handler
    answers [Some e'] is replaced by [e'], any other propagates as it is.
    The state is the one the failing computation left. *)
Definition try_rethrow {S A} (c : SE S A) (h : Exception -> option Exception)
  : SE S A :=
  fun s => match c s with
           | (Ok a, s') => (Ok a, s')
           | (Throw e, s') =>
               match h e with
               | Some e' => (Throw e', s')
               | None => (Throw e, s')
               end
           end.

Notation "'let*' x ':=' c 'in' k" := (bind c (fun x => k))
  (at level 10, x name, c at level 100, k at level 200).
Notation "c1 ';;;' c2" := (bind c1 (fun _ => c2))
  (at level 100, c2 at level 200, right associativity).

(* ===================================================================== *)
(** ** The Lua runtime, as far as the bindings use it                    *)
(* ===================================================================== *)

Module Lua.

(** Table keys: the bindings only use integer and string keys. *)
Inductive LuaKey :=
| KInt (i : Z)
| KStr (s : string).

#[global] Instance LuaKey_eq_dec : EqDecision LuaKey.
Proof. solve_decision. Defined.

#[global] Instance LuaKey_countable : Countable LuaKey.
Proof.
  refine (inj_countable'
            (fun k => match k with KInt i => inl i | KStr s => inr s end)
            (fun x => match x with inl i => KInt i | inr s => KStr s end) _).
  intros []; reflexivity.
Defined.

(** Lua values.  A table carries its fields and, when it has one, the
    fields of its metatable. *)
Inductive LuaValue :=
| LNil
| LBoolean (b : bool)
| LNumber (n : Z)
| LString (s : string)
| LTable (fields : gmap LuaKey LuaValue) (meta : option (gmap LuaKey LuaValue)).

Inductive lua_Type :=
| LUA_TNONE | LUA_TNIL | LUA_TBOOLEAN | LUA_TNUMBER | LUA_TSTRING | LUA_TTABLE.

#[global] Instance lua_Type_eq_dec : EqDecision lua_Type.
Proof. solve_decision. Defined.

Definition type_of (v : LuaValue) : lua_Type :=
  match v with
  | LNil => LUA_TNIL
  | LBoolean _ => LUA_TBOOLEAN
  | LNumber _ => LUA_TNUMBER
  | LString _ => LUA_TSTRING
  | LTable _ _ => LUA_TTABLE
  end.

Definition is_nil (v : LuaValue) : bool :=
  match v with LNil => true | _ => false end.

(** Raw table access: an absent key reads as [nil], and storing [nil]
    removes the key. *)
Definition rawget (t : gmap LuaKey LuaValue) (k : LuaKey) : LuaValue :=
  default LNil (t !! k).

Definition rawset (t : gmap LuaKey LuaValue) (k : LuaKey) (v : LuaValue)
  : gmap LuaKey LuaValue :=
  if is_nil v then delete k t else <[k := v]> t.

Definition key_of (v : LuaValue) : option LuaKey :=
  match v with
  | LNumber i => Some (KInt i)
  | LString s => Some (KStr s)
  | _ => None
  end.

(** The part of a [lua_State] the bindings touch: the value stack (bottom
    first, so that index 1 is the head of the list) and the table of live
    class instances, keyed by global instance id. *)
Record lua_State := mkState {
  stack : list LuaValue;
  instances : gmap Z LuaValue;
}.

Definition with_stack (f : list LuaValue -> list LuaValue) (L : lua_State)
  : lua_State :=
  {| stack := f (stack L); instances := instances L |}.

Definition top (L : lua_State) : Z := Z.of_nat (length (stack L)).

(** Position in [stack] of an acceptable index: positive indices count
    from the bottom, negative ones from the top. *)
Definition abs_index (L : lua_State) (idx : Z) : option nat :=
  if decide (0 < idx) then
    (if decide (idx <= top L) then Some (Z.to_nat (idx - 1)) else None)
  else if decide (idx < 0) then
    (if decide (- idx <= top L) then Some (Z.to_nat (top L + idx)) else None)
  else None.

Definition index2adr (L : lua_State) (idx : Z) : option LuaValue :=
  match abs_index L idx with
  | Some i => stack L !! i
  | None => None
  end.

Definition push_value (v : LuaValue) (L : lua_State) : lua_State :=
  with_stack (fun s => s ++ [v]) L.

Definition pop_values (n : nat) (L : lua_State) : lua_State :=
  with_stack (fun s => take (length s - n) s) L.

Definition lua_gettop : SE lua_State Z := gets top.

Definition lua_type (idx : Z) : SE lua_State lua_Type :=
  gets (fun L => match index2adr L idx with
                 | Some v => type_of v
                 | None => LUA_TNONE
                 end).

Definition lua_isnil (idx : Z) : SE lua_State bool :=
  let* t := lua_type idx in ret (bool_decide (t = LUA_TNIL)).

Definition lua_pushnil : SE lua_State unit := modify (push_value LNil).
Definition lua_pushboolean (b : Z) : SE lua_State unit :=
  modify (push_value (LBoolean (negb (b =? 0)))).
Definition lua_pushinteger (n : Z) : SE lua_State unit :=
  modify (push_value (LNumber n)).
Definition lua_pushnumber (n : Z) : SE lua_State unit :=
  modify (push_value (LNumber n)).
Definition lua_pushstring (s : string) : SE lua_State unit :=
  modify (push_value (LString s)).
Definition lua_newtable : SE lua_State unit :=
  modify (push_value (LTable ∅ None)).
Definition lua_pushvalue (idx : Z) : SE lua_State unit :=
  modify (fun L => push_value (default LNil (index2adr L idx)) L).
Definition lua_pop (n : Z) : SE lua_State unit :=
  modify (pop_values (Z.to_nat n)).

(** [lua_getfield(L, idx, k)]: pushes [t[k]] for the table [t] at [idx].
    Indexing anything that is not a table raises a runtime error (the
    [__index] metamethod is not modelled). *)
Definition lua_getfield (idx : Z) (k : string) : SE lua_State unit :=
  fun L => match index2adr L idx with
           | Some (LTable f _) => (Ok tt, push_value (rawget f (KStr k)) L)
           | _ => (Throw (LuaRuntimeError "attempt to index a non-table value"), L)
           end.

(** [lua_gettable(L, idx)]: pops the key and pushes [t[key]]. *)
Definition lua_gettable (idx : Z) : SE lua_State unit :=
  fun L => match index2adr L idx, index2adr L (-1) with
           | Some (LTable f _), Some k =>
               let v := match key_of k with
                        | Some k' => rawget f k'
                        | None => LNil
                        end in
               (Ok tt, push_value v (pop_values 1 L))
           | _, _ => (Throw (LuaRuntimeError "attempt to index a non-table value"), L)
           end.

(** Overwrite the table stored in stack slot [i]. *)
Definition store_table (i : nat) (f : gmap LuaKey LuaValue)
  (m : option (gmap LuaKey LuaValue)) (L : lua_State) : lua_State :=
  with_stack (fun s => <[i := LTable f m]> s) L.

(** [lua_settable(L, idx)]: [t[key] = value] with the value on top and the
    key just below it; pops both. *)
Definition lua_settable (idx : Z) : SE lua_State unit :=
  fun L => match abs_index L idx, index2adr L idx,
                 index2adr L (-2), index2adr L (-1) with
           | Some i, Some (LTable f m), Some k, Some v =>
               match key_of k with
               | Some k' => (Ok tt, pop_values 2 (store_table i (rawset f k' v) m L))
               | None => (Throw (LuaRuntimeError "table index is not supported"), L)
               end
           | _, _, _, _ =>
               (Throw (LuaRuntimeError "attempt to index a non-table value"), L)
           end.

(** [lua_setfield(L, idx, k)]: [t[k] = value] with the value on top; pops
    it. *)
Definition lua_setfield (idx : Z) (k : string) : SE lua_State unit :=
  fun L => match abs_index L idx, index2adr L idx, index2adr L (-1) with
           | Some i, Some (LTable f m), Some v =>
               (Ok tt, pop_values 1 (store_table i (rawset f (KStr k) v) m L))
           | _, _, _ =>
               (Throw (LuaRuntimeError "attempt to index a non-table value"), L)
           end.

(** [lua_getmetatable(L, idx)]: pushes the metatable and returns 1, or
    pushes nothing and returns 0. *)
Definition lua_getmetatable (idx : Z) : SE lua_State Z :=
  fun L => match index2adr L idx with
           | Some (LTable _ (Some m)) => (Ok 1, push_value (LTable m None) L)
           | _ => (Ok 0, L)
           end.

Definition luaL_checktype (idx : Z) (t : lua_Type) : SE lua_State unit :=
  let* t' := lua_type idx in
  if decide (t' = t) then ret tt
  else throw (LuaRuntimeError "bad argument: unexpected type").

(** The [luaL_check*] readers accept exactly the values of their own
    type here; the runtime's string/number coercions are left out. *)
Definition luaL_checkinteger (idx : Z) : SE lua_State Z :=
  fun L => match index2adr L idx with
           | Some (LNumber n) => (Ok n, L)
           | _ => (Throw (LuaRuntimeError "bad argument: number expected"), L)
           end.

Definition luaL_checkstring (idx : Z) : SE lua_State string :=
  fun L => match index2adr L idx with
           | Some (LString s) => (Ok s, L)
           | _ => (Throw (LuaRuntimeError "bad argument: string expected"), L)
           end.

Definition lua_toboolean (idx : Z) : SE lua_State Z :=
  gets (fun L => match index2adr L idx with
                 | Some LNil | None => 0
                 | Some (LBoolean false) => 0
                 | Some _ => 1
                 end).

(** Conversion to a 32-bit [int], with its wrap-around. *)
Definition static_cast_int (z : Z) : Z :=
  (z + 2 ^ 31) mod 2 ^ 32 - 2 ^ 31.

End Lua.
Export Lua.

(* ===================================================================== *)
(** ** LuaFunBinding.h: the strict type stack                            *)
(* ===================================================================== *)

(** [template<typename T> class LuaStrictStack]: one binding per supported
    parameter type. *)
Class LuaStrictStack (T : Type) := {
  get : Z -> SE lua_State T;
  push : T -> SE lua_State unit;
  getTypeStr : string;
  getDefault : T;
}.

(** [LuaStrictStack<int>] *)
#[global] Instance LuaStrictStack_int : LuaStrictStack Z := {|
  get pos := let* n := luaL_checkinteger pos in ret (static_cast_int n);
  push v := lua_pushinteger v;
  getTypeStr := "int";
  getDefault := 0;
|}.

(** [LuaStrictStack<bool>] *)
#[global] Instance LuaStrictStack_bool : LuaStrictStack bool := {|
  get pos :=
    luaL_checktype pos LUA_TBOOLEAN ;;;
    let* retVal := lua_toboolean pos in
    ret (negb (retVal =? 0));
  push v := lua_pushboolean (if v then 1 else 0);
  getTypeStr := "bool";
  getDefault := false;
|}.

(** [LuaStrictStack<std::string>] *)
#[global] Instance LuaStrictStack_string : LuaStrictStack string := {|
  get pos := luaL_checkstring pos;
  push v := lua_pushstring v;
  getTypeStr := "string";
  getDefault := "";
|}.

(** *** [LuaStrictStack<LuaClassInstance>] *)

Record LuaClassInstance := mkInstance { getGlobalInstID : Z }.

Section ClassInstanceBinding.

(** [LuaClassInstance.h] is not among the sources; its two constants
    used here are parameters of the development. *)
Variable DEFAULT_INSTANCE_ID : Z.
Variable MD_GLOBAL_INSTANCE_ID : string.

(** [luaL_dostring(L, "return <CLASS_INSTANCE_TABLE>.<PREFIX><id>")]:
    the chunk evaluates to the entry of the class-instance table for
    [id], or to [nil] when the instance has been deleted. *)
Definition luaL_dostring_return_instance (id : Z) : SE lua_State unit :=
  modify (fun L => push_value (default LNil (instances L !! id)) L).

Definition LuaClassInstance_get (pos : Z) : SE lua_State LuaClassInstance :=
  let* isnil := lua_isnil pos in
  if isnil then
    ret (mkInstance DEFAULT_INSTANCE_ID)
  else
    lua_getfield pos "_DefaultInstance_" ;;;
    let* isnil' := lua_isnil (-1) in
    if isnil' then
      lua_pop 1 ;;;
      let* has_mt := lua_getmetatable pos in
      if has_mt =? 0 then throw (LuaError "Unable to find class metatable.")
      else
        lua_getfield (-1) MD_GLOBAL_INSTANCE_ID ;;;
        let* n := luaL_checkinteger (-1) in
        let globalID := static_cast_int n in
        lua_pop 2 ;;;
        ret (mkInstance globalID)
    else
      lua_pop 1 ;;;
      ret (mkInstance DEFAULT_INSTANCE_ID).

(** The "empty table" of the source: a fresh table whose only field is
    the marker [_DefaultInstance_ = true]. *)
Definition push_marker_table : SE lua_State unit :=
  lua_newtable ;;;
  lua_pushboolean 1 ;;;
  lua_setfield (-2) "_DefaultInstance_".

Definition LuaClassInstance_push (i : LuaClassInstance) : SE lua_State unit :=
  if decide (getGlobalInstID i <> DEFAULT_INSTANCE_ID) then
    luaL_dostring_return_instance (getGlobalInstID i) ;;;
    let* isnil := lua_isnil (-1) in
    if isnil then
      lua_pop 1 ;;;
      push_marker_table
    else ret tt
  else
    push_marker_table.

Definition LuaStrictStack_LuaClassInstance : LuaStrictStack LuaClassInstance := {|
  get := LuaClassInstance_get;
  push := LuaClassInstance_push;
  getTypeStr := "LuaClass";
  getDefault := mkInstance (-1);
|}.

(** The value that [push_marker_table] leaves on the stack. *)
Definition marker_table : LuaValue :=
  LTable {[ KStr "_DefaultInstance_" := LBoolean true ]} None.

(** A live instance as script code sees it: a table whose metatable
    records the global instance id. *)
Definition instance_table (fields : gmap LuaKey LuaValue) (id : Z) : LuaValue :=
  LTable fields (Some {[ KStr MD_GLOBAL_INSTANCE_ID := LNumber id ]}).

End ClassInstanceBinding.

(** *** [LuaStrictStack<std::vector<T>>] *)

Section VectorBinding.

Context {T : Type} `{LuaStrictStack T}.

(** The body of [while (1)] in [get], unrolled [fuel] times.  [index] and
    [ret] are the locals of the source. *)
Fixpoint vector_get_loop (fuel : nat) (pos index : Z) (ret_ : list T)
  : SE lua_State (list T) :=
  match fuel with
  | O => throw LoopFuelExhausted
  | S fuel' =>
      lua_pushinteger index ;;;
      lua_gettable pos ;;;
      let* isnil := lua_isnil (-1) in
      if isnil then
        lua_pop 1 ;;;
        ret ret_
      else
        let* t := lua_gettop in
        let* x := get t in
        lua_pop 1 ;;;
        vector_get_loop fuel' pos (index + 1) (ret_ ++ [x])
  end.

(** Number of entries of the table at [pos]: the loop cannot run more
    often than that plus one. *)
Definition table_entries (pos : Z) : SE lua_State nat :=
  gets (fun L => match index2adr L pos with
                 | Some (LTable f _) => size f
                 | _ => O
                 end).

Definition vector_get (pos : Z) : SE lua_State (list T) :=
  luaL_checktype pos LUA_TTABLE ;;;
  let* n := table_entries pos in
  vector_get_loop (S n) pos 1 [].

(** The [for] loop of [push]: one [lua_settable] per element. *)
Fixpoint vector_push_loop (tblPos index : Z) (l : list T) : SE lua_State unit :=
  match l with
  | [] => ret tt
  | x :: l' =>
      lua_pushinteger index ;;;
      push x ;;;
      lua_settable tblPos ;;;
      vector_push_loop tblPos (index + 1) l'
  end.

Definition vector_push (l : list T) : SE lua_State unit :=
  lua_newtable ;;;
  let* tblPos := lua_gettop in
  vector_push_loop tblPos 1 l.

#[global] Instance LuaStrictStack_vector : LuaStrictStack (list T) := {|
  get := vector_get;
  push := vector_push;
  getTypeStr := "GenericVector";
  getDefault := [];
|}.

End VectorBinding.

(** What makes an element binding usable inside a sequence: reading a
    value it accepts returns the converted value and leaves the stack as
    it found it (the contract [LuaStackRAII _a(L, 0)] states). *)
Definition lawful_get {T} `{LuaStrictStack T} (from_value : LuaValue -> Res T)
  : Prop :=
  forall L pos v x,
    0 < pos -> index2adr L pos = Some v -> from_value v = Ok x ->
    get pos L = (Ok x, L).

Definition int_from_value (v : LuaValue) : Res Z :=
  match v with
  | LNumber n => Ok (static_cast_int n)
  | _ => Throw (LuaRuntimeError "bad argument: number expected")
  end.

Definition string_from_value (v : LuaValue) : Res string :=
  match v with
  | LString s => Ok s
  | _ => Throw (LuaRuntimeError "bad argument: string expected")
  end.

(** [xs] is what the element binding reads at keys [index], [index+1],
    ... of [f], all of them present. *)
Definition reads_from {T} (from_value : LuaValue -> Res T)
  (f : gmap LuaKey LuaValue) (index : Z) (xs : list T) : Prop :=
  forall (i : nat) x, xs !! i = Some x ->
    rawget f (KInt (index + Z.of_nat i)) <> LNil /\
    from_value (rawget f (KInt (index + Z.of_nat i))) = Ok x.

Definition bool_from_value (v : LuaValue) : Res bool :=
  match v with
  | LBoolean b => Ok b
  | _ => Throw (LuaRuntimeError "bad argument: unexpected type")
  end.

(** What makes an element binding usable when a sequence is pushed: its
    [push] leaves exactly one new value on the stack, the Lua value of
    the element (the contract [LuaStackRAII _a(L, 1)] states). *)
Definition lawful_push {T} `{LuaStrictStack T} (to_value : T -> LuaValue)
  : Prop :=
  forall L x, push x L = (Ok tt, push_value (to_value x) L).

(** An element binding that throws on the values it does not accept. *)
Definition rejecting_get {T} `{LuaStrictStack T} (from_value : LuaValue -> Res T)
  : Prop :=
  forall L pos v e,
    0 < pos -> index2adr L pos = Some v -> from_value v = Throw e ->
    fst (get pos L) = Throw e.

(** The fields of a table after [t[index] = v1], [t[index+1] = v2], ...
    have been stored in this order. *)
Fixpoint sequence_fields (index : Z) (vs : list LuaValue)
  (f : gmap LuaKey LuaValue) : gmap LuaKey LuaValue :=
  match vs with
  | [] => f
  | v :: vs' => sequence_fields (index + 1) vs' (rawset f (KInt index) v)
  end.

(* ===================================================================== *)
(** ** LUAProvenance.cpp: the data                                       *)
(* ===================================================================== *)

(** A parameter snapshot ([LuaCFunAbstract]): the values, in order, that
    its [pushParamsToStack] pushes.  [LuaFunBindingCore.h] is not among
    the sources; reading a snapshot back from the values it pushed
    ([pullParamsFromStack]) is taken to return those values. *)
Abbreviation Params := (list LuaValue).

Definition pushParamsToStack (p : Params) : list LuaValue := p.
Definition pullParamsFromStack (onStack : list LuaValue) : Params := onStack.

Record UndoRedoItem := mkUndoRedoItem {
  function : string;
  undoParams : Params;
  redoParams : Params;
}.

(** The data members of [LuaProvenance].  The cursor [mStackPointer] is an
    index into [mUndoRedoStack]; it is only decremented behind a test
    against 0. *)
Record LuaProvenance := mkProvenance {
  mEnabled : bool;
  mStackPointer : nat;
  mUndoRedoStack : list UndoRedoItem;
  mLoggingProvenance : bool;
  mDoProvReenterException : bool;
  mUndoRedoProvenanceDisable : bool;
}.

(** [LuaProvenance::LuaProvenance]: the initialiser list. *)
Definition LuaProvenance_new : LuaProvenance := {|
  mEnabled := true;
  mStackPointer := 0;
  mUndoRedoStack := [];
  mLoggingProvenance := false;
  mDoProvReenterException := true;
  mUndoRedoProvenanceDisable := false;
|}.

Definition set_mEnabled (b : bool) (p : LuaProvenance) : LuaProvenance :=
  mkProvenance b (mStackPointer p) (mUndoRedoStack p) (mLoggingProvenance p)
    (mDoProvReenterException p) (mUndoRedoProvenanceDisable p).
Definition set_mStackPointer (n : nat) (p : LuaProvenance) : LuaProvenance :=
  mkProvenance (mEnabled p) n (mUndoRedoStack p) (mLoggingProvenance p)
    (mDoProvReenterException p) (mUndoRedoProvenanceDisable p).
Definition set_mUndoRedoStack (s : list UndoRedoItem) (p : LuaProvenance)
  : LuaProvenance :=
  mkProvenance (mEnabled p) (mStackPointer p) s (mLoggingProvenance p)
    (mDoProvReenterException p) (mUndoRedoProvenanceDisable p).
Definition set_mLoggingProvenance (b : bool) (p : LuaProvenance) : LuaProvenance :=
  mkProvenance (mEnabled p) (mStackPointer p) (mUndoRedoStack p) b
    (mDoProvReenterException p) (mUndoRedoProvenanceDisable p).
Definition set_mDoProvReenterException (b : bool) (p : LuaProvenance)
  : LuaProvenance :=
  mkProvenance (mEnabled p) (mStackPointer p) (mUndoRedoStack p)
    (mLoggingProvenance p) b (mUndoRedoProvenanceDisable p).
Definition set_mUndoRedoProvenanceDisable (b : bool) (p : LuaProvenance)
  : LuaProvenance :=
  mkProvenance (mEnabled p) (mStackPointer p) (mUndoRedoStack p)
    (mLoggingProvenance p) (mDoProvReenterException p) b.

(** The member functions that [registerLuaProvenanceFunctions] exposes. *)
Inductive ProvenanceMethod :=
| IssueUndo | IssueRedo | SetEnabled | ClearProvenance | EnableProvReentryEx.

(** ** The last-exec table of a function

    A table with the integer keys [0 .. n-1], one per parameter. *)

(** The values at keys [0 .. numParams-1], in order ("Populate the stack
    in the correct order"). *)
Definition lastExec_read (t : gmap LuaKey LuaValue) (numParams : nat)
  : list LuaValue :=
  (fun i : nat => rawget t (KInt (Z.of_nat i))) <$> seq 0 numParams.

(** [for (i = 0; i < numParams; i++) table[i] = pushed[i]]; a slot past
    the pushed values reads as [nil]. *)
Definition copyParamsToTable (t : gmap LuaKey LuaValue) (numParams : nat)
  (pushed : list LuaValue) : gmap LuaKey LuaValue :=
  foldl (fun t (i : nat) => rawset t (KInt (Z.of_nat i)) (default LNil (pushed !! i)))
        t (seq 0 numParams).

(** The table that registration creates for a parameter list. *)
Definition table_of_params (ps : Params) : gmap LuaKey LuaValue :=
  copyParamsToTable ∅ (length ps) ps.

(** [LUAC_MAX_NUM_PARAMS]: the configured bound on the parameter count
    (the specification gives 10 for the reference implementation). *)
Definition LUAC_MAX_NUM_PARAMS : nat := 10.

Section Bridge.

Context {NativeState : Type}.

(** What a registered name is bound to: a function or method of the
    application, seen as a transformer of the application's (native)
    state that may throw, or one of the methods of the provenance object
    itself. *)
Inductive Callable :=
| NativeFunction (f : Params -> NativeState -> Res NativeState)
| BoundProvenanceMethod (m : ProvenanceMethod).

(** The Lua-side table of a registered function: documentation, the
    exemption flag, the defaults and last-exec tables, and the metatable
    with its [__call] entry ([None]: no metatable; [Some None]: a
    metatable without [__call]). *)
Record FunctionTable := mkFunctionTable {
  ft_doc : string;
  ft_exempt : bool;
  ft_defaults : Params;
  ft_lastExec : gmap LuaKey LuaValue;
  ft_metatable : option (option Callable);
}.

Definition set_ft_exempt (b : bool) (ft : FunctionTable) : FunctionTable :=
  mkFunctionTable (ft_doc ft) b (ft_defaults ft) (ft_lastExec ft) (ft_metatable ft).
Definition set_ft_lastExec (t : gmap LuaKey LuaValue) (ft : FunctionTable)
  : FunctionTable :=
  mkFunctionTable (ft_doc ft) (ft_exempt ft) (ft_defaults ft) t (ft_metatable ft).

(** The scripting class with the provenance object composited inside it,
    the registered function tables, and the application state that the
    registered functions act on. *)
Record LuaScripting := mkScripting {
  mProvenance : LuaProvenance;
  mFunctions : gmap string FunctionTable;
  mNative : NativeState;
}.

Definition on_provenance (f : LuaProvenance -> LuaProvenance) (st : LuaScripting)
  : LuaScripting :=
  mkScripting (f (mProvenance st)) (mFunctions st) (mNative st).
Definition on_functions
  (f : gmap string FunctionTable -> gmap string FunctionTable)
  (st : LuaScripting) : LuaScripting :=
  mkScripting (mProvenance st) (f (mFunctions st)) (mNative st).
Definition set_mNative (ns : NativeState) (st : LuaScripting) : LuaScripting :=
  mkScripting (mProvenance st) (mFunctions st) ns.

(** Reading a data member of the composited provenance object. *)
Definition this {A} (member : LuaProvenance -> A) : SE LuaScripting A :=
  gets (fun st => member (mProvenance st)).

(** ** The function registry

    Modelled from the spec: the registry of LuaScripting (registerFunction,
    setUndoRedoStackExempt, getFunctionTable and the call wrapper installed
    as [__call]) is not among the sources. *)

(** Modelled from the spec: registration (LuaScripting::registerFunction
    is missing).  It fails on a name already registered and on more
    parameters than the configured bound, starts the last-exec table at
    the defaults, and registers the function as not exempt.  No binding
    pushes [nil] (an absent object handle is pushed as the marker table),
    so a snapshot that holds [nil] is rejected as a marshalling error. *)
Definition registerFunction (c : Callable) (defaults : Params)
  (fname doc : string) : SE LuaScripting unit :=
  fun st =>
    if decide (LUAC_MAX_NUM_PARAMS < length defaults)%nat then
      (Throw (SignatureTooLargeError fname), st)
    else if existsb is_nil defaults then
      (Throw (MarshalTypeError fname), st)
    else
      match mFunctions st !! fname with
      | Some _ => (Throw (DuplicateNameError fname), st)
      | None =>
          (Ok tt,
           on_functions
             (insert fname
                (mkFunctionTable doc false defaults (table_of_params defaults)
                   (Some (Some c)))) st)
      end.

(** Modelled from the spec: [setExempt(name, bool)]
    (LuaScripting::setUndoRedoStackExempt is missing) mutates the
    exemption flag of a registered function. *)
Definition setUndoRedoStackExempt (fname : string) (exempt : bool)
  : SE LuaScripting unit :=
  fun st =>
    match mFunctions st !! fname with
    | Some ft => (Ok tt, on_functions (insert fname (set_ft_exempt exempt ft)) st)
    | None => (Throw (UnknownFunctionError fname), st)
    end.

(** ** LUAProvenance.cpp: the member functions *)

(** [LuaProvenance::registerLuaProvenanceFunctions].  [issueUndo],
    [issueRedo] and [clearProvenance] take no parameter, [setEnabled] and
    [enableProvReentryEx] one [bool], whose default is [false]. *)
Definition registerLuaProvenanceFunctions : SE LuaScripting unit :=
  registerFunction (BoundProvenanceMethod IssueUndo) []
    "provenance.undo" "Undoes last script call." ;;;
  setUndoRedoStackExempt "provenance.undo" true ;;;
  registerFunction (BoundProvenanceMethod IssueRedo) []
    "provenance.redo" "Redoes the last undo call." ;;;
  setUndoRedoStackExempt "provenance.redo" true ;;;
  registerFunction (BoundProvenanceMethod SetEnabled) [LBoolean false]
    "provenance.enable"
    "Enable/Disable provenance. This is not an undo-able action and will clear your provenance history if disabled." ;;;
  setUndoRedoStackExempt "provenance.enable" true ;;;
  registerFunction (BoundProvenanceMethod ClearProvenance) []
    "provenance.clear"
    "Clears all provenance and undo/redo stacks. This is not an undo-able action." ;;;
  setUndoRedoStackExempt "provenance.clear" true ;;;
  registerFunction (BoundProvenanceMethod EnableProvReentryEx) [LBoolean false]
    "provenance.enableReentryException"
    "Enables/Disables the provenance reentry exception. Disable this to (take a deep breath) allow functions registered with LuaScripting to call other functions registered within LuaScripting from within Lua."
  (* Reentry exception does not need to be stack exempt. *).

(** [LuaProvenance::isEnabled] *)
Definition isEnabled : SE LuaScripting bool := this mEnabled.

(** [LuaProvenance::clearProvenance] *)
Definition clearProvenance : SE LuaScripting unit :=
  modify (on_provenance (set_mUndoRedoStack [])) ;;;
  modify (on_provenance (set_mStackPointer 0)).

(** [LuaProvenance::setEnabled] *)
Definition setEnabled (enabled : bool) : SE LuaScripting unit :=
  let* wasEnabled := this mEnabled in
  (if negb enabled && wasEnabled then clearProvenance else ret tt) ;;;
  modify (on_provenance (set_mEnabled enabled)).

(** [LuaProvenance::enableProvReentryEx] *)
Definition enableProvReentryEx (enable : bool) : SE LuaScripting unit :=
  modify (on_provenance (set_mDoProvReenterException enable)).

(** [mUndoRedoStack.pop_back()] *)
Definition pop_back (s : list UndoRedoItem) : list UndoRedoItem :=
  take (length s - 1) s.

(** "Erase redo history if we have a stack pointer beneath the top of the
    stack": [stackDiff] calls of [pop_back]. *)
Definition erase_redo_history (p : LuaProvenance) : LuaProvenance :=
  let stackDiff := (length (mUndoRedoStack p) - mStackPointer p)%nat in
  set_mUndoRedoStack (Nat.iter stackDiff pop_back (mUndoRedoStack p)) p.

(** [mScripting->getFunctionTable(fname)] followed by
    [lua_getfield(L, -1, TBL_MD_FUN_LAST_EXEC)]: the last-exec table of
    [fname].  Without a function table the second call indexes [nil]. *)
Definition getLastExecTable (fname : string)
  : SE LuaScripting (gmap LuaKey LuaValue) :=
  fun st =>
    match mFunctions st !! fname with
    | Some ft => (Ok (ft_lastExec ft), st)
    | None => (Throw (LuaRuntimeError "attempt to index a nil value"), st)
    end.

(** [lua_settable(L, lastExecTable)] applied to every parameter: the
    last-exec table of [fname] is overwritten in place. *)
Definition storeLastExec (fname : string) (numParams : nat)
  (pushed : list LuaValue) : SE LuaScripting unit :=
  modify (on_functions
            (alter (fun ft =>
                      set_ft_lastExec
                        (copyParamsToTable (ft_lastExec ft) numParams pushed) ft)
                   fname)).

(** [LuaProvenance::logExecution] *)
Definition logExecution (fname : string) (undoRedoStackExempt : bool)
  (funParams emptyParams : Params) : SE LuaScripting unit :=
  let* logging := this mLoggingProvenance in
  if logging then
    let* reenterException := this mDoProvReenterException in
    if reenterException then
      throw (LuaProvenanceReenter
               "LuaProvenance reentry not allowed. Considerdisabling provenance.enableReentryException")
    else ret tt
  else
    (* Will not log anything if this call was issued as part of an undo/redo. *)
    let* disabled := this mUndoRedoProvenanceDisable in
    if disabled then ret tt
    else
      modify (on_provenance (set_mLoggingProvenance true)) ;;;
      if undoRedoStackExempt then
        modify (on_provenance (set_mLoggingProvenance false))
      else
        modify (on_provenance erase_redo_history) ;;;
        (* Gather last execution parameters for inclusion in the undo stack. *)
        let* lastExecTable := getLastExecTable fname in
        let numParams := size lastExecTable in
        let onStack := lastExec_read lastExecTable numParams in
        let emptyParams' :=
          if decide (numParams <> O) then pullParamsFromStack onStack
          else emptyParams in
        let* stack := this mUndoRedoStack in
        modify (on_provenance
                  (set_mUndoRedoStack
                     (stack ++ [mkUndoRedoItem fname emptyParams' funParams]))) ;;;
        let* sp := this mStackPointer in
        modify (on_provenance (set_mStackPointer (S sp))) ;;;
        (* Repopulate the lastExec table to most recently executed function
           parameters. *)
        storeLastExec fname numParams (pushParamsToStack funParams) ;;;
        modify (on_provenance (set_mLoggingProvenance false)).

(** Running the C++ callable bound to a name on the application state. *)
Definition call_native (f : Params -> NativeState -> Res NativeState)
  (args : Params) : SE LuaScripting unit :=
  fun st =>
    match f args (mNative st) with
    | Ok ns => (Ok tt, set_mNative ns st)
    | Throw e => (Throw e, st)
    end.

(** Modelled from the spec: [invoke(name, args)], the call wrapper that
    registration installs as [__call] (LuaScripting's callback is
    missing).  It resolves the entry, checks the argument count, runs the
    callable, and on success notifies the ledger, passing the exemption
    flag.  [args] are the arguments as marshalled into the call's
    parameter snapshot, which never holds [nil]; [member] runs a method
    of the provenance object. *)
Definition exec_with (member : ProvenanceMethod -> Params -> SE LuaScripting unit)
  (fname : string) (args : Params) : SE LuaScripting unit :=
  let* ft := gets (fun st => mFunctions st !! fname) in
  match ft with
  | None => throw (UnknownFunctionError fname)
  | Some ft =>
      match ft_metatable ft with
      | Some (Some c) =>
          if decide (length args = length (ft_defaults ft)) then
            if existsb is_nil args then throw (MarshalTypeError fname)
            else
              match c with
              | NativeFunction f => call_native f args
              | BoundProvenanceMethod m => member m args
              end ;;;
              logExecution fname (ft_exempt ft) args (ft_defaults ft)
          else throw (ArityError fname)
      | _ => throw (LuaRuntimeError "attempt to call a table value")
      end
  end.

(** [lua_call(L, numParams + 1, 0)] on the [__call] entry of a function
    table, as [performUndoRedoOp] issues it.  The replay of a record
    that names a method of the provenance object itself would re-enter
    the provenance object from inside a replay; the model stops there. *)
Definition lua_call : string -> Params -> SE LuaScripting unit :=
  exec_with (fun _ _ =>
               throw (LuaRuntimeError "provenance method invoked inside a replay")).

(** [LuaProvenance::performUndoRedoOp] *)
Definition performUndoRedoOp (funcName : string) (params : Params)
  : SE LuaScripting unit :=
  let* funTable := gets (fun st => mFunctions st !! funcName) in
  match funTable with
  | None =>
      throw (LuaProvenanceInvalidUndoOrRedo "Function table does not exist.")
  | Some ft =>
      match ft_metatable ft with
      | None =>
          throw (LuaProvenanceInvalidUndoOrRedo
                   "Does not appear to be a valid function.")
      | Some None =>
          throw (LuaProvenanceInvalidUndoOrRedo
                   "Function has invalid function pointer.")
      | Some (Some _) =>
          (* Execute the call (ignore return values). *)
          modify (on_provenance (set_mUndoRedoProvenanceDisable true)) ;;;
          lua_call funcName (pushParamsToStack params) ;;;
          modify (on_provenance (set_mUndoRedoProvenanceDisable false)) ;;;
          (* Last exec table parameters will match what we just executed. *)
          storeLastExec funcName (length (pushParamsToStack params))
            (pushParamsToStack params)
      end
  end.

(** [catch (LuaProvenanceInvalidUndoOrRedo& e)] of [issueUndo]. *)
Definition catch_as_InvalidUndo (e : Exception) : option Exception :=
  match e with
  | LuaProvenanceInvalidUndoOrRedo what => Some (LuaProvenanceInvalidUndo what)
  | _ => None
  end.

(** [catch (LuaProvenanceInvalidUndoOrRedo& e)] of [issueRedo]. *)
Definition catch_as_InvalidRedo (e : Exception) : option Exception :=
  match e with
  | LuaProvenanceInvalidUndoOrRedo what => Some (LuaProvenanceInvalidRedo what)
  | _ => None
  end.

(** [mUndoRedoStack[i]]; indexing past the end is undefined behaviour. *)
Definition stack_at (i : nat) : SE LuaScripting UndoRedoItem :=
  let* stack := this mUndoRedoStack in
  match stack !! i with
  | Some item => ret item
  | None => throw (UndefinedBehaviour "mUndoRedoStack[i] out of range")
  end.

(** [LuaProvenance::issueUndo] *)
Definition issueUndo : SE LuaScripting unit :=
  let* sp := this mStackPointer in
  if decide (sp = O) then
    throw (LuaProvenanceInvalidUndo "Undo pointer at bottom of stack.")
  else
    let undoIndex := (sp - 1)%nat in
    let* undoItem := stack_at undoIndex in
    try_rethrow (performUndoRedoOp (function undoItem) (undoParams undoItem))
                catch_as_InvalidUndo ;;;
    let* sp' := this mStackPointer in
    modify (on_provenance (set_mStackPointer (sp' - 1)%nat)).

(** [LuaProvenance::issueRedo] *)
Definition issueRedo : SE LuaScripting unit :=
  let* sp := this mStackPointer in
  let* stack := this mUndoRedoStack in
  if decide (sp = length stack) then
    throw (LuaProvenanceInvalidRedo "Redo pointer at top of stack.")
  else
    let redoIndex := sp in
    let* redoItem := stack_at redoIndex in
    try_rethrow (performUndoRedoOp (function redoItem) (redoParams redoItem))
                catch_as_InvalidRedo ;;;
    let* sp' := this mStackPointer in
    modify (on_provenance (set_mStackPointer (S sp'))).

(** The methods of the provenance object as script code reaches them. *)
Definition provenance_member (m : ProvenanceMethod) (args : Params)
  : SE LuaScripting unit :=
  match m, args with
  | IssueUndo, [] => issueUndo
  | IssueRedo, [] => issueRedo
  | SetEnabled, [LBoolean b] => setEnabled b
  | ClearProvenance, [] => clearProvenance
  | EnableProvReentryEx, [LBoolean b] => enableProvReentryEx b
  | _, _ => throw (MarshalTypeError "provenance")
  end.

(** A call issued by script code. *)
Definition exec : string -> Params -> SE LuaScripting unit :=
  exec_with provenance_member.

(** A sequence of script calls, stopping at the first that throws. *)
Fixpoint exec_all (calls : list (string * Params)) : SE LuaScripting unit :=
  match calls with
  | [] => ret tt
  | (fname, args) :: calls' => exec fname args ;;; exec_all calls'
  end.

(** [K] undos in a row, stopping at the first that throws. *)
Fixpoint undo_times (K : nat) : SE LuaScripting unit :=
  match K with
  | O => ret tt
  | S K' => issueUndo ;;; undo_times K'
  end.

(** [K] redos in a row, stopping at the first that throws. *)
Fixpoint redo_times (K : nat) : SE LuaScripting unit :=
  match K with
  | O => ret tt
  | S K' => issueRedo ;;; redo_times K'
  end.

(** ** Vocabulary for the statements below *)

(** No call is being logged. *)
Definition not_logging (st : LuaScripting) : Prop :=
  mLoggingProvenance (mProvenance st) = false.

(** The ledger is idle: no call is being logged and no replay is in
    progress. *)
Definition idle (st : LuaScripting) : Prop :=
  mLoggingProvenance (mProvenance st) = false /\
  mUndoRedoProvenanceDisable (mProvenance st) = false.

(** The cursor is within the ledger. *)
Definition cursor_ok (st : LuaScripting) : Prop :=
  (mStackPointer (mProvenance st) <= length (mUndoRedoStack (mProvenance st)))%nat.

Definition nil_free (ps : Params) : Prop := existsb is_nil ps = false.

(** The last-exec table holds exactly one value per parameter. *)
Definition lastExec_wf (ft : FunctionTable) : Prop :=
  exists ps, ft_lastExec ft = table_of_params ps /\
             length ps = length (ft_defaults ft) /\ nil_free ps.

(** The bridge after [logExecution] has recorded a call of [fname]. *)
Definition logged (fname : string) (ft : FunctionTable)
  (funParams emptyParams : Params) (st : LuaScripting) : LuaScripting :=
  let p := mProvenance st in
  let numParams := size (ft_lastExec ft) in
  let undo := if decide (numParams <> O)
              then lastExec_read (ft_lastExec ft) numParams
              else emptyParams in
  mkScripting
    (mkProvenance (mEnabled p) (S (mStackPointer p))
       (Nat.iter (length (mUndoRedoStack p) - mStackPointer p) pop_back
                 (mUndoRedoStack p)
        ++ [mkUndoRedoItem fname undo funParams])
       false (mDoProvReenterException p) (mUndoRedoProvenanceDisable p))
    (<[fname := set_ft_lastExec
                  (copyParamsToTable (ft_lastExec ft) numParams funParams) ft]>
       (mFunctions st))
    (mNative st).

(** The bridge after [performUndoRedoOp] has replayed [fname] with
    [params], the callable having left the native state [ns]. *)
Definition replayed (fname : string) (ft : FunctionTable) (params : Params)
  (ns : NativeState) (st : LuaScripting) : LuaScripting :=
  mkScripting
    (set_mUndoRedoProvenanceDisable false (mProvenance st))
    (<[fname := set_ft_lastExec
                  (copyParamsToTable (ft_lastExec ft) (length params) params) ft]>
       (mFunctions st))
    ns.

(** The parameters a last-exec table currently holds. *)
Definition lastExec_params (ft : FunctionTable) : Params :=
  lastExec_read (ft_lastExec ft) (size (ft_lastExec ft)).

(** ** Setters

    The undo of a call replays the function on the parameters of its
    previous call.  That restores the native state for functions that
    are setters: [set fname p] is what a call of [fname] with the
    parameters [p] does to the native state. *)

Section Setters.

Variable set : string -> Params -> NativeState -> NativeState.

(** The parameters have the number and the Lua types of the defaults. *)
Definition valid_params (ft : FunctionTable) (p : Params) : Prop :=
  Forall2 (fun a d => type_of a = type_of d) p (ft_defaults ft).

(** [fname] is registered as a function that is not exempt and whose
    callable succeeds on all valid parameters, with the effect [set fname]. *)
Definition is_setter (fname : string) (ft : FunctionTable) : Prop :=
  ft_exempt ft = false /\
  nil_free (ft_defaults ft) /\
  exists c, ft_metatable ft = Some (Some (NativeFunction c)) /\
            forall p s, valid_params ft p -> c p s = Ok (set fname p s).

(** A later call of a setter overwrites an earlier one, and setters of
    different names do not interfere. *)
Definition setter_laws : Prop :=
  (forall f p q s, set f p (set f q s) = set f p s) /\
  (forall f g p q s, f <> g -> set f p (set g q s) = set g q (set f p s)).

(** [fname] is a setter, and the native state holds what a call with the
    parameters of its last-exec table sets. *)
Definition in_sync (st : LuaScripting) (fname : string) : Prop :=
  exists ft ps,
    mFunctions st !! fname = Some ft /\
    is_setter fname ft /\
    ft_lastExec ft = table_of_params ps /\
    valid_params ft ps /\
    set fname ps (mNative st) = mNative st.

(** A call of a setter in sync, with valid parameters. *)
Definition valid_call (st : LuaScripting) (call : string * Params) : Prop :=
  in_sync st call.1 /\
  exists ft, mFunctions st !! call.1 = Some ft /\ valid_params ft call.2.

(** The bridge after a successful call of the setter [fname] with the
    parameters [p], its last-exec table having held [ps] before. *)
Definition setter_called (fname : string) (ft : FunctionTable) (ps p : Params)
  (st : LuaScripting) : LuaScripting :=
  mkScripting
    (mkProvenance (mEnabled (mProvenance st))
       (S (mStackPointer (mProvenance st)))
       (Nat.iter (length (mUndoRedoStack (mProvenance st))
                  - mStackPointer (mProvenance st)) pop_back
                 (mUndoRedoStack (mProvenance st))
        ++ [mkUndoRedoItem fname ps p])
       false (mDoProvReenterException (mProvenance st)) false)
    (<[fname := set_ft_lastExec (table_of_params p) ft]> (mFunctions st))
    (set fname p (mNative st)).

End Setters.

(** The bridge with the records from the cursor on replaced by [tail]. *)
Definition retail (tail : list UndoRedoItem) (st : LuaScripting) : LuaScripting :=
  on_provenance
    (fun p => set_mUndoRedoStack
                (take (mStackPointer p) (mUndoRedoStack p) ++ tail) p) st.

End Bridge.

Arguments Callable : clear implicits.
Arguments FunctionTable : clear implicits.
Arguments LuaScripting : clear implicits.

(** The exemption flag of a registered name. *)
Definition is_exempt {N} (st : LuaScripting N) (fname : string) : option bool :=
  ft_exempt <$> mFunctions st !! fname.

(** The last-exec table of a registered name. *)
Definition lastExec_of {N} (st : LuaScripting N) (fname : string)
  : option (gmap LuaKey LuaValue) :=
  ft_lastExec <$> mFunctions st !! fname.

(** The names under which the provenance object exposes itself. *)
Definition provenance_names : list string :=
  ["provenance.undo"; "provenance.redo"; "provenance.enable";
   "provenance.clear"; "provenance.enableReentryException"].

(** A freshly constructed scripting class around the native state [ns]. *)
Definition LuaScripting_new {N} (ns : N) : LuaScripting N :=
  mkScripting LuaProvenance_new ∅ ns.

(** ** The states a bridge can be in *)

(** The operations by which the application and its scripts drive the
    bridge: registration, calls of registered names, and the methods of
    the provenance object called from C++. *)
Inductive bridge_op {N} : SE (LuaScripting N) unit -> Prop :=
| op_registerFunction c defaults fname doc :
    bridge_op (registerFunction c defaults fname doc)
| op_setUndoRedoStackExempt fname exempt :
    bridge_op (setUndoRedoStackExempt fname exempt)
| op_registerLuaProvenanceFunctions : bridge_op registerLuaProvenanceFunctions
| op_exec fname args : bridge_op (exec fname args)
| op_issueUndo : bridge_op issueUndo
| op_issueRedo : bridge_op issueRedo
| op_clearProvenance : bridge_op clearProvenance
| op_setEnabled enabled : bridge_op (setEnabled enabled)
| op_enableProvReentryEx enable : bridge_op (enableProvReentryEx enable).

(** The states reached from a fresh bridge by these operations, whether
    they return or throw. *)
Inductive reachable {N} : LuaScripting N -> Prop :=
| reachable_new ns : reachable (LuaScripting_new ns)
| reachable_step st c r st' :
    reachable st -> bridge_op c -> c st = (r, st') -> reachable st'.

(** What holds of the bridge between any two operations: no call is being
    logged, the cursor is within the ledger, and every last-exec table
    holds one value per parameter. *)
Definition ledger_invariant {N} (st : LuaScripting N) : Prop :=
  not_logging st /\ cursor_ok st /\
  forall fname ft, mFunctions st !! fname = Some ft -> lastExec_wf ft.

(** A computation that keeps the invariant, whether it returns or throws. *)
Definition preserves_invariant {N A} (c : SE (LuaScripting N) A) : Prop :=
  forall st r st', ledger_invariant st -> c st = (r, st') -> ledger_invariant st'.

(** A ledger whose only record names a function that is not registered. *)
Definition ledger_orphan (cursor : nat) : LuaScripting unit :=
  mkScripting
    (mkProvenance true cursor [mkUndoRedoItem "gone" [] []] false true false)
    ∅ tt.

(* ===================================================================== *)
(** ** GLRenderer.cpp: the render areas                                  *)
(* ===================================================================== *)

Module Renderer.

(** Arithmetic on [UINT32], and the conversion of an argument to the
    [GLint] or [GLsizei] parameter of a GL entry point. *)
Definition UINT32 (z : Z) : Z := z mod 2 ^ 32.
Definition GLint (z : Z) : Z := static_cast_int z.

(** [UINTVECTOR2], with the component-wise difference and the division
    by a scalar that the code uses ([Basics/Vectors.h] is not among the
    sources). *)
Record UINTVECTOR2 := mkUINTVECTOR2 { x : Z; y : Z }.

Definition sub (a b : UINTVECTOR2) : UINTVECTOR2 :=
  mkUINTVECTOR2 (UINT32 (x a - x b)) (UINT32 (y a - y b)).
Definition div (a : UINTVECTOR2) (s : Z) : UINTVECTOR2 :=
  mkUINTVECTOR2 (UINT32 (x a / s)) (UINT32 (y a / s)).

(** The render areas that the two [switch] statements name;
    [RA_INVALID] stands for any other value, which takes the [default]
    branch. *)
Inductive ERenderArea :=
| RA_TOPLEFT | RA_TOPRIGHT | RA_LOWERLEFT | RA_LOWERRIGHT | RA_FULLSCREEN
| RA_INVALID.

#[global] Instance ERenderArea_eq_dec : EqDecision ERenderArea.
Proof. solve_decision. Defined.

(** The four arguments of [glViewport] and of [glScissor]: the lower left
    corner, the width and the height of a rectangle of pixels. *)
Record Rect := mkRect { left : Z; bottom : Z; width : Z; height : Z }.

(** [GLRenderer::SetViewPort], as far as the viewport goes: the
    rectangle it hands to [glViewport].  (The view and projection
    matrices that it also builds are floating-point data and are left
    out.) *)
Definition SetViewPort (viLowerLeft viUpperRight : UINTVECTOR2) : Rect :=
  let viSize := sub viUpperRight viLowerLeft in
  mkRect (GLint (x viLowerLeft)) (GLint (y viLowerLeft))
         (GLint (x viSize)) (GLint (y viSize)).

(** [GLRenderer::SetRenderTargetArea]: the viewport set for a render
    area in a window of size [m_vWinSize]; [None] when the [default]
    branch reports "Invalid render area set" and sets nothing. *)
Definition SetRenderTargetArea (m_vWinSize : UINTVECTOR2)
  (eREnderArea : ERenderArea) : option Rect :=
  match eREnderArea with
  | RA_TOPLEFT =>
      Some (SetViewPort (mkUINTVECTOR2 0 (UINT32 (y m_vWinSize / 2)))
                        (mkUINTVECTOR2 (UINT32 (x m_vWinSize / 2)) (y m_vWinSize)))
  | RA_TOPRIGHT => Some (SetViewPort (div m_vWinSize 2) m_vWinSize)
  | RA_LOWERLEFT => Some (SetViewPort (mkUINTVECTOR2 0 0) (div m_vWinSize 2))
  | RA_LOWERRIGHT =>
      Some (SetViewPort (mkUINTVECTOR2 (UINT32 (x m_vWinSize / 2)) 0)
                        (mkUINTVECTOR2 (x m_vWinSize) (UINT32 (y m_vWinSize / 2))))
  | RA_FULLSCREEN => Some (SetViewPort (mkUINTVECTOR2 0 0) m_vWinSize)
  | RA_INVALID => None
  end.

(** What [GLRenderer::SetRenderTargetAreaScissor] does to the scissor
    state: [glScissor] with a box followed by [glEnable(GL_SCISSOR_TEST)],
    [glDisable(GL_SCISSOR_TEST)], or nothing but an error message. *)
Inductive ScissorSetting :=
| ScissorBox (box : Rect)
| ScissorDisabled
| ScissorUntouched.

(** [GLRenderer::SetRenderTargetAreaScissor] *)
Definition SetRenderTargetAreaScissor (m_vWinSize : UINTVECTOR2)
  (eREnderArea : ERenderArea) : ScissorSetting :=
  match eREnderArea with
  | RA_TOPLEFT =>
      ScissorBox (mkRect (GLint 0) (GLint (UINT32 (y m_vWinSize / 2)))
                         (GLint (UINT32 (x m_vWinSize / 2))) (GLint (y m_vWinSize)))
  | RA_TOPRIGHT =>
      ScissorBox (mkRect (GLint (UINT32 (x m_vWinSize / 2)))
                         (GLint (UINT32 (y m_vWinSize / 2)))
                         (GLint (x m_vWinSize)) (GLint (y m_vWinSize)))
  | RA_LOWERLEFT =>
      ScissorBox (mkRect (GLint 0) (GLint 0)
                         (GLint (UINT32 (x m_vWinSize / 2)))
                         (GLint (UINT32 (y m_vWinSize / 2))))
  | RA_LOWERRIGHT =>
      ScissorBox (mkRect (GLint (UINT32 (x m_vWinSize / 2))) (GLint 0)
                         (GLint (x m_vWinSize))
                         (GLint (UINT32 (y m_vWinSize / 2))))
  | RA_FULLSCREEN => ScissorDisabled
  | RA_INVALID => ScissorUntouched
  end.

(** The pixel [(px, py)] lies in the rectangle. *)
Definition inside (r : Rect) (px py : Z) : Prop :=
  left r <= px < left r + width r /\ bottom r <= py < bottom r + height r.

#[global] Instance inside_dec r px py : Decision (inside r px py).
Proof. unfold inside. apply _. Defined.

(** The four areas of the two-by-two view. *)
Definition quadrants : list ERenderArea :=
  [RA_TOPLEFT; RA_TOPRIGHT; RA_LOWERLEFT; RA_LOWERRIGHT].

(** A window size that fits the [GLsizei] parameters. *)
Definition window_size (m_vWinSize : UINTVECTOR2) : Prop :=
  0 <= x m_vWinSize < 2 ^ 31 /\ 0 <= y m_vWinSize < 2 ^ 31.

End Renderer.

(* ===================================================================== *)
(** ** tvkserver: setting up the listening socket                        *)
(* ===================================================================== *)

Module TvkServer.

Definition EXIT_FAILURE : Z := 1.
Definition LISTEN_BACKLOG : Z := 50.

(** The line feed that ends the messages. *)
Definition LF : string :=
  String (Ascii.Ascii false true false true false false false false) "".

(** [snprintf(portc, 15, "%hu", port)]: the number of characters of the
    decimal representation of [port] (at most five for an
    [unsigned short], so that nothing is cut off). *)
Definition snprintf_hu (port : Z) : string * nat :=
  (pretty port, String.length (pretty port)).

(** The fields of [struct addrinfo] that the constructor reads. *)
Record addrinfo := mkAddrinfo {
  ai_family : Z;
  ai_socktype : Z;
  ai_protocol : Z;
  ai_addr : list Z;
  ai_addrlen : Z;
}.

(** An entry of the list that [getaddrinfo] returns, together with what
    the system answers when the constructor tries it: the result of
    [socket] and, should it come to that, the result of [bind]. *)
Record Attempt := mkAttempt {
  rp : addrinfo;
  socket_ret : Z;
  bind_ret : Z;
}.

(** What the constructor does to the outside. *)
Inductive Event :=
| fprintf_stderr (msg : string)
| printf (msg : string)
| call_getaddrinfo (service : string)
| call_socket (a : addrinfo) (fd : Z)
| call_bind (fd : Z) (a : addrinfo) (ret : Z)
| call_close (fd : Z)
| call_listen (fd backlog ret : Z)
| call_freeaddrinfo
| call_exit (status : Z).

(** The [for] loop over the addresses: [rp] when the loop ends ([None]
    for [NULL]), the value of [listen_s], and what was done. *)
Fixpoint bind_loop (result : list Attempt) (listen_s : Z)
  : option Attempt * Z * list Event :=
  match result with
  | [] => (None, listen_s, [])
  | a :: ai_next =>
      let listen_s := socket_ret a in
      if decide (listen_s = -1) then
        let '(r, s, events) := bind_loop ai_next listen_s in
        (r, s, call_socket (rp a) listen_s :: events)
      else if decide (bind_ret a = 0) then
        (Some a, listen_s,
         [call_socket (rp a) listen_s; call_bind listen_s (rp a) (bind_ret a)])
      else
        let '(r, s, events) := bind_loop ai_next listen_s in
        (r, s,
         call_socket (rp a) listen_s :: call_bind listen_s (rp a) (bind_ret a)
         :: call_close listen_s :: events)
  end.

(** How the constructor ends: the process has exited, or the server
    object exists and listens on [listen_s]. *)
Inductive Outcome :=
| Exited (status : Z)
| Listening (listen_s : Z).

(** [TvkServer::TvkServer(unsigned short port)].  [gai_ret] and [result]
    are what [getaddrinfo] answers, [listen_ret] what [listen] answers,
    and [listen_s] the value that the member happens to hold before the
    loop assigns it.  The argument of the debug message is not
    modelled. *)
Definition TvkServer_new (port gai_ret : Z) (result : list Attempt)
  (listen_ret listen_s : Z) : Outcome * list Event :=
  let '(portc, written) := snprintf_hu port in
  if decide (written <> 4%nat) then
    (Exited EXIT_FAILURE,
     [fprintf_stderr ("Server setup: port conversion to string failed" +:+ LF);
      call_exit EXIT_FAILURE])
  else if decide (gai_ret <> 0) then
    (Exited EXIT_FAILURE,
     [call_getaddrinfo portc;
      fprintf_stderr ("Server setup: getaddrinfo: %s" +:+ LF);
      call_exit EXIT_FAILURE])
  else
    let '(r, listen_s, events) := bind_loop result listen_s in
    match r with
    | None =>
        (Exited EXIT_FAILURE,
         call_getaddrinfo portc :: events
         ++ [fprintf_stderr ("Could not bind" +:+ LF); call_exit EXIT_FAILURE])
    | Some _ =>
        if decide (listen_ret < 0) then
          (Exited EXIT_FAILURE,
           call_getaddrinfo portc :: events
           ++ [call_listen listen_s LISTEN_BACKLOG listen_ret;
               fprintf_stderr ("ECHOSERV: Error calling listen()" +:+ LF);
               call_exit EXIT_FAILURE])
        else
          (Listening listen_s,
           call_getaddrinfo portc :: events
           ++ [call_listen listen_s LISTEN_BACKLOG listen_ret;
               printf ("Server created, listening on port %d." +:+ LF);
               call_freeaddrinfo])
    end.

(** The descriptors that [socket] handed out, and those given to
    [close], in the order of the calls. *)
Definition opened (events : list Event) : list Z :=
  omap (fun e => match e with
                 | call_socket _ fd => if decide (fd = -1) then None else Some fd
                 | _ => None
                 end) events.

Definition closed (events : list Event) : list Z :=
  omap (fun e => match e with call_close fd => Some fd | _ => None end) events.

(** An address that cannot be used: no socket for it, or no [bind]. *)
Definition unusable (a : Attempt) : Prop :=
  socket_ret a = -1 \/ bind_ret a <> 0.

#[global] Instance unusable_dec a : Decision (unusable a).
Proof. unfold unusable. apply _. Defined.

(** Two addresses, the first of which cannot be bound. *)
Definition two_addresses : list Attempt :=
  [mkAttempt (mkAddrinfo 10 1 6 [] 28) 3 (-1);
   mkAttempt (mkAddrinfo 2 1 6 [] 16) 3 0].

End TvkServer.

(* ===================================================================== *)
(** ** GLRenderer.cpp: locating and loading a shader pair                *)
(* ===================================================================== *)

Module ShaderLoading.

Section LoadAndVerifyShader.

(** [SysTools] and the memory manager are not among the sources: what
    they answer is a parameter of the development.  [GetSubDirList] is the
    answer to [SysTools::GetSubDirList("")]; [GetFromResourceOnMac] is
    present in a build for the Macintosh only; [GetGLSLProgram] answers
    [None] for a [NULL] program. *)
Variable GLSLProgram : Type.
Variable FileExists : string -> bool.
Variable GetSubDirList : list string.
Variable GetFilename : string -> string.
Variable GetFromResourceOnMac : option (string -> string).
Variable GetGLSLProgram : string -> string -> option GLSLProgram.
Variable IsValid : GLSLProgram -> bool.

(** What the function reports and releases. *)
Inductive Event :=
| DebugOut_Error (format : string) (args : list string)
| DebugOut_Message (format : string) (args : list string)
| FreeGLSLProgram (program : option GLSLProgram).

(** The [#if defined(macintosh) ...] lines. *)
Definition resource_file (strFile : string) : string :=
  match GetFromResourceOnMac with
  | Some fromResource =>
      if FileExists (fromResource strFile) then fromResource strFile else strFile
  | None => strFile
  end.

(** The loop that probes the subdirectories for a file name: the first
    path that exists, or the empty string. *)
Fixpoint probe_subdirs (subdirs : list string) (strDirlessFile : string)
  : string :=
  match subdirs with
  | [] => ""
  | dir :: subdirs' =>
      let strTestFile := dir +:+ "/" +:+ strDirlessFile in
      if FileExists strTestFile then strTestFile
      else probe_subdirs subdirs' strDirlessFile
  end.

(** [GLRenderer::LoadAndVerifyShader(strVSFile, strFSFile, pShaderProgram,
    bSearchSubdirs)]: the value returned, the program that
    [*pShaderProgram] holds afterwards, and what was reported and
    released. *)
Definition LoadAndVerifyShader (strVSFile strFSFile : string)
  (pShaderProgram : option GLSLProgram) (bSearchSubdirs : bool)
  : bool * option GLSLProgram * list Event :=
  let strVSFile := resource_file strVSFile in
  let strFSFile := resource_file strFSFile in
  let vertex :=
    if negb (FileExists strVSFile) && bSearchSubdirs then
      let subdirs := GetSubDirList ++ ["."] in
      let strDirlessVSFile := GetFilename strVSFile in
      let strActualVSFile := probe_subdirs subdirs strDirlessVSFile in
      if String.eqb strActualVSFile "" then
        inl [DebugOut_Error "Unable to locate vertex shader %s (%s)"
               [strDirlessVSFile; strVSFile]]
      else
        inr (strActualVSFile,
             [DebugOut_Message "Changed vertex shader %s to %s"
                [strVSFile; strActualVSFile]])
    else inr (strVSFile, []) in
  match vertex with
  | inl events => (false, pShaderProgram, events)
  | inr (strActualVSFile, eventsVS) =>
      let fragment :=
        if negb (FileExists strFSFile) && bSearchSubdirs then
          let subdirs := GetSubDirList ++ ["."] in
          let strDirlessFSFile := GetFilename strFSFile in
          let strActualFSFile := probe_subdirs subdirs strDirlessFSFile in
          if String.eqb strActualFSFile "" then
            inl [DebugOut_Error "Unable to locate fragment shader %s (%s)"
                   [strDirlessFSFile; strFSFile]]
          else
            inr (strActualFSFile,
                 [DebugOut_Message "Changed fragment shader %s to %s"
                    [strFSFile; strActualFSFile]])
        else inr (strFSFile, []) in
      match fragment with
      | inl events => (false, pShaderProgram, eventsVS ++ events)
      | inr (strActualFSFile, eventsFS) =>
          if FileExists strActualVSFile && FileExists strActualFSFile then
            let program := GetGLSLProgram strActualVSFile strActualFSFile in
            if match program with
               | None => true
               | Some p => negb (IsValid p)
               end
            then
              (false, program,
               eventsVS ++ eventsFS ++
               [DebugOut_Error
                  "Error loading a shader combination VS %s and FS %s."
                  [strActualVSFile; strActualFSFile];
                FreeGLSLProgram program])
            else (true, program, eventsVS ++ eventsFS)
          else (false, None, eventsVS ++ eventsFS)
      end
  end.

(** [GLRenderer::LoadAndVerifyShader(strVSFile, strFSFile, strDirs,
    pShaderProgram)]: the given directories in their order, then the
    current directory and all of its subdirectories. *)
Fixpoint LoadAndVerifyShader_in (strDirs : list string)
  (strVSFile strFSFile : string) (pShaderProgram : option GLSLProgram)
  : bool * option GLSLProgram * list Event :=
  match strDirs with
  | [] => LoadAndVerifyShader strVSFile strFSFile pShaderProgram true
  | dir :: strDirs' =>
      let strCompleteVSFile := dir +:+ "/" +:+ strVSFile in
      let strCompleteFSFile := dir +:+ "/" +:+ strFSFile in
      let '(loaded, program, events) :=
        LoadAndVerifyShader strCompleteVSFile strCompleteFSFile
          pShaderProgram false in
      if loaded then (true, program, events)
      else
        let '(loaded', program', events') :=
          LoadAndVerifyShader_in strDirs' strVSFile strFSFile program in
        (loaded', program', events ++ events')
  end.

(** The pair of files loads from the directory [dir]. *)
Definition loads_from (dir strVSFile strFSFile : string) (p : GLSLProgram)
  : Prop :=
  let vs := resource_file (dir +:+ "/" +:+ strVSFile) in
  let fs := resource_file (dir +:+ "/" +:+ strFSFile) in
  FileExists vs = true /\ FileExists fs = true /\
  GetGLSLProgram vs fs = Some p /\ IsValid p = true.

End LoadAndVerifyShader.

(** A file system that holds the two shaders in the directory [Shaders]
    only, and a memory manager whose programs are the pairs of paths. *)
Definition only_in_Shaders (file : string) : bool :=
  bool_decide (file = "Shaders/a.vert" \/ file = "Shaders/a.frag").

Definition pair_program (vs fs : string) : option (string * string) :=
  Some (vs, fs).

Definition always_valid (p : string * string) : bool := true.

End ShaderLoading.

(* ===================================================================== *)
(** ** Fixtures                                                          *)
(* ===================================================================== *)

(** [class A] of [ProvenanceClassTests], restricted to its integer and
    string members, with its setters as registered callables. *)
Record A := mkA { i1 : Z; i2 : Z; s1 : string; s2 : string }.

Definition A_new : A := mkA 0 0 "" "".

Definition set_i1 (p : Params) (a : A) : Res A :=
  match p with
  | [LNumber i] => Ok (mkA (static_cast_int i) (i2 a) (s1 a) (s2 a))
  | _ => Throw (MarshalTypeError "set_i1")
  end.

Definition set_i2 (p : Params) (a : A) : Res A :=
  match p with
  | [LNumber i] => Ok (mkA (i1 a) (static_cast_int i) (s1 a) (s2 a))
  | _ => Throw (MarshalTypeError "set_i2")
  end.

Definition set_s1 (p : Params) (a : A) : Res A :=
  match p with
  | [LString s] => Ok (mkA (i1 a) (i2 a) s (s2 a))
  | _ => Throw (MarshalTypeError "set_s1")
  end.

(** The setters of [class A] as one function of the registered name: the
    value written is the one the parameters carry (the default of the
    type when they carry none). *)
Definition int_of_params (p : Params) : Z :=
  match p with [LNumber i] => static_cast_int i | _ => 0 end.

Definition string_of_params (p : Params) : string :=
  match p with [LString s] => s | _ => "" end.

Definition A_set (fname : string) (p : Params) (a : A) : A :=
  if String.eqb fname "set_i1" then mkA (int_of_params p) (i2 a) (s1 a) (s2 a)
  else if String.eqb fname "set_i2" then mkA (i1 a) (int_of_params p) (s1 a) (s2 a)
  else if String.eqb fname "set_s1" then mkA (i1 a) (i2 a) (string_of_params p) (s2 a)
  else a.

Definition register_A : SE (LuaScripting A) unit :=
  registerLuaProvenanceFunctions ;;;
  registerFunction (NativeFunction set_i1) [LNumber 0] "set_i1" "" ;;;
  registerFunction (NativeFunction set_i2) [LNumber 0] "set_i2" "" ;;;
  registerFunction (NativeFunction set_s1) [LString ""] "set_s1" "".

(** The bridge of [ProvenanceClassTests] after registration. *)
Definition bridge_A : LuaScripting A := snd (register_A (LuaScripting_new A_new)).

(** The calls of the specification's end-to-end scenario. *)
Definition calls_A : list (string * Params) :=
  [("set_i1", [LNumber 1]); ("set_i1", [LNumber 2]); ("set_i2", [LNumber 10])].

Definition bridge_A_after_calls : LuaScripting A := snd (exec_all calls_A bridge_A).

(** The function tables that [register_A] creates for the setters. *)
Definition ft_set_i1 : FunctionTable A :=
  mkFunctionTable "" false [LNumber 0] (table_of_params [LNumber 0])
    (Some (Some (NativeFunction set_i1))).
Definition ft_set_i2 : FunctionTable A :=
  mkFunctionTable "" false [LNumber 0] (table_of_params [LNumber 0])
    (Some (Some (NativeFunction set_i2))).

(** The bridge of [ProvenanceStaticTests]: the static [s1] starts at
    ["nop"], not at the default of its type. *)
Definition bridge_static : LuaScripting A :=
  snd (register_A (LuaScripting_new (mkA 0 0 "nop" ""))).

(** A registered function that does not overwrite but accumulates, like
    the [addShaderPath] that [batchrender/test.lua] calls: the native
    state is the list of paths added so far. *)
Definition addShaderPath (p : Params) (paths : list string) : Res (list string) :=
  match p with
  | [LString path] => Ok (paths ++ [path])
  | _ => Throw (MarshalTypeError "addShaderPath")
  end.

Definition bridge_paths : LuaScripting (list string) :=
  snd (registerFunction (NativeFunction addShaderPath) [LString ""]
         "addShaderPath" "" (LuaScripting_new [])).

(** A registered function that throws on some arguments: a loader that
    cannot open the empty file name.  The native state is the name of the
    loaded file. *)
Definition loadDataset (p : Params) (loaded : string) : Res string :=
  match p with
  | [LString ""] => Throw (NativeException "cannot open file")
  | [LString file] => Ok file
  | _ => Throw (MarshalTypeError "loadDataset")
  end.

Definition bridge_loader : LuaScripting string :=
  snd (registerFunction (NativeFunction loadDataset) [LString ""]
         "loadDataset" "" (LuaScripting_new "")).

(** The loader after one successful call: undoing it replays the loader
    on the default (empty) file name, which throws. *)
Definition loader_after_call : LuaScripting string :=
  snd (exec "loadDataset" [LString "data.uvf"] bridge_loader).

(** The loader after three successful calls. *)
Definition loader_after_calls : LuaScripting string :=
  snd (exec_all [("loadDataset", [LString "a.uvf"]);
                 ("loadDataset", [LString "b.uvf"]);
                 ("loadDataset", [LString "c.uvf"])] bridge_loader).

(** The bridge with the accumulating function after one call of it. *)
Definition paths_after_call : LuaScripting (list string) :=
  snd (exec "addShaderPath" [LString "a"] bridge_paths).

(** The record on top of the ledger after [calls_A], and the function
    table of its setter at that point. *)
Definition item_set_i2 : UndoRedoItem :=
  mkUndoRedoItem "set_i2" [LNumber 0] [LNumber 10].

Definition ft_set_i2_called : FunctionTable A :=
  set_ft_lastExec (table_of_params [LNumber 10]) ft_set_i2.

(** An empty stack beside an instance table in which instance 7 is
    live. *)
Definition L_instances : lua_State :=
  mkState [] {[ 7 := instance_table "globalID" ∅ 7 ]}.

(** A stack holding a table that carries the marker field with the value
    [false] and a metatable naming instance 7, and a table with neither. *)
Definition L_tables : lua_State :=
  mkState [LTable {[ KStr "_DefaultInstance_" := LBoolean false ]}
                  (Some {[ KStr "globalID" := LNumber 7 ]});
           LTable ∅ None] ∅.

(** A stack holding, at index 1, a table whose second element is not a
    boolean. *)
Definition L_mixed : lua_State :=
  mkState [LTable (<[KInt 2 := LNumber 7]> (<[KInt 1 := LBoolean true]> ∅)) None] ∅.

(** The loader registered as an exempt function. *)
Definition bridge_loader_exempt : LuaScripting string :=
  snd ((registerFunction (NativeFunction loadDataset) [LString ""]
          "loadDataset" "" ;;;
        setUndoRedoStackExempt "loadDataset" true) (LuaScripting_new "")).

(** A freshly constructed bridge without application state. *)
Definition bridge_unit : LuaScripting unit := LuaScripting_new tt.

(** A stack with a sparse table at index 2: integer keys 1 and 3. *)
Definition L_sparse : lua_State :=
  mkState [LNumber 7;
           LTable (<[KInt 3 := LNumber 30]> (<[KInt 1 := LNumber 10]> ∅)) None;
           LNil]
          ∅.

(* ===================================================================== *)
(** ** Stack lemmas                                                      *)
(* ===================================================================== *)

Ltac se_unfold :=
  unfold bind, ret, gets, modify, throw, try_rethrow in *.

Ltac unfold_setters :=
  unfold on_provenance, on_functions, set_mNative, set_mEnabled,
    set_mStackPointer, set_mUndoRedoStack, set_mLoggingProvenance,
    set_mDoProvReenterException, set_mUndoRedoProvenanceDisable in *.

Lemma top_push v L : top (push_value v L) = top L + 1.
Proof. unfold top, push_value, with_stack; simpl. rewrite length_app; simpl. lia. Qed.

Lemma pop_push v L : pop_values 1 (push_value v L) = L.
Proof.
  destruct L as [s inst]. unfold pop_values, push_value, with_stack; simpl.
  f_equal. rewrite length_app; simpl.
  replace (length s + 1 - 1)%nat with (length s) by lia.
  by rewrite take_app_length.
Qed.

Lemma pop_push2 v w L : pop_values 2 (push_value w (push_value v L)) = L.
Proof.
  destruct L as [s inst]. unfold pop_values, push_value, with_stack; simpl.
  f_equal. rewrite !length_app; simpl.
  replace (length s + 1 + 1 - 2)%nat with (length s) by lia.
  rewrite <- app_assoc. by rewrite take_app_length.
Qed.

Lemma index2adr_push_top v L : index2adr (push_value v L) (-1) = Some v.
Proof.
  unfold index2adr, abs_index. rewrite top_push.
  unfold top, push_value, with_stack; simpl.
  repeat case_decide; try lia.
  replace (Z.to_nat (Z.of_nat (length (stack L)) + 1 + -1)) with (length (stack L)) by lia.
  by rewrite list_lookup_middle.
Qed.

Lemma index2adr_push_new v L : index2adr (push_value v L) (top L + 1) = Some v.
Proof.
  unfold index2adr, abs_index. rewrite top_push.
  unfold top, push_value, with_stack; simpl.
  repeat case_decide; try lia.
  replace (Z.to_nat (Z.of_nat (length (stack L)) + 1 - 1)) with (length (stack L)) by lia.
  by rewrite list_lookup_middle.
Qed.

Lemma index2adr_pos_bound L idx v :
  0 < idx -> index2adr L idx = Some v -> idx <= top L.
Proof.
  unfold index2adr, abs_index. intros Hpos.
  repeat case_decide; try lia; discriminate.
Qed.

(** A push does not disturb what an absolute index designates. *)
Lemma index2adr_push_pos w L idx v :
  0 < idx -> index2adr L idx = Some v ->
  index2adr (push_value w L) idx = Some v.
Proof.
  intros Hpos Hv. pose proof (index2adr_pos_bound _ _ _ Hpos Hv) as Hb.
  revert Hv. unfold index2adr, abs_index. rewrite top_push.
  repeat case_decide; try lia.
  unfold push_value, with_stack; simpl. intros Hv.
  by rewrite lookup_app_l by (by eapply lookup_lt_Some).
Qed.

Lemma is_nil_type_of v : bool_decide (type_of v = LUA_TNIL) = is_nil v.
Proof. by destruct v. Qed.

Lemma is_nil_true v : is_nil v = true <-> v = LNil.
Proof. destruct v; simpl; split; congruence. Qed.

Lemma is_nil_false v : is_nil v = false <-> v <> LNil.
Proof. destruct v; simpl; split; congruence. Qed.

Lemma lua_isnil_at L idx v :
  index2adr L idx = Some v -> lua_isnil idx L = (Ok (is_nil v), L).
Proof.
  intros Hv. unfold lua_isnil, lua_type. se_unfold. rewrite Hv.
  by rewrite is_nil_type_of.
Qed.

Lemma lua_gettable_at L pos f m k :
  0 < pos -> index2adr L pos = Some (LTable f m) ->
  lua_gettable pos (push_value (LNumber k) L)
  = (Ok tt, push_value (rawget f (KInt k)) L).
Proof.
  intros Hpos Ht. unfold lua_gettable.
  rewrite (index2adr_push_pos _ _ _ _ Hpos Ht), index2adr_push_top; simpl.
  by rewrite pop_push.
Qed.

Lemma lua_setfield_top2 L f m k v :
  lua_setfield (-2) k (push_value v (push_value (LTable f m) L))
  = (Ok tt, push_value (LTable (rawset f (KStr k) v) m) L).
Proof.
  destruct L as [s inst]. unfold lua_setfield.
  unfold index2adr, abs_index, top, push_value, with_stack; simpl.
  rewrite !length_app; simpl.
  repeat case_decide; try lia.
  replace (Z.to_nat (Z.of_nat (length s + 1 + 1) + -2)) with (length s) by lia.
  replace (Z.to_nat (Z.of_nat (length s + 1 + 1) + -1)) with (length (s ++ [LTable f m])) 
    by (rewrite length_app; simpl; lia).
  rewrite (list_lookup_middle (s ++ [LTable f m]) [] v (length (s ++ [LTable f m]))) by done.
  rewrite <- app_assoc; simpl. rewrite list_lookup_middle by done.
  unfold pop_values, store_table, with_stack; simpl.
  do 2 f_equal.
  replace (length s) with (length s + 0)%nat at 2 by lia.
  rewrite insert_app_r; simpl.
  rewrite length_insert, length_app; simpl.
  replace (length s + 2 - 1)%nat with (length (s ++ [LTable (rawset f (KStr k) v) m]))
    by (rewrite length_app; simpl; lia).
  replace (s ++ [LTable (rawset f (KStr k) v) m; v])
    with ((s ++ [LTable (rawset f (KStr k) v) m]) ++ [v]) by (by rewrite <- app_assoc).
  by rewrite take_app_length.
Qed.

(** The three calls that build the marker table leave exactly that table
    on top of the stack. *)
Lemma push_marker_table_spec L :
  push_marker_table L = (Ok tt, push_value marker_table L).
Proof.
  unfold push_marker_table, lua_newtable, lua_pushboolean. se_unfold.
  rewrite lua_setfield_top2. unfold rawset; simpl.
  by rewrite insert_empty.
Qed.

(* ===================================================================== *)
(** ** Properties of the class-instance binding                          *)
(* ===================================================================== *)

Section ClassInstanceProps.

Variable DEFAULT_INSTANCE_ID : Z.
Variable MD_GLOBAL_INSTANCE_ID : string.

Local Abbreviation get_instance := (LuaClassInstance_get DEFAULT_INSTANCE_ID MD_GLOBAL_INSTANCE_ID).
Local Abbreviation push_instance := (LuaClassInstance_push DEFAULT_INSTANCE_ID).
Local Abbreviation sentinel := (mkInstance DEFAULT_INSTANCE_ID).

Lemma LuaClassInstance_get_nil L pos :
  index2adr L pos = Some LNil -> get_instance pos L = (Ok sentinel, L).
Proof.
  intros Hnil. unfold LuaClassInstance_get.
  unfold bind at 1. by rewrite (lua_isnil_at _ _ _ Hnil).
Qed.

Lemma LuaClassInstance_push_sentinel L :
  push_instance sentinel L = (Ok tt, push_value marker_table L).
Proof.
  unfold LuaClassInstance_push; simpl.
  rewrite decide_False by (intros Hne; by apply Hne).
  apply push_marker_table_spec.
Qed.

Lemma LuaClassInstance_push_deleted L id :
  id <> DEFAULT_INSTANCE_ID ->
  default LNil (instances L !! id) = LNil ->
  push_instance (mkInstance id) L = (Ok tt, push_value marker_table L).
Proof.
  intros Hid Hgone. unfold LuaClassInstance_push; simpl.
  rewrite decide_True by done.
  unfold luaL_dostring_return_instance, bind at 1, modify.
  rewrite Hgone. unfold bind at 1.
  rewrite (lua_isnil_at _ _ _ (index2adr_push_top _ _)); simpl.
  unfold bind, lua_pop, modify; simpl. rewrite pop_push.
  apply push_marker_table_spec.
Qed.

(** A live instance is pushed as the table registered for its id. *)
Lemma LuaClassInstance_push_live L id v :
  id <> DEFAULT_INSTANCE_ID ->
  instances L !! id = Some v -> v <> LNil ->
  push_instance (mkInstance id) L = (Ok tt, push_value v L).
Proof.
  intros Hid Hlive Hv. unfold LuaClassInstance_push; simpl.
  rewrite decide_True by done.
  unfold luaL_dostring_return_instance, bind at 1, modify.
  rewrite Hlive; simpl. unfold bind at 1.
  rewrite (lua_isnil_at _ _ _ (index2adr_push_top _ _)).
  apply is_nil_false in Hv. by rewrite Hv.
Qed.

(** Reading the marker table back yields the sentinel again. *)
Lemma LuaClassInstance_get_marker L pos :
  index2adr L pos = Some marker_table -> get_instance pos L = (Ok sentinel, L).
Proof.
  intros Hm. unfold LuaClassInstance_get.
  unfold bind at 1. rewrite (lua_isnil_at _ _ _ Hm); simpl.
  unfold bind at 1, lua_getfield. rewrite Hm; simpl.
  unfold bind at 1.
  rewrite (lua_isnil_at _ _ _ (index2adr_push_top _ _)).
  unfold rawget. rewrite lookup_singleton_eq; simpl.
  unfold bind, lua_pop, modify, ret; simpl. by rewrite pop_push.
Qed.

(** Reading a live instance yields the id stored in its metatable. *)
Lemma LuaClassInstance_get_live L pos fields id :
  0 < pos ->
  index2adr L pos = Some (instance_table MD_GLOBAL_INSTANCE_ID fields id) ->
  rawget fields (KStr "_DefaultInstance_") = LNil ->
  get_instance pos L = (Ok (mkInstance (static_cast_int id)), L).
Proof.
  intros Hpos Hi Hfield. unfold LuaClassInstance_get, instance_table in *.
  unfold bind at 1. rewrite (lua_isnil_at _ _ _ Hi); simpl.
  unfold bind at 1, lua_getfield. rewrite Hi; simpl.
  unfold bind at 1.
  rewrite (lua_isnil_at _ _ _ (index2adr_push_top _ _)).
  rewrite Hfield; simpl.
  unfold bind at 1, lua_pop, modify; simpl. rewrite pop_push.
  unfold bind at 1, lua_getmetatable. rewrite Hi; simpl.
  unfold bind at 1. rewrite index2adr_push_top; simpl.
  unfold bind at 1, luaL_checkinteger. rewrite index2adr_push_top.
  unfold rawget. rewrite lookup_singleton_eq; simpl.
  unfold bind, modify, ret; simpl. by rewrite pop_push2.
Qed.


End ClassInstanceProps.

(* ===================================================================== *)
(** ** Class instances through the stack and back                        *)
(* ===================================================================== *)

Lemma static_cast_int_id z : - 2 ^ 31 <= z < 2 ^ 31 -> static_cast_int z = z.
Proof. intros Hz. unfold static_cast_int. rewrite Z.mod_small; lia. Qed.

Section ClassInstanceRoundTrip.

Variable DEFAULT_INSTANCE_ID : Z.
Variable MD_GLOBAL_INSTANCE_ID : string.

Local Abbreviation get_instance := (LuaClassInstance_get DEFAULT_INSTANCE_ID MD_GLOBAL_INSTANCE_ID).
Local Abbreviation push_instance := (LuaClassInstance_push DEFAULT_INSTANCE_ID).
Local Abbreviation sentinel := (mkInstance DEFAULT_INSTANCE_ID).
Local Abbreviation instance_table := (instance_table MD_GLOBAL_INSTANCE_ID).


(** X16.  [get] on a table looks at the field [_DefaultInstance_] first:
    whenever that field is not [nil] -- whatever its value and whatever
    the metatable says -- the table reads as the sentinel handle.  A
    table without that field and without a metatable makes [get] throw
    [LuaError], with the stack as it was. *)
Theorem LuaClassInstance_get_on_tables :
  (forall L pos f m,
      index2adr L pos = Some (LTable f m) ->
      rawget f (KStr "_DefaultInstance_") <> LNil ->
      get_instance pos L = (Ok sentinel, L))
  /\ (forall L pos f,
         index2adr L pos = Some (LTable f None) ->
         rawget f (KStr "_DefaultInstance_") = LNil ->
         get_instance pos L
         = (Throw (LuaError "Unable to find class metatable."), L)).
Proof.
  split.
  - intros L pos f m Ht Hmark. unfold LuaClassInstance_get.
    unfold bind at 1. rewrite (lua_isnil_at _ _ _ Ht); simpl.
    unfold bind at 1, lua_getfield. rewrite Ht; simpl.
    unfold bind at 1.
    rewrite (lua_isnil_at _ _ _ (index2adr_push_top _ _)).
    apply is_nil_false in Hmark. rewrite Hmark.
    unfold bind, lua_pop, modify, ret; simpl. by rewrite pop_push.
  - intros L pos f Ht Hmark. unfold LuaClassInstance_get.
    unfold bind at 1. rewrite (lua_isnil_at _ _ _ Ht); simpl.
    unfold bind at 1, lua_getfield. rewrite Ht; simpl.
    unfold bind at 1.
    rewrite (lua_isnil_at _ _ _ (index2adr_push_top _ _)).
    rewrite Hmark; simpl.
    unfold bind at 1, lua_pop, modify; simpl. rewrite pop_push.
    unfold bind at 1, lua_getmetatable. by rewrite Ht.
Qed.

End ClassInstanceRoundTrip.

(* ===================================================================== *)
(** ** Properties of the vector binding                                  *)
(* ===================================================================== *)

Lemma int_lawful_get : lawful_get int_from_value.
Proof.
  intros L pos v x _ Hv Hx. simpl. unfold bind, luaL_checkinteger, ret.
  rewrite Hv. destruct v; simpl in Hx; try discriminate. by injection Hx as ->.
Qed.

Lemma string_lawful_get : lawful_get string_from_value.
Proof.
  intros L pos v x _ Hv Hx. simpl. unfold luaL_checkstring.
  rewrite Hv. destruct v; simpl in Hx; try discriminate. by injection Hx as ->.
Qed.

Section VectorProps.

Context {T : Type} `{LuaStrictStack T}.
Variable from_value : LuaValue -> Res T.
Hypothesis Hlawful : lawful_get from_value.

Local Abbreviation reads_from := (reads_from from_value).

Lemma reads_from_tail f index x xs :
  reads_from f index (x :: xs) -> reads_from f (index + 1) xs.
Proof using Type.
  intros Hr i y Hy. specialize (Hr (S i) y Hy).
  by replace (index + 1 + Z.of_nat i) with (index + Z.of_nat (S i)) by lia.
Qed.

Lemma vector_get_loop_prefix xs :
  forall fuel L pos f m index acc,
    0 < pos -> index2adr L pos = Some (LTable f m) ->
    reads_from f index xs ->
    rawget f (KInt (index + Z.of_nat (length xs))) = LNil ->
    (length xs < fuel)%nat ->
    vector_get_loop fuel pos index acc L = (Ok (acc ++ xs), L).
Proof using Hlawful.
  induction xs as [| x xs IH]; intros fuel L pos f m index acc Hpos Ht Hr Hend Hfuel.
  - destruct fuel as [| fuel]; [simpl in Hfuel; lia |]. simpl.
    unfold bind at 1, lua_pushinteger, modify.
  unfold bind at 1. rewrite (lua_gettable_at _ _ _ _ _ Hpos Ht).
    unfold bind at 1. rewrite (lua_isnil_at _ _ _ (index2adr_push_top _ _)).
    simpl in Hend. rewrite Z.add_0_r in Hend. rewrite Hend; simpl.
    unfold bind, lua_pop, modify, ret; simpl.
    by rewrite pop_push, app_nil_r.
  - destruct fuel as [| fuel]; [simpl in Hfuel; lia |]. simpl.
    unfold bind at 1, lua_pushinteger, modify.
  unfold bind at 1. rewrite (lua_gettable_at _ _ _ _ _ Hpos Ht).
    unfold bind at 1. rewrite (lua_isnil_at _ _ _ (index2adr_push_top _ _)).
    destruct (Hr O x eq_refl) as [Hnn Hx]. rewrite Z.add_0_r in Hnn, Hx.
    apply is_nil_false in Hnn. rewrite Hnn.
    unfold bind at 1, lua_gettop, gets. rewrite top_push.
    unfold bind at 1.
    assert (Htop : 0 < top L + 1) by (unfold top; lia).
  rewrite (Hlawful _ _ _ x Htop (index2adr_push_new _ _) Hx).
    unfold bind at 1, lua_pop, modify; simpl. rewrite pop_push.
    rewrite (IH fuel L pos f m (index + 1) (acc ++ [x]) Hpos Ht).
    + by rewrite <- app_assoc.
    + by eapply reads_from_tail.
    + rewrite <- Hend. do 2 f_equal. simpl length. lia.
    + simpl in Hfuel. lia.
Qed.

(** The keys [1..n] of a table are [n] distinct entries of it. *)
Lemma present_keys_bound (f : gmap LuaKey LuaValue) (n : nat) :
  (forall i : nat, (i < n)%nat -> rawget f (KInt (1 + Z.of_nat i)) <> LNil) ->
  (n <= size f)%nat.
Proof using Type.
  intros Hpresent.
  set (keys := (fun i : nat => KInt (1 + Z.of_nat i)) <$> seq 0 n).
  assert (Hnodup : NoDup keys).
  { apply NoDup_fmap_2; [| apply NoDup_seq].
    intros i j Hij. injection Hij. lia. }
  assert (Hsub : (list_to_set keys : gset LuaKey) ⊆ dom f).
  { intros k Hk. apply elem_of_list_to_set in Hk.
    apply list_elem_of_fmap in Hk as (i & -> & Hi).
    apply elem_of_seq in Hi. apply elem_of_dom.
    specialize (Hpresent i ltac:(lia)). unfold rawget in Hpresent.
    destruct (f !! KInt (1 + Z.of_nat i)); [eauto | done]. }
  apply subseteq_size in Hsub.
  rewrite size_list_to_set in Hsub by done.
  rewrite size_dom in Hsub.
  unfold keys in Hsub. by rewrite length_fmap, length_seq in Hsub.
Qed.

Lemma vector_get_prefix L pos f m xs :
  0 < pos -> index2adr L pos = Some (LTable f m) ->
  reads_from f 1 xs ->
  rawget f (KInt (1 + Z.of_nat (length xs))) = LNil ->
  vector_get pos L = (Ok xs, L).
Proof using Hlawful.
  intros Hpos Ht Hr Hend. unfold vector_get.
  assert (Hfuel : (length xs < S (size f))%nat).
  { apply Nat.lt_succ_r, present_keys_bound.
    intros i Hi. destruct (lookup_lt_is_Some_2 xs i Hi) as [x Hx].
    by destruct (Hr i x Hx). }
  pose proof (vector_get_loop_prefix xs (S (size f)) L pos f m 1 [] Hpos Ht Hr Hend Hfuel)
    as Hloop.
  unfold bind at 1, luaL_checktype, bind at 1, lua_type, gets.
  rewrite Ht. cbn [type_of]. rewrite decide_True by done. unfold ret at 1.
  unfold bind at 1, table_entries, gets. rewrite Ht.
  exact Hloop.
Qed.

End VectorProps.

(** C8.  The sequence binding reads the table at the given stack position
    at the integer keys 1, 2, 3, ... and stops at the first key that is
    missing: if the keys [1 .. n] hold values the element binding accepts
    and key [n+1] is missing, [get] returns those [n] elements, leaves the
    stack as it was and raises nothing.  In particular a table whose
    integer keys are 1 and 3 marshals to the one-element sequence holding
    the value at key 1. *)
Theorem vector_get_stops_at_first_missing_key
  (T : Type) (B : LuaStrictStack T) (from_value : LuaValue -> Res T) :
  lawful_get from_value ->
  (forall L pos f m xs,
      0 < pos -> index2adr L pos = Some (LTable f m) ->
      reads_from from_value f 1 xs ->
      rawget f (KInt (1 + Z.of_nat (length xs))) = LNil ->
      get (T := list T) pos L = (Ok xs, L))
  /\ (forall L pos f m x1,
         0 < pos -> index2adr L pos = Some (LTable f m) ->
         (forall i, rawget f (KInt i) <> LNil <-> i = 1 \/ i = 3) ->
         from_value (rawget f (KInt 1)) = Ok x1 ->
         get (T := list T) pos L = (Ok [x1], L)).
Proof.
  intros Hlawful. split.
  - intros L pos f m xs. by apply vector_get_prefix.
  - intros L pos f m x1 Hpos Ht Hkeys Hx1.
    apply (vector_get_prefix from_value Hlawful L pos f m [x1] Hpos Ht).
    + intros [| i] x Hx; simpl in Hx; [| done]. injection Hx as <-.
      split; [apply Hkeys; by left | done].
    + simpl. destruct (rawget f (KInt 2)) eqn:H2; [done | ..];
        (assert (Hne : rawget f (KInt 2) <> LNil) by (by rewrite H2);
         apply Hkeys in Hne; lia).
Qed.

(* ===================================================================== *)
(** ** The last-exec table                                               *)
(* ===================================================================== *)

Lemma rawset_lookup t k v k' :
  rawset t k v !! k' =
  if decide (k = k') then (if is_nil v then None else Some v) else t !! k'.
Proof.
  unfold rawset. destruct (is_nil v); case_decide; subst.
  - apply lookup_delete_eq.
  - by apply lookup_delete_ne.
  - apply lookup_insert_eq.
  - by apply lookup_insert_ne.
Qed.

Lemma copyParamsToTable_S t n pushed :
  copyParamsToTable t (S n) pushed =
  rawset (copyParamsToTable t n pushed) (KInt (Z.of_nat n))
         (default LNil (pushed !! n)).
Proof. unfold copyParamsToTable. by rewrite seq_S, foldl_app. Qed.

(** What a table holds after its first [n] slots have been overwritten. *)
Lemma copyParamsToTable_lookup t n pushed k :
  copyParamsToTable t n pushed !! k =
  match k with
  | KInt z =>
      if decide (0 <= z < Z.of_nat n) then
        (let v := default LNil (pushed !! Z.to_nat z) in
         if is_nil v then None else Some v)
      else t !! k
  | KStr _ => t !! k
  end.
Proof.
  induction n as [| n IH].
  - unfold copyParamsToTable; simpl. destruct k; [| done].
    by rewrite decide_False by lia.
  - rewrite copyParamsToTable_S, rawset_lookup, IH. destruct k as [z | s].
    + destruct (decide (KInt (Z.of_nat n) = KInt z)) as [Heq | Hne].
      * injection Heq as <-. rewrite decide_True by lia. by rewrite Nat2Z.id.
      * assert (z <> Z.of_nat n) by congruence.
        destruct (decide (0 <= z < Z.of_nat n)).
        -- by rewrite decide_True by lia.
        -- by rewrite decide_False by lia.
    + by rewrite decide_False by discriminate.
Qed.

Lemma table_of_params_rawget ps (i : nat) :
  rawget (table_of_params ps) (KInt (Z.of_nat i)) = default LNil (ps !! i).
Proof.
  unfold rawget, table_of_params. rewrite copyParamsToTable_lookup.
  destruct (decide (0 <= Z.of_nat i < Z.of_nat (length ps))) as [Hin | Hout].
  - rewrite Nat2Z.id. cbv zeta. by destruct (ps !! i) as [[]|].
  - rewrite lookup_empty; simpl. rewrite lookup_ge_None_2; [done | lia].
Qed.

(** Reading the table back returns the parameters it was made from. *)
Lemma lastExec_read_table_of_params ps :
  lastExec_read (table_of_params ps) (length ps) = ps.
Proof.
  unfold lastExec_read. apply list_eq. intros i.
  rewrite list_lookup_fmap.
  destruct (decide (i < length ps)%nat) as [Hlt | Hge].
  - rewrite lookup_seq_lt by done. simpl. rewrite table_of_params_rawget.
    destruct (lookup_lt_is_Some_2 ps i Hlt) as [v Hv]. by rewrite Hv.
  - rewrite lookup_seq_ge by lia. simpl. by rewrite lookup_ge_None_2 by lia.
Qed.

(** Overwriting the slots of a table made from [old] with as many new
    parameters yields the table made from the new ones. *)
Lemma copyParamsToTable_table_of_params old new :
  length old = length new ->
  copyParamsToTable (table_of_params old) (length new) new = table_of_params new.
Proof.
  intros Hlen. apply map_eq. intros k. unfold table_of_params.
  rewrite !copyParamsToTable_lookup. destruct k as [z | s]; [| done].
  destruct (decide (0 <= z < Z.of_nat (length new))); [done |].
  rewrite decide_False by lia. done.
Qed.

Lemma nil_free_app ps v : nil_free (ps ++ [v]) <-> nil_free ps /\ is_nil v = false.
Proof.
  unfold nil_free. rewrite existsb_app; simpl. rewrite orb_false_r.
  rewrite orb_false_iff. done.
Qed.

Lemma table_of_params_snoc ps v :
  table_of_params (ps ++ [v]) =
  rawset (table_of_params ps) (KInt (Z.of_nat (length ps))) v.
Proof.
  apply map_eq. intros k. unfold table_of_params.
  rewrite rawset_lookup, !copyParamsToTable_lookup, length_app; simpl.
  destruct k as [z | s].
  - destruct (decide (KInt (Z.of_nat (length ps)) = KInt z)) as [Heq | Hne].
    + injection Heq as <-. rewrite decide_True by lia.
      rewrite Nat2Z.id, list_lookup_middle by done. done.
    + assert (z <> Z.of_nat (length ps)) by congruence.
      destruct (decide (0 <= z < Z.of_nat (length ps))).
      * rewrite decide_True by lia. by rewrite lookup_app_l by lia.
      * by rewrite decide_False by lia.
  - by rewrite decide_False by discriminate.
Qed.

(** The table of a snapshot has one entry per parameter ([lua_next]
    counts them). *)
Lemma size_table_of_params ps :
  nil_free ps -> size (table_of_params ps) = length ps.
Proof.
  induction ps as [| v ps IH] using rev_ind; intros Hnf.
  - unfold table_of_params, copyParamsToTable; simpl. apply map_size_empty.
  - apply nil_free_app in Hnf as [Hnf Hv].
    rewrite table_of_params_snoc, length_app; simpl.
    unfold rawset. rewrite Hv. rewrite map_size_insert_None.
    + rewrite IH by done. lia.
    + unfold table_of_params. rewrite copyParamsToTable_lookup.
      by rewrite decide_False by lia.
Qed.

Lemma pop_back_iter (s : list UndoRedoItem) n :
  Nat.iter n pop_back s = take (length s - n) s.
Proof.
  induction n as [| n IH]; simpl.
  - by rewrite Nat.sub_0_r, firstn_all.
  - rewrite IH. unfold pop_back. rewrite take_take, length_take.
    f_equal. lia.
Qed.

Lemma erase_redo_history_take p :
  (mStackPointer p <= length (mUndoRedoStack p))%nat ->
  mUndoRedoStack (erase_redo_history p) = take (mStackPointer p) (mUndoRedoStack p).
Proof.
  intros Hle. unfold erase_redo_history; simpl. rewrite pop_back_iter.
  f_equal. lia.
Qed.

Lemma alter_lookup_insert {V} (f : V -> V) (m : gmap string V) k x :
  m !! k = Some x -> alter f k m = <[k := f x]> m.
Proof.
  intros Hk. apply map_eq. intros k'. rewrite lookup_alter, lookup_insert.
  case_decide; subst; [by rewrite Hk | done].
Qed.

(* ===================================================================== *)
(** ** Pushing sequences, and reading them back                          *)
(* ===================================================================== *)

Lemma sequence_fields_rawget vs :
  forall index f k,
    rawget (sequence_fields index vs f) (KInt k) =
    if decide (index <= k < index + Z.of_nat (length vs))
    then default LNil (vs !! Z.to_nat (k - index))
    else rawget f (KInt k).
Proof.
  induction vs as [| v vs IH]; intros index f k; simpl.
  - by rewrite decide_False by lia.
  - rewrite IH.
    destruct (decide (index + 1 <= k < index + 1 + Z.of_nat (length vs)))
      as [Hin | Hout].
    + rewrite decide_True by lia.
      replace (Z.to_nat (k - index)) with (S (Z.to_nat (k - (index + 1)))) by lia.
      done.
    + unfold rawget. rewrite rawset_lookup.
      destruct (decide (KInt index = KInt k)) as [Heq | Hne].
      * injection Heq as <-. rewrite decide_True by lia.
        rewrite Z.sub_diag. simpl. by destruct v.
      * assert (index <> k) by congruence. by rewrite decide_False by lia.
Qed.

Lemma index2adr_push_second v w L :
  index2adr (push_value w (push_value v L)) (-2) = Some v.
Proof.
  unfold index2adr, abs_index. rewrite !top_push.
  unfold top, push_value, with_stack; simpl.
  repeat case_decide; try lia.
  replace (Z.to_nat (Z.of_nat (length (stack L)) + 1 + 1 + -2))
    with (length (stack L)) by lia.
  rewrite <- app_assoc. simpl. by rewrite list_lookup_middle.
Qed.

Lemma store_table_pop2 L t a b f' m' :
  pop_values 2
    (store_table (length (stack L)) f' m'
       (push_value b (push_value a (push_value t L))))
  = push_value (LTable f' m') L.
Proof.
  destruct L as [s inst].
  unfold pop_values, store_table, push_value, with_stack; simpl. f_equal.
  rewrite <- !app_assoc; simpl.
  replace (length s) with (length s + 0)%nat at 2 by lia.
  rewrite insert_app_r; simpl.
  replace (length s) with (length s + 0)%nat at 1 by lia.
  rewrite insert_app_r; simpl.
  rewrite length_app; simpl.
  replace (length s + 3 - 2)%nat with (length (s ++ [LTable f' m']))
    by (rewrite length_app; simpl; lia).
  replace (s ++ [LTable f' m'; a; b]) with ((s ++ [LTable f' m']) ++ [a; b])
    by (by rewrite <- app_assoc).
  by rewrite take_app_length.
Qed.

Lemma lua_settable_top3 L f m k v :
  lua_settable (top L + 1)
    (push_value v (push_value (LNumber k) (push_value (LTable f m) L)))
  = (Ok tt, push_value (LTable (rawset f (KInt k) v) m) L).
Proof.
  assert (Hpos : 0 < top L + 1) by (unfold top; lia).
  unfold lua_settable.
  assert (Habs : abs_index
                   (push_value v (push_value (LNumber k)
                                    (push_value (LTable f m) L)))
                   (top L + 1) = Some (length (stack L))).
  { unfold abs_index. rewrite !top_push. unfold top.
    repeat case_decide; try lia. f_equal. lia. }
  rewrite Habs.
  rewrite (index2adr_push_pos _ _ _ (LTable f m) Hpos)
    by (apply index2adr_push_pos; [done | apply index2adr_push_new]).
  rewrite index2adr_push_second, index2adr_push_top. simpl.
  by rewrite store_table_pop2.
Qed.

Lemma int_lawful_push : lawful_push (T := Z) LNumber.
Proof. done. Qed.

Lemma bool_lawful_push : lawful_push (T := bool) LBoolean.
Proof. intros L []; reflexivity. Qed.

Lemma bool_get_at L pos v :
  index2adr L pos = Some v ->
  get (T := bool) pos L =
  match v with
  | LBoolean b => (Ok b, L)
  | _ => (Throw (LuaRuntimeError "bad argument: unexpected type"), L)
  end.
Proof.
  intros Hv. simpl. unfold luaL_checktype, lua_type, lua_toboolean. se_unfold.
  rewrite Hv. destruct v as [| [] | | |]; simpl; rewrite ?Hv; reflexivity.
Qed.

Lemma bool_lawful_get : lawful_get bool_from_value.
Proof.
  intros L pos v x _ Hv Hx. rewrite (bool_get_at _ _ _ Hv).
  destruct v; simpl in Hx; try done. by injection Hx as ->.
Qed.

Lemma bool_rejecting_get : rejecting_get bool_from_value.
Proof.
  intros L pos v e _ Hv He. rewrite (bool_get_at _ _ _ Hv).
  destruct v; simpl in He; try done; by injection He as <-.
Qed.

Section VectorRoundTrip.

Context {T : Type} `{LuaStrictStack T}.
Variable from_value : LuaValue -> Res T.
Variable to_value : T -> LuaValue.

Lemma vector_push_loop_spec l :
  lawful_push to_value ->
  forall L f m index,
    vector_push_loop (top L + 1) index l (push_value (LTable f m) L)
    = (Ok tt,
       push_value (LTable (sequence_fields index (to_value <$> l) f) m) L).
Proof using Type.
  intros Hpush. induction l as [| x l IH]; intros L f m index; [done |].
  simpl. unfold bind at 1, lua_pushinteger, modify.
  unfold bind at 1. rewrite Hpush.
  unfold bind at 1. rewrite lua_settable_top3.
  apply IH.
Qed.

Lemma vector_push_spec l L :
  lawful_push to_value ->
  vector_push l L
  = (Ok tt, push_value (LTable (sequence_fields 1 (to_value <$> l) ∅) None) L).
Proof using Type.
  intros Hpush. unfold vector_push, lua_newtable, lua_gettop. se_unfold.
  rewrite top_push. by apply vector_push_loop_spec.
Qed.

(** The loop of [get] up to an element that the element binding
    rejects. *)
Lemma vector_get_loop_reject xs :
  lawful_get from_value -> rejecting_get from_value ->
  forall fuel L pos f m index acc e,
    0 < pos -> index2adr L pos = Some (LTable f m) ->
    reads_from from_value f index xs ->
    rawget f (KInt (index + Z.of_nat (length xs))) <> LNil ->
    from_value (rawget f (KInt (index + Z.of_nat (length xs)))) = Throw e ->
    (length xs < fuel)%nat ->
    fst (vector_get_loop fuel pos index acc L) = Throw e.
Proof using Type.
  intros Hlawful Hreject.
  induction xs as [| x xs IH];
    intros fuel L pos f m index acc e Hpos Ht Hr Hnn He Hfuel.
  - destruct fuel as [| fuel]; [simpl in Hfuel; lia |]. simpl.
    unfold bind at 1, lua_pushinteger, modify.
    unfold bind at 1. rewrite (lua_gettable_at _ _ _ _ _ Hpos Ht).
    unfold bind at 1. rewrite (lua_isnil_at _ _ _ (index2adr_push_top _ _)).
    simpl in Hnn, He. rewrite Z.add_0_r in Hnn, He.
    apply is_nil_false in Hnn. rewrite Hnn.
    unfold bind at 1, lua_gettop, gets. rewrite top_push.
    assert (Htop : 0 < top L + 1) by (unfold top; lia).
    pose proof (Hreject _ _ _ e Htop (index2adr_push_new _ _) He) as Hget.
    unfold bind at 1.
    destruct (get (top L + 1) (push_value (rawget f (KInt index)) L))
      as [[y | e'] L']; simpl in Hget; [done |]. by injection Hget as ->.
  - destruct fuel as [| fuel]; [simpl in Hfuel; lia |]. simpl.
    unfold bind at 1, lua_pushinteger, modify.
    unfold bind at 1. rewrite (lua_gettable_at _ _ _ _ _ Hpos Ht).
    unfold bind at 1. rewrite (lua_isnil_at _ _ _ (index2adr_push_top _ _)).
    destruct (Hr O x eq_refl) as [Hxn Hx]. rewrite Z.add_0_r in Hxn, Hx.
    apply is_nil_false in Hxn. rewrite Hxn.
    unfold bind at 1, lua_gettop, gets. rewrite top_push.
    unfold bind at 1.
    assert (Htop : 0 < top L + 1) by (unfold top; lia).
    rewrite (Hlawful _ _ _ x Htop (index2adr_push_new _ _) Hx).
    unfold bind at 1, lua_pop, modify; simpl. rewrite pop_push.
    apply (IH fuel L pos f m (index + 1) (acc ++ [x]) e Hpos Ht).
    + by eapply reads_from_tail.
    + intros Hnil. apply Hnn. rewrite <- Hnil. do 2 f_equal. simpl length. lia.
    + rewrite <- He. do 3 f_equal. simpl length. lia.
    + simpl in Hfuel. lia.
Qed.

(** X12.  Pushing a sequence builds one new table holding the elements'
    Lua values at the keys 1, 2, ..., and reading that table back with
    [get] returns the sequence and leaves the stack with the table on
    top -- provided that no element is pushed as [nil] and each element's
    Lua value reads back as the element. *)
Theorem vector_push_get_round_trip L l :
  lawful_get from_value -> lawful_push to_value ->
  Forall (fun x => to_value x <> LNil /\ from_value (to_value x) = Ok x) l ->
  push (T := list T) l L
  = (Ok tt, push_value (LTable (sequence_fields 1 (to_value <$> l) ∅) None) L)
  /\ (push (T := list T) l ;;;
      let* t := lua_gettop in get (T := list T) t) L
     = (Ok l, push_value (LTable (sequence_fields 1 (to_value <$> l) ∅) None) L).
Proof using Type.
  intros Hget Hpush Hl.
  assert (Hp : push (T := list T) l L
               = (Ok tt, push_value
                           (LTable (sequence_fields 1 (to_value <$> l) ∅) None) L))
    by (by apply vector_push_spec).
  split; [exact Hp |].
  unfold bind at 1. rewrite Hp. unfold bind, lua_gettop, gets.
  rewrite top_push.
  apply (vector_get_prefix from_value Hget _ _
           (sequence_fields 1 (to_value <$> l) ∅) None l).
  - unfold top. lia.
  - apply index2adr_push_new.
  - intros i x Hx. rewrite sequence_fields_rawget, length_fmap.
    apply lookup_lt_Some in Hx as Hi.
    rewrite decide_True by lia.
    replace (Z.to_nat (1 + Z.of_nat i - 1)) with i by lia.
    rewrite list_lookup_fmap, Hx. simpl.
    by apply (proj1 (Forall_lookup _ _) Hl i x).
  - rewrite sequence_fields_rawget, length_fmap.
    by rewrite decide_False by lia.
Qed.

(** X13.  [get] of a sequence is all or nothing.  At a position that
    holds no table it throws and leaves the stack as it was; and when
    the keys [1 .. n] hold accepted values and key [n+1] a value (not
    [nil]) that the element binding rejects, it throws the element's
    error instead of returning the [n] elements read so far. *)
Theorem vector_get_rejects :
  (forall L pos,
      (forall f m, index2adr L pos <> Some (LTable f m)) ->
      exists what,
        get (T := list T) pos L = (Throw (LuaRuntimeError what), L))
  /\ (lawful_get from_value -> rejecting_get from_value ->
      forall L pos f m xs e,
        0 < pos -> index2adr L pos = Some (LTable f m) ->
        reads_from from_value f 1 xs ->
        rawget f (KInt (1 + Z.of_nat (length xs))) <> LNil ->
        from_value (rawget f (KInt (1 + Z.of_nat (length xs)))) = Throw e ->
        fst (get (T := list T) pos L) = Throw e).
Proof using Type.
  split.
  - intros L pos Hnot. simpl. unfold vector_get, luaL_checktype, lua_type.
    se_unfold.
    destruct (index2adr L pos) as [[| b | n | s | f m] |] eqn:Hv;
      simpl; eauto.
    by destruct (Hnot f m).
  - intros Hlawful Hreject L pos f m xs e Hpos Ht Hr Hnn He.
    simpl. unfold vector_get.
    assert (Hfuel : (length xs < S (size f))%nat).
    { apply Nat.lt_succ_r. transitivity (S (length xs)); [lia |].
      apply present_keys_bound. intros i Hi.
      destruct (decide (i < length xs)%nat) as [Hlt | Hge].
      - destruct (lookup_lt_is_Some_2 xs i Hlt) as [x Hx].
        by destruct (Hr i x Hx).
      - by replace i with (length xs) by lia. }
    pose proof (vector_get_loop_reject xs Hlawful Hreject (S (size f)) L pos f m
                  1 [] e Hpos Ht Hr Hnn He Hfuel) as Hloop.
    unfold bind at 1, luaL_checktype, bind at 1, lua_type, gets.
    rewrite Ht. cbn [type_of]. rewrite decide_True by done. unfold ret at 1.
    unfold bind at 1, table_entries, gets. rewrite Ht.
    exact Hloop.
Qed.

End VectorRoundTrip.

(** X14.  The [bool] binding is strict and round-trips: what [push]
    leaves on the stack reads back as the same [bool]; [get] returns the
    boolean at a position that holds one, and throws -- leaving the stack
    as it was -- at a position that holds anything else, [nil] and numbers
    included, although [lua_toboolean] alone would accept them. *)
Theorem bool_binding_strict :
  (forall L b,
      (push (T := bool) b ;;; get (T := bool) (-1)) L
      = (Ok b, push_value (LBoolean b) L))
  /\ (forall L pos b,
         index2adr L pos = Some (LBoolean b) -> get (T := bool) pos L = (Ok b, L))
  /\ (forall L pos,
         (forall b, index2adr L pos <> Some (LBoolean b)) ->
         exists what,
           get (T := bool) pos L = (Throw (LuaRuntimeError what), L)).
Proof.
  split; [| split].
  - intros L b. unfold bind. rewrite bool_lawful_push.
    by rewrite (bool_get_at _ _ _ (index2adr_push_top _ _)).
  - intros L pos b Hv. by rewrite (bool_get_at _ _ _ Hv).
  - intros L pos Hnot.
    destruct (index2adr L pos) as [v |] eqn:Hv.
    + rewrite (bool_get_at _ _ _ Hv). destruct v; eauto. by destruct (Hnot b).
    + simpl. unfold luaL_checktype, lua_type. se_unfold. rewrite Hv. simpl. eauto.
Qed.

(* ===================================================================== *)
(** ** One step of the ledger                                            *)
(* ===================================================================== *)

Section LedgerSteps.

Context {NativeState : Type}.
Implicit Types (st : LuaScripting NativeState) (ft : FunctionTable NativeState).
Implicit Types (f : Params -> NativeState -> Res NativeState).

(** In the Logging state [logExecution] leaves the bridge as it is. *)
Lemma logExecution_logging st fname exempt funParams emptyParams :
  mLoggingProvenance (mProvenance st) = true ->
  logExecution fname exempt funParams emptyParams st =
  (if mDoProvReenterException (mProvenance st)
   then Throw (LuaProvenanceReenter
                 "LuaProvenance reentry not allowed. Considerdisabling provenance.enableReentryException")
   else Ok tt, st).
Proof.
  intros Hlog. unfold logExecution, this. se_unfold. rewrite Hlog.
  by destruct (mDoProvReenterException (mProvenance st)).
Qed.

(** During a replay [logExecution] does nothing. *)
Lemma logExecution_disabled st fname exempt funParams emptyParams :
  mLoggingProvenance (mProvenance st) = false ->
  mUndoRedoProvenanceDisable (mProvenance st) = true ->
  logExecution fname exempt funParams emptyParams st = (Ok tt, st).
Proof.
  intros Hlog Hdis. unfold logExecution, this. se_unfold.
  by rewrite Hlog, Hdis.
Qed.

(** An exempt call only raises and lowers the Logging flag. *)
Lemma logExecution_exempt st fname funParams emptyParams :
  idle st ->
  logExecution fname true funParams emptyParams st = (Ok tt, st).
Proof.
  intros [Hlog Hdis]. destruct st as [[en sp stk lg re dis] fns ns].
  simpl in *; subst. reflexivity.
Qed.

(** A call that is not exempt is recorded. *)
Lemma logExecution_nonexempt st fname ft funParams emptyParams :
  idle st ->
  mFunctions st !! fname = Some ft ->
  logExecution fname false funParams emptyParams st =
  (Ok tt, logged fname ft funParams emptyParams st).
Proof.
  intros [Hlog Hdis] Hft. destruct st as [[en sp stk lg re dis] fns ns].
  simpl in *; subst.
  unfold logExecution, this, getLastExecTable, storeLastExec. se_unfold. simpl.
  rewrite Hft. simpl.
  unfold logged, on_functions, on_provenance, pushParamsToStack,
    pullParamsFromStack, erase_redo_history; simpl.
  rewrite (alter_lookup_insert _ _ _ _ Hft). reflexivity.
Qed.

(** The call wrapper on a function of the application. *)
Lemma exec_with_native member st fname args ft f :
  mFunctions st !! fname = Some ft ->
  ft_metatable ft = Some (Some (NativeFunction f)) ->
  length args = length (ft_defaults ft) ->
  nil_free args ->
  exec_with member fname args st =
  match f args (mNative st) with
  | Ok ns => logExecution fname (ft_exempt ft) args (ft_defaults ft) (set_mNative ns st)
  | Throw e => (Throw e, st)
  end.
Proof.
  intros Hft Hmt Hlen Hnf. unfold exec_with, call_native. se_unfold.
  rewrite Hft, Hmt. rewrite decide_True by done. rewrite Hnf.
  by destruct (f args (mNative st)).
Qed.

(** Whatever a replayed call does, it leaves the provenance object and
    the function tables alone: with logging suppressed, the wrapper only
    runs the callable. *)
Lemma lua_call_suppressed st fname args r st' :
  mUndoRedoProvenanceDisable (mProvenance st) = true ->
  lua_call fname args st = (r, st') ->
  mProvenance st' = mProvenance st /\ mFunctions st' = mFunctions st.
Proof.
  intros Hdis. unfold lua_call, exec_with, call_native. se_unfold.
  destruct (mFunctions st !! fname) as [ft |]; [| by intros [= <- <-]].
  destruct (ft_metatable ft) as [[c |] |]; try by intros [= <- <-].
  case_decide; [| by intros [= <- <-]].
  destruct (existsb is_nil args); [by intros [= <- <-] |].
  destruct c as [f | m]; [| by intros [= <- <-]].
  destruct (f args (mNative st)) as [ns | e]; [| by intros [= <- <-]].
  destruct (mLoggingProvenance (mProvenance st)) eqn:Hlog.
  - rewrite logExecution_logging by done. by intros [= <- <-].
  - rewrite logExecution_disabled by done. by intros [= <- <-].
Qed.

(** A replay that succeeds: the callable has run on the recorded
    parameters and the last-exec table holds them. *)
Lemma performUndoRedoOp_native st fname params ft f ns :
  not_logging st ->
  mFunctions st !! fname = Some ft ->
  ft_metatable ft = Some (Some (NativeFunction f)) ->
  length params = length (ft_defaults ft) ->
  nil_free params ->
  f params (mNative st) = Ok ns ->
  performUndoRedoOp fname params st = (Ok tt, replayed fname ft params ns st).
Proof.
  intros Hlog Hft Hmt Hlen Hnf Hf. unfold performUndoRedoOp.
  unfold bind at 1, gets. rewrite Hft, Hmt.
  unfold bind at 1, modify. unfold bind at 1.
  unfold lua_call, pushParamsToStack.
  rewrite (exec_with_native _ _ _ _ ft f) by done. simpl. rewrite Hf.
  rewrite logExecution_disabled by done.
  unfold storeLastExec. se_unfold. simpl.
  unfold replayed, on_functions, on_provenance; simpl.
  rewrite (alter_lookup_insert _ _ _ _ Hft).
  destruct st as [[en sp stk lg re dis] fns ns0]; reflexivity.
Qed.

(** A replay in which the callable throws: the exception comes out as it
    is, and the flag that suppresses logging is left set. *)
Lemma performUndoRedoOp_native_throw st fname params ft f e :
  mFunctions st !! fname = Some ft ->
  ft_metatable ft = Some (Some (NativeFunction f)) ->
  length params = length (ft_defaults ft) ->
  nil_free params ->
  f params (mNative st) = Throw e ->
  performUndoRedoOp fname params st =
  (Throw e, on_provenance (set_mUndoRedoProvenanceDisable true) st).
Proof.
  intros Hft Hmt Hlen Hnf Hf. unfold performUndoRedoOp.
  unfold bind at 1, gets. rewrite Hft, Hmt.
  unfold bind at 1, modify. unfold bind at 1.
  unfold lua_call, pushParamsToStack.
  rewrite (exec_with_native _ _ _ _ ft f) by done. simpl. by rewrite Hf.
Qed.

(** [performUndoRedoOp] touches, of the provenance object, only the flag
    that suppresses logging, whether it returns or throws. *)
Lemma performUndoRedoOp_provenance st fname params r st' :
  performUndoRedoOp fname params st = (r, st') ->
  exists dis, mProvenance st' = set_mUndoRedoProvenanceDisable dis (mProvenance st).
Proof.
  assert (Hsame : exists dis,
             mProvenance st = set_mUndoRedoProvenanceDisable dis (mProvenance st)).
  { exists (mUndoRedoProvenanceDisable (mProvenance st)).
    by destruct (mProvenance st). }
  unfold performUndoRedoOp. unfold bind at 1, gets.
  destruct (mFunctions st !! fname) as [ft |]; [| by intros [= <- <-]].
  destruct (ft_metatable ft) as [[c |] |]; try by intros [= <- <-].
  unfold bind at 1, modify. unfold bind at 1.
  destruct (lua_call fname (pushParamsToStack params)
              (on_provenance (set_mUndoRedoProvenanceDisable true) st))
    as [r1 st1] eqn:Hcall.
  apply lua_call_suppressed in Hcall as [Hp Hf]; [| done].
  destruct r1 as [[] | e].
  - unfold storeLastExec. se_unfold. intros [= <- <-]. simpl.
    rewrite Hp. simpl. exists false. by destruct (mProvenance st).
  - intros [= <- <-]. exists true. by rewrite Hp.
Qed.

Lemma performUndoRedoOp_provenance_ok st fname params st' :
  performUndoRedoOp fname params st = (Ok tt, st') ->
  mProvenance st' = set_mUndoRedoProvenanceDisable false (mProvenance st).
Proof.
  unfold performUndoRedoOp. unfold bind at 1, gets.
  destruct (mFunctions st !! fname) as [ft |]; [| done].
  destruct (ft_metatable ft) as [[c |] |]; try done.
  unfold bind at 1, modify. unfold bind at 1.
  destruct (lua_call fname (pushParamsToStack params)
              (on_provenance (set_mUndoRedoProvenanceDisable true) st))
    as [r1 st1] eqn:Hcall.
  apply lua_call_suppressed in Hcall as [Hp Hf]; [| done].
  destruct r1 as [[] | e]; [| done].
  unfold storeLastExec. se_unfold. intros [= <-]. simpl.
  rewrite Hp. simpl. by destruct (mProvenance st).
Qed.

(** [performUndoRedoOp] neither registers nor unregisters a function. *)
Lemma performUndoRedoOp_functions st fname params r st' k :
  performUndoRedoOp fname params st = (r, st') ->
  is_Some (mFunctions st' !! k) <-> is_Some (mFunctions st !! k).
Proof.
  unfold performUndoRedoOp. unfold bind at 1, gets.
  destruct (mFunctions st !! fname) as [ft |]; [| by intros [= <- <-]].
  destruct (ft_metatable ft) as [[c |] |]; try by intros [= <- <-].
  unfold bind at 1, modify. unfold bind at 1.
  destruct (lua_call fname (pushParamsToStack params)
              (on_provenance (set_mUndoRedoProvenanceDisable true) st))
    as [r1 st1] eqn:Hcall.
  apply lua_call_suppressed in Hcall as [Hp Hf]; [| done].
  destruct r1 as [[] | e].
  - unfold storeLastExec. se_unfold. intros [= <- <-]. simpl.
    rewrite Hf. simpl. rewrite lookup_alter. case_decide; subst.
    + by rewrite fmap_is_Some.
    + done.
  - intros [= <- <-]. by rewrite Hf.
Qed.

Lemma issueUndo_run st k item :
  mStackPointer (mProvenance st) = S k ->
  mUndoRedoStack (mProvenance st) !! k = Some item ->
  issueUndo st =
  match performUndoRedoOp (function item) (undoParams item) st with
  | (Ok _, st1) =>
      (Ok tt, on_provenance
                (set_mStackPointer (mStackPointer (mProvenance st1) - 1)%nat) st1)
  | (Throw e, st1) =>
      (Throw (default e (catch_as_InvalidUndo e)), st1)
  end.
Proof.
  intros Hsp Hitem. unfold issueUndo, this, stack_at, this. se_unfold.
  rewrite Hsp. simpl. rewrite Nat.sub_0_r, Hitem.
  destruct (performUndoRedoOp (function item) (undoParams item) st)
    as [[[] | e] st1]; [done |].
  by destruct (catch_as_InvalidUndo e).
Qed.

Lemma issueRedo_run st item :
  mUndoRedoStack (mProvenance st) !! mStackPointer (mProvenance st) = Some item ->
  issueRedo st =
  match performUndoRedoOp (function item) (redoParams item) st with
  | (Ok _, st1) =>
      (Ok tt, on_provenance
                (set_mStackPointer (S (mStackPointer (mProvenance st1)))) st1)
  | (Throw e, st1) =>
      (Throw (default e (catch_as_InvalidRedo e)), st1)
  end.
Proof.
  intros Hitem. unfold issueRedo, this, stack_at, this. se_unfold.
  rewrite decide_False
    by (apply lookup_lt_Some in Hitem; lia).
  rewrite Hitem.
  destruct (performUndoRedoOp (function item) (redoParams item) st)
    as [[[] | e] st1]; [done |].
  by destruct (catch_as_InvalidRedo e).
Qed.

Lemma issueUndo_bottom st :
  mStackPointer (mProvenance st) = O ->
  issueUndo st =
  (Throw (LuaProvenanceInvalidUndo "Undo pointer at bottom of stack."), st).
Proof.
  intros Hsp. unfold issueUndo, this. se_unfold. by rewrite Hsp.
Qed.

Lemma issueRedo_top st :
  mStackPointer (mProvenance st) = length (mUndoRedoStack (mProvenance st)) ->
  issueRedo st =
  (Throw (LuaProvenanceInvalidRedo "Redo pointer at top of stack."), st).
Proof.
  intros Hsp. unfold issueRedo, this. se_unfold. by rewrite decide_True.
Qed.

(** Every way in which [issueUndo] can end. *)
Lemma issueUndo_cases st r st' :
  issueUndo st = (r, st') ->
  (st' = st /\ is_Ok r = false) \/
  exists k item r1 st1,
    mStackPointer (mProvenance st) = S k /\
    mUndoRedoStack (mProvenance st) !! k = Some item /\
    performUndoRedoOp (function item) (undoParams item) st = (r1, st1) /\
    match r1 with
    | Ok _ => r = Ok tt /\
              st' = on_provenance
                      (set_mStackPointer (mStackPointer (mProvenance st1) - 1)%nat) st1
    | Throw e => r = Throw (default e (catch_as_InvalidUndo e)) /\ st' = st1
    end.
Proof.
  destruct (mStackPointer (mProvenance st)) as [| k] eqn:Hsp.
  - rewrite issueUndo_bottom by done. intros [= <- <-]. by left.
  - destruct (mUndoRedoStack (mProvenance st) !! k) as [item |] eqn:Hitem.
    + rewrite (issueUndo_run _ _ _ Hsp Hitem).
      destruct (performUndoRedoOp (function item) (undoParams item) st)
        as [r1 st1] eqn:Hop.
      intros Hres. right. exists k, item, r1, st1.
      repeat split; try done. destruct r1 as [[] | e]; by injection Hres as <- <-.
    + unfold issueUndo, this, stack_at, this. se_unfold. rewrite Hsp. simpl.
      rewrite Nat.sub_0_r, Hitem. intros [= <- <-]. by left.
Qed.

(** Every way in which [issueRedo] can end. *)
Lemma issueRedo_cases st r st' :
  issueRedo st = (r, st') ->
  (st' = st /\ is_Ok r = false) \/
  exists item r1 st1,
    mUndoRedoStack (mProvenance st) !! mStackPointer (mProvenance st) = Some item /\
    performUndoRedoOp (function item) (redoParams item) st = (r1, st1) /\
    match r1 with
    | Ok _ => r = Ok tt /\
              st' = on_provenance
                      (set_mStackPointer (S (mStackPointer (mProvenance st1)))) st1
    | Throw e => r = Throw (default e (catch_as_InvalidRedo e)) /\ st' = st1
    end.
Proof.
  destruct (mUndoRedoStack (mProvenance st) !! mStackPointer (mProvenance st))
    as [item |] eqn:Hitem.
  - rewrite (issueRedo_run _ _ Hitem).
    destruct (performUndoRedoOp (function item) (redoParams item) st)
      as [r1 st1] eqn:Hop.
    intros Hres. right. exists item, r1, st1.
    repeat split; try done. destruct r1 as [[] | e]; by injection Hres as <- <-.
  - unfold issueRedo, this, stack_at, this. se_unfold.
    case_decide; [by intros [= <- <-]; left |].
    rewrite Hitem. intros [= <- <-]. by left.
Qed.

End LedgerSteps.

(* ===================================================================== *)
(** ** Invariants of the ledger                                          *)
(* ===================================================================== *)

Section LedgerInvariants.

Context {NativeState : Type}.
Implicit Types (st : LuaScripting NativeState) (ft : FunctionTable NativeState).

(** A failing undo leaves the records and the cursor as they were. *)
Lemma issueUndo_throw_ledger st e st' :
  issueUndo st = (Throw e, st') ->
  mStackPointer (mProvenance st') = mStackPointer (mProvenance st) /\
  mUndoRedoStack (mProvenance st') = mUndoRedoStack (mProvenance st).
Proof.
  intros Hres. apply issueUndo_cases in Hres as [[-> _] | Hrun]; [done |].
  destruct Hrun as (k & item & r1 & st1 & Hsp & Hitem & Hop & Hres).
  destruct r1 as [[] | e1]; [by destruct Hres |]. destruct Hres as [_ ->].
  apply performUndoRedoOp_provenance in Hop as [dis ->]. done.
Qed.

(** A failing redo leaves the records and the cursor as they were. *)
Lemma issueRedo_throw_ledger st e st' :
  issueRedo st = (Throw e, st') ->
  mStackPointer (mProvenance st') = mStackPointer (mProvenance st) /\
  mUndoRedoStack (mProvenance st') = mUndoRedoStack (mProvenance st).
Proof.
  intros Hres. apply issueRedo_cases in Hres as [[-> _] | Hrun]; [done |].
  destruct Hrun as (item & r1 & st1 & Hitem & Hop & Hres).
  destruct r1 as [[] | e1]; [by destruct Hres |]. destruct Hres as [_ ->].
  apply performUndoRedoOp_provenance in Hop as [dis ->]. done.
Qed.

(** What a successful undo does to the provenance object: the cursor
    moves down by one and logging is no longer suppressed. *)
Lemma issueUndo_ok_provenance st st' :
  issueUndo st = (Ok tt, st') ->
  exists k item,
    mStackPointer (mProvenance st) = S k /\
    mUndoRedoStack (mProvenance st) !! k = Some item /\
    mProvenance st' =
      set_mStackPointer k (set_mUndoRedoProvenanceDisable false (mProvenance st)).
Proof.
  intros Hres. apply issueUndo_cases in Hres as [[_ Hr] | Hrun]; [done |].
  destruct Hrun as (k & item & r1 & st1 & Hsp & Hitem & Hop & Hres).
  destruct r1 as [[] | e1]; [| by destruct Hres]. destruct Hres as [_ ->].
  exists k, item. repeat split; try done.
  apply performUndoRedoOp_provenance_ok in Hop. simpl. rewrite Hop. simpl.
  rewrite Hsp. simpl. by rewrite Nat.sub_0_r.
Qed.

Lemma issueRedo_ok_provenance st st' :
  issueRedo st = (Ok tt, st') ->
  exists item,
    mUndoRedoStack (mProvenance st) !! mStackPointer (mProvenance st) = Some item /\
    mProvenance st' =
      set_mStackPointer (S (mStackPointer (mProvenance st)))
        (set_mUndoRedoProvenanceDisable false (mProvenance st)).
Proof.
  intros Hres. apply issueRedo_cases in Hres as [[_ Hr] | Hrun]; [done |].
  destruct Hrun as (item & r1 & st1 & Hitem & Hop & Hres).
  destruct r1 as [[] | e1]; [| by destruct Hres]. destruct Hres as [_ ->].
  exists item. split; [done |].
  apply performUndoRedoOp_provenance_ok in Hop. simpl. by rewrite Hop.
Qed.

Lemma issueUndo_functions st r st' k :
  issueUndo st = (r, st') ->
  is_Some (mFunctions st' !! k) <-> is_Some (mFunctions st !! k).
Proof.
  intros Hres. apply issueUndo_cases in Hres as [[-> _] | Hrun]; [done |].
  destruct Hrun as (k0 & item & r1 & st1 & Hsp & Hitem & Hop & Hres).
  apply (performUndoRedoOp_functions _ _ _ _ _ k) in Hop.
  destruct r1 as [[] | e1]; destruct Hres as [_ ->]; done.
Qed.

Lemma issueRedo_functions st r st' k :
  issueRedo st = (r, st') ->
  is_Some (mFunctions st' !! k) <-> is_Some (mFunctions st !! k).
Proof.
  intros Hres. apply issueRedo_cases in Hres as [[-> _] | Hrun]; [done |].
  destruct Hrun as (item & r1 & st1 & Hitem & Hop & Hres).
  apply (performUndoRedoOp_functions _ _ _ _ _ k) in Hop.
  destruct r1 as [[] | e1]; destruct Hres as [_ ->]; done.
Qed.

(** A successful undo ends in an idle ledger with the cursor strictly
    inside it, even when it started with logging left suppressed. *)
Lemma issueUndo_ok_idle st st' :
  not_logging st ->
  issueUndo st = (Ok tt, st') ->
  idle st' /\
  (mStackPointer (mProvenance st') < length (mUndoRedoStack (mProvenance st')))%nat.
Proof.
  intros Hlog Hres.
  apply issueUndo_ok_provenance in Hres as (k & item & Hsp & Hitem & Hp).
  unfold idle. rewrite Hp. simpl. repeat split; [done |].
  by apply lookup_lt_Some in Hitem.
Qed.

Lemma undo_times_ok_idle M st st' :
  (1 <= M)%nat ->
  not_logging st ->
  undo_times M st = (Ok tt, st') ->
  idle st' /\
  (mStackPointer (mProvenance st') < length (mUndoRedoStack (mProvenance st')))%nat.
Proof.
  revert st. induction M as [| M IH]; intros st HM Hlog; [lia |].
  simpl. unfold bind.
  destruct (issueUndo st) as [[[] | e] st1] eqn:Hundo; [| done].
  destruct (issueUndo_ok_idle _ _ Hlog Hundo) as [Hidle Hlt].
  destruct M as [| M].
  - simpl. unfold ret. by intros [= <-].
  - apply IH; [lia | apply Hidle].
Qed.

(** The methods of the provenance object keep an idle ledger idle, the
    cursor within the ledger and the set of registered names. *)
Lemma provenance_member_ok m args st st' :
  idle st -> cursor_ok st ->
  provenance_member m args st = (Ok tt, st') ->
  idle st' /\ cursor_ok st' /\
  forall k, is_Some (mFunctions st' !! k) <-> is_Some (mFunctions st !! k).
Proof.
  intros [Hlog Hdis] Hcur. unfold provenance_member.
  destruct m, args as [| [] []]; try done.
  - intros Hres.
    pose proof (fun k => issueUndo_functions _ _ _ k Hres) as Hf.
    apply issueUndo_ok_idle in Hres as [Hidle Hlt]; [| done].
    split; [done |]. split; [unfold cursor_ok; lia | done].
  - intros Hres.
    pose proof (fun k => issueRedo_functions _ _ _ k Hres) as Hf.
    apply issueRedo_ok_provenance in Hres as (item & Hitem & Hp).
    apply lookup_lt_Some in Hitem.
    unfold idle, cursor_ok. rewrite Hp. simpl.
    split; [done |]. split; [lia | done].
  - unfold setEnabled, clearProvenance, this. se_unfold.
    destruct st as [[en sp stk lg re dis] fns ns]. unfold cursor_ok in Hcur.
    simpl in *.
    destruct (negb b && en); intros [= <-]; unfold idle, cursor_ok; simpl;
      (split; [done |]; split; [simpl; lia | done]).
  - unfold clearProvenance. se_unfold. intros [= <-].
    unfold idle, cursor_ok; simpl. split; [done |]. split; [simpl; lia | done].
  - unfold enableProvReentryEx. se_unfold. intros [= <-].
    unfold idle, cursor_ok; simpl. split; [done |]. split; done.
Qed.

End LedgerInvariants.

(* ===================================================================== *)
(** ** The claims about the ledger's boundaries and guards               *)
(* ===================================================================== *)

Section LedgerClaims.

Context {NativeState : Type}.
Implicit Types (st : LuaScripting NativeState) (ft : FunctionTable NativeState).


(** C5.  [issueUndo] with the cursor at 0 throws
    [LuaProvenanceInvalidUndo], [issueRedo] with the cursor at the length of
    the ledger throws [LuaProvenanceInvalidRedo], and both leave the bridge
    (records and cursor included) unchanged. *)
Theorem undo_redo_boundaries :
  (forall st,
      mStackPointer (mProvenance st) = O ->
      exists what, issueUndo st = (Throw (LuaProvenanceInvalidUndo what), st))
  /\ (forall st,
         mStackPointer (mProvenance st) = length (mUndoRedoStack (mProvenance st)) ->
         exists what, issueRedo st = (Throw (LuaProvenanceInvalidRedo what), st)).
Proof.
  split; intros st Hsp.
  - rewrite issueUndo_bottom by done. eauto.
  - rewrite issueRedo_top by done. eauto.
Qed.

(** C10.  Whenever [issueUndo] or [issueRedo] throws -- at the boundary or
    because the replay failed -- the cursor and the records are the ones
    from before the call; and a [LuaProvenanceInvalidUndoOrRedo] raised by
    the replay comes out as [LuaProvenanceInvalidUndo], respectively
    [LuaProvenanceInvalidRedo], with the same message. *)
Theorem failed_replay_keeps_cursor :
  (forall st e st',
      issueUndo st = (Throw e, st') \/ issueRedo st = (Throw e, st') ->
      mStackPointer (mProvenance st') = mStackPointer (mProvenance st) /\
      mUndoRedoStack (mProvenance st') = mUndoRedoStack (mProvenance st))
  /\ (forall st k item what st1,
         mStackPointer (mProvenance st) = S k ->
         mUndoRedoStack (mProvenance st) !! k = Some item ->
         performUndoRedoOp (function item) (undoParams item) st =
           (Throw (LuaProvenanceInvalidUndoOrRedo what), st1) ->
         issueUndo st = (Throw (LuaProvenanceInvalidUndo what), st1))
  /\ (forall st item what st1,
         mUndoRedoStack (mProvenance st) !! mStackPointer (mProvenance st)
           = Some item ->
         performUndoRedoOp (function item) (redoParams item) st =
           (Throw (LuaProvenanceInvalidUndoOrRedo what), st1) ->
         issueRedo st = (Throw (LuaProvenanceInvalidRedo what), st1)).
Proof.
  split; [| split].
  - intros st e st' [Hundo | Hredo].
    + by apply issueUndo_throw_ledger in Hundo.
    + by apply issueRedo_throw_ledger in Hredo.
  - intros st k item what st1 Hsp Hitem Hop.
    by rewrite (issueUndo_run _ _ _ Hsp Hitem), Hop.
  - intros st item what st1 Hitem Hop.
    by rewrite (issueRedo_run _ _ Hitem), Hop.
Qed.

(** The ledger after a call has been recorded: the records from the
    cursor on are gone, the new record is last, and the cursor is at the
    end. *)
Lemma logged_ledger st fname ft funParams emptyParams :
  cursor_ok st ->
  let st' := logged fname ft funParams emptyParams st in
  exists undo,
    mUndoRedoStack (mProvenance st') =
      take (mStackPointer (mProvenance st)) (mUndoRedoStack (mProvenance st))
      ++ [mkUndoRedoItem fname undo funParams] /\
    mStackPointer (mProvenance st') = S (mStackPointer (mProvenance st)) /\
    mStackPointer (mProvenance st') = length (mUndoRedoStack (mProvenance st')).
Proof.
  intros Hcur. unfold cursor_ok in Hcur. simpl. eexists.
  rewrite pop_back_iter.
  replace (length (mUndoRedoStack (mProvenance st)) -
           (length (mUndoRedoStack (mProvenance st)) - mStackPointer (mProvenance st)))%nat
    with (mStackPointer (mProvenance st)) by lia.
  repeat split. rewrite length_app, length_take; simpl. lia.
Qed.

(** A successful call of a function that is not exempt, issued in an idle
    ledger, ends with the cursor at the end of the ledger. *)
Lemma exec_nonexempt_cursor_at_end st fname ft args st' :
  idle st -> cursor_ok st ->
  mFunctions st !! fname = Some ft ->
  ft_exempt ft = false ->
  exec fname args st = (Ok tt, st') ->
  mStackPointer (mProvenance st') = length (mUndoRedoStack (mProvenance st')).
Proof.
  intros Hidle Hcur Hft Hex. unfold exec, exec_with. unfold bind at 1, gets.
  rewrite Hft. destruct (ft_metatable ft) as [[c |] |]; try done.
  case_decide; [| done]. destruct (existsb is_nil args); [done |].
  unfold bind.
  destruct c as [f | m].
  - unfold call_native. destruct (f args (mNative st)) as [ns | e]; [| done].
    rewrite Hex. rewrite (logExecution_nonexempt _ _ ft) by done.
    intros [= <-]. by destruct (logged_ledger (set_mNative ns st) fname ft args
                                  (ft_defaults ft) Hcur) as (u & _ & _ & ->).
  - destruct (provenance_member m args st) as [[[] | e] st1] eqn:Hm; [| done].
    destruct (provenance_member_ok _ _ _ _ Hidle Hcur Hm) as (Hidle1 & Hcur1 & Hf).
    destruct (proj2 (Hf fname)) as [ft1 Hft1]; [by rewrite Hft |].
    rewrite Hex. rewrite (logExecution_nonexempt _ _ ft1) by done.
    intros [= <-]. by destruct (logged_ledger st1 fname ft1 args
                                  (ft_defaults ft) Hcur1) as (u & _ & _ & ->).
Qed.

(** C2.  Recording a call that is not exempt drops every record at or
    after the cursor, appends the new record and advances the cursor by
    one; so after [M >= 1] undos and one new call that is not exempt,
    [issueRedo] throws [LuaProvenanceInvalidRedo] (the cursor is at the end
    of the ledger again). *)
Theorem branch_truncation :
  (forall st fname ft funParams emptyParams,
      idle st -> cursor_ok st ->
      mFunctions st !! fname = Some ft ->
      exists undo st',
        logExecution fname false funParams emptyParams st = (Ok tt, st') /\
        mUndoRedoStack (mProvenance st') =
          take (mStackPointer (mProvenance st)) (mUndoRedoStack (mProvenance st))
          ++ [mkUndoRedoItem fname undo funParams] /\
        mStackPointer (mProvenance st') = S (mStackPointer (mProvenance st)))
  /\ (forall st M stM fname ft args st',
         not_logging st ->
         (1 <= M)%nat ->
         undo_times M st = (Ok tt, stM) ->
         mFunctions stM !! fname = Some ft ->
         ft_exempt ft = false ->
         exec fname args stM = (Ok tt, st') ->
         exists what,
           issueRedo st' = (Throw (LuaProvenanceInvalidRedo what), st')).
Proof.
  split.
  - intros st fname ft funParams emptyParams Hidle Hcur Hft.
    destruct (logged_ledger st fname ft funParams emptyParams Hcur)
      as (undo & Hstack & Hsp & _).
    exists undo, (logged fname ft funParams emptyParams st).
    by rewrite (logExecution_nonexempt _ _ ft).
  - intros st M stM fname ft args st' Hlog HM Hundos Hft Hex Hexec.
    destruct (undo_times_ok_idle _ _ _ HM Hlog Hundos) as [Hidle Hlt].
    assert (Hcur : cursor_ok stM) by (unfold cursor_ok; lia).
    pose proof (exec_nonexempt_cursor_at_end _ _ _ _ _ Hidle Hcur Hft Hex Hexec)
      as Hend.
    rewrite issueRedo_top by done. eauto.
Qed.

End LedgerClaims.

(* ===================================================================== *)
(** ** The last-exec table after a call                                  *)
(* ===================================================================== *)

Section LastExec.

Context {NativeState : Type}.
Implicit Types (st : LuaScripting NativeState) (ft : FunctionTable NativeState).

Lemma lua_call_ok_arity st fname args st' ft :
  mFunctions st !! fname = Some ft ->
  lua_call fname args st = (Ok tt, st') ->
  length args = length (ft_defaults ft).
Proof.
  intros Hft. unfold lua_call, exec_with. unfold bind at 1, gets. rewrite Hft.
  destruct (ft_metatable ft) as [[c |] |]; try done.
  by case_decide.
Qed.

(** In an idle ledger, a successful call of a function that is not exempt
    leaves its parameters in the last-exec table. *)
Lemma exec_records_lastExec st fname ft f args st' :
  idle st ->
  mFunctions st !! fname = Some ft ->
  ft_metatable ft = Some (Some (NativeFunction f)) ->
  ft_exempt ft = false ->
  lastExec_wf ft ->
  exec fname args st = (Ok tt, st') ->
  lastExec_of st' fname = Some (table_of_params args).
Proof.
  intros Hidle Hft Hmt Hex (ps & Hle & Hlen & Hnf).
  unfold exec, exec_with. unfold bind at 1, gets. rewrite Hft, Hmt.
  case_decide as Harity; [| done].
  destruct (existsb is_nil args) eqn:Hargs; [done |].
  unfold bind, call_native.
  destruct (f args (mNative st)) as [ns | e]; [| done].
  rewrite Hex, (logExecution_nonexempt _ _ ft) by done.
  intros [= <-]. unfold lastExec_of, logged. simpl.
  rewrite lookup_insert_eq. simpl. f_equal.
  rewrite Hle, size_table_of_params by done.
  replace (length ps) with (length args) by lia.
  apply copyParamsToTable_table_of_params. lia.
Qed.

(** A successful replay leaves the replayed parameters in the last-exec
    table. *)
Lemma replay_records_lastExec st fname params ft st' :
  mFunctions st !! fname = Some ft ->
  lastExec_wf ft ->
  performUndoRedoOp fname params st = (Ok tt, st') ->
  lastExec_of st' fname = Some (table_of_params params).
Proof.
  intros Hft (ps & Hle & Hlen & Hnf). unfold performUndoRedoOp.
  unfold bind at 1, gets. rewrite Hft.
  destruct (ft_metatable ft) as [[c |] |]; try done.
  unfold bind at 1, modify. unfold bind at 1.
  destruct (lua_call fname (pushParamsToStack params)
              (on_provenance (set_mUndoRedoProvenanceDisable true) st))
    as [[[] | e] st1] eqn:Hcall; [| done].
  assert (Hft1 : mFunctions (on_provenance (set_mUndoRedoProvenanceDisable true) st)
                 !! fname = Some ft) by done.
  pose proof (lua_call_ok_arity _ _ _ _ ft Hft1 Hcall) as Harity.
  apply lua_call_suppressed in Hcall as [_ Hf]; [| done].
  unfold storeLastExec, pushParamsToStack in *. se_unfold. intros [= <-].
  unfold lastExec_of. simpl. rewrite Hf. simpl.
  rewrite lookup_alter, decide_True by done. rewrite Hft. simpl. f_equal.
  rewrite Hle. apply copyParamsToTable_table_of_params. lia.
Qed.

(** The same for the two operations that replay. *)
Lemma issueUndo_records_lastExec st k item ft st' :
  mStackPointer (mProvenance st) = S k ->
  mUndoRedoStack (mProvenance st) !! k = Some item ->
  mFunctions st !! function item = Some ft ->
  lastExec_wf ft ->
  issueUndo st = (Ok tt, st') ->
  lastExec_of st' (function item) = Some (table_of_params (undoParams item)).
Proof.
  intros Hsp Hitem Hft Hwf. rewrite (issueUndo_run _ _ _ Hsp Hitem).
  destruct (performUndoRedoOp (function item) (undoParams item) st)
    as [[[] | e] st1] eqn:Hop; [| done].
  intros [= <-]. by apply (replay_records_lastExec _ _ _ _ _ Hft Hwf) in Hop.
Qed.

Lemma issueRedo_records_lastExec st item ft st' :
  mUndoRedoStack (mProvenance st) !! mStackPointer (mProvenance st) = Some item ->
  mFunctions st !! function item = Some ft ->
  lastExec_wf ft ->
  issueRedo st = (Ok tt, st') ->
  lastExec_of st' (function item) = Some (table_of_params (redoParams item)).
Proof.
  intros Hitem Hft Hwf. rewrite (issueRedo_run _ _ Hitem).
  destruct (performUndoRedoOp (function item) (redoParams item) st)
    as [[[] | e] st1] eqn:Hop; [| done].
  intros [= <-]. by apply (replay_records_lastExec _ _ _ _ _ Hft Hwf) in Hop.
Qed.

End LastExec.

(* ===================================================================== *)
(** ** Registration of the provenance functions                          *)
(* ===================================================================== *)

Section Registration.

Context {NativeState : Type}.
Implicit Types (st : LuaScripting NativeState).

Lemma registerFunction_fresh st c defaults fname doc :
  (length defaults <= LUAC_MAX_NUM_PARAMS)%nat ->
  nil_free defaults ->
  mFunctions st !! fname = None ->
  registerFunction c defaults fname doc st =
  (Ok tt, on_functions
            (insert fname
               (mkFunctionTable doc false defaults (table_of_params defaults)
                  (Some (Some c)))) st).
Proof.
  intros Hlen Hnf Hfresh. unfold registerFunction.
  rewrite decide_False by lia. rewrite Hnf. by rewrite Hfresh.
Qed.

Lemma setUndoRedoStackExempt_registered st fname ft b :
  mFunctions st !! fname = Some ft ->
  setUndoRedoStackExempt fname b st =
  (Ok tt, on_functions (insert fname (set_ft_exempt b ft)) st).
Proof. intros Hft. unfold setUndoRedoStackExempt. by rewrite Hft. Qed.

(** Registering a function and exempting it at once. *)
Lemma register_exempt st c defaults fname doc :
  (length defaults <= LUAC_MAX_NUM_PARAMS)%nat ->
  nil_free defaults ->
  mFunctions st !! fname = None ->
  (registerFunction c defaults fname doc ;;;
   setUndoRedoStackExempt fname true) st =
  (Ok tt, on_functions
            (insert fname
               (mkFunctionTable doc true defaults (table_of_params defaults)
                  (Some (Some c)))) st).
Proof.
  intros Hlen Hnf Hfresh. unfold bind.
  rewrite registerFunction_fresh by done.
  erewrite setUndoRedoStackExempt_registered
    by (simpl; apply lookup_insert_eq).
  unfold on_functions; simpl. by rewrite insert_insert_eq.
Qed.

Lemma register_exempt_then {B} st c defaults fname doc (k : SE _ B) :
  (length defaults <= LUAC_MAX_NUM_PARAMS)%nat ->
  nil_free defaults ->
  mFunctions st !! fname = None ->
  (registerFunction c defaults fname doc ;;;
   setUndoRedoStackExempt fname true ;;; k) st =
  k (on_functions
       (insert fname
          (mkFunctionTable doc true defaults (table_of_params defaults)
             (Some (Some c)))) st).
Proof.
  intros Hlen Hnf Hfresh.
  pose proof (register_exempt st c defaults fname doc Hlen Hnf Hfresh) as Hre.
  unfold bind in *.
  destruct (registerFunction c defaults fname doc st) as [[[] | e] st1]; [| done].
  destruct (setUndoRedoStackExempt fname true st1) as [[[] | e] st2]; [| done].
  by injection Hre as ->.
Qed.

(** C3 (as the code has it).  On a bridge in which none of the five names
    is taken, [registerLuaProvenanceFunctions] registers all five;
    [provenance.undo], [provenance.redo], [provenance.enable] and
    [provenance.clear] are exempt from the undo/redo stack, and
    [provenance.enableReentryException] is registered without the
    exemption. *)
Theorem provenance_functions_exemptions st :
  Forall (fun name => mFunctions st !! name = None) provenance_names ->
  exists st',
    registerLuaProvenanceFunctions st = (Ok tt, st') /\
    is_exempt st' "provenance.undo" = Some true /\
    is_exempt st' "provenance.redo" = Some true /\
    is_exempt st' "provenance.enable" = Some true /\
    is_exempt st' "provenance.clear" = Some true /\
    is_exempt st' "provenance.enableReentryException" = Some false.
Proof.
  unfold provenance_names. intros Hfresh.
  apply Forall_cons in Hfresh as [Hundo Hfresh].
  apply Forall_cons in Hfresh as [Hredo Hfresh].
  apply Forall_cons in Hfresh as [Henable Hfresh].
  apply Forall_cons in Hfresh as [Hclear Hfresh].
  apply Forall_cons in Hfresh as [Hreentry _].
  eexists. unfold registerLuaProvenanceFunctions.
  rewrite register_exempt_then; [| unfold LUAC_MAX_NUM_PARAMS; simpl; lia | done | done].
  rewrite register_exempt_then;
    [| unfold LUAC_MAX_NUM_PARAMS; simpl; lia | done | by simpl; rewrite lookup_insert_ne].
  rewrite register_exempt_then;
    [| unfold LUAC_MAX_NUM_PARAMS; simpl; lia | done | by simpl; rewrite !lookup_insert_ne].
  rewrite register_exempt_then;
    [| unfold LUAC_MAX_NUM_PARAMS; simpl; lia | done | by simpl; rewrite !lookup_insert_ne].
  rewrite registerFunction_fresh;
    [| unfold LUAC_MAX_NUM_PARAMS; simpl; lia | done | by simpl; rewrite !lookup_insert_ne].
  split; [reflexivity |]. unfold is_exempt; simpl.
  repeat split.
  all: rewrite ?lookup_insert_ne by done; by rewrite lookup_insert_eq.
Qed.

End Registration.

(* ===================================================================== *)
(** ** The states a bridge can reach                                     *)
(* ===================================================================== *)

Section Reachable.

Context {NativeState : Type}.
Implicit Types (st : LuaScripting NativeState) (ft : FunctionTable NativeState).

Lemma preserves_invariant_bind {A B} (c : SE (LuaScripting NativeState) A)
    (k : A -> SE (LuaScripting NativeState) B) :
  preserves_invariant c -> (forall a, preserves_invariant (k a)) ->
  preserves_invariant (bind c k).
Proof.
  intros Hc Hk st r st' Hinv. unfold bind.
  destruct (c st) as [[a | e] st1] eqn:Hrun.
  - intros Hres. eapply Hk; [| exact Hres]. eapply Hc; [exact Hinv | exact Hrun].
  - intros [= <- <-]. eapply Hc; [exact Hinv | exact Hrun].
Qed.

(** A fresh registration starts the last-exec table at the defaults. *)
Lemma registerFunction_invariant c defaults fname doc :
  preserves_invariant (registerFunction (NativeState := NativeState)
                         c defaults fname doc).
Proof.
  intros st r st' (Hlog & Hcur & Hwf). unfold registerFunction.
  case_decide; [by intros [= <- <-] |].
  destruct (existsb is_nil defaults) eqn:Hnf; [by intros [= <- <-] |].
  destruct (mFunctions st !! fname) eqn:Hft; intros [= <- <-]; [done |].
  split; [done |]. split; [done |]. intros k ft. simpl.
  rewrite lookup_insert. case_decide; [| apply Hwf].
  intros [= <-]. by exists defaults.
Qed.

Lemma setUndoRedoStackExempt_invariant fname exempt :
  preserves_invariant (setUndoRedoStackExempt (NativeState := NativeState)
                         fname exempt).
Proof.
  intros st r st' (Hlog & Hcur & Hwf). unfold setUndoRedoStackExempt.
  destruct (mFunctions st !! fname) as [ft0 |] eqn:Hft; intros [= <- <-]; [| done].
  split; [done |]. split; [done |]. intros k ft. simpl.
  rewrite lookup_insert. case_decide; [| apply Hwf].
  intros [= <-]. apply (Hwf _ _ Hft).
Qed.

Lemma registerLuaProvenanceFunctions_invariant :
  preserves_invariant (registerLuaProvenanceFunctions (NativeState := NativeState)).
Proof.
  unfold registerLuaProvenanceFunctions.
  repeat (apply preserves_invariant_bind; [| intros _]);
    first [apply registerFunction_invariant | apply setUndoRedoStackExempt_invariant].
Qed.

Lemma lua_call_ok_nil_free st fname args st' :
  lua_call fname args st = (Ok tt, st') -> nil_free args.
Proof.
  unfold lua_call, exec_with. unfold bind at 1, gets.
  destruct (mFunctions st !! fname) as [ft |]; [| done].
  destruct (ft_metatable ft) as [[c |] |]; try done.
  case_decide; [| done]. unfold nil_free.
  by destruct (existsb is_nil args).
Qed.

(** [performUndoRedoOp] leaves the defaults of every function as they are. *)
Lemma performUndoRedoOp_defaults st fname params r st' k :
  performUndoRedoOp fname params st = (r, st') ->
  ft_defaults <$> mFunctions st' !! k = ft_defaults <$> mFunctions st !! k.
Proof.
  unfold performUndoRedoOp. unfold bind at 1, gets.
  destruct (mFunctions st !! fname) as [ft |]; [| by intros [= <- <-]].
  destruct (ft_metatable ft) as [[c |] |]; try by intros [= <- <-].
  unfold bind at 1, modify. unfold bind at 1.
  destruct (lua_call fname (pushParamsToStack params)
              (on_provenance (set_mUndoRedoProvenanceDisable true) st))
    as [r1 st1] eqn:Hcall.
  apply lua_call_suppressed in Hcall as [Hp Hf]; [| done].
  destruct r1 as [[] | e].
  - unfold storeLastExec. se_unfold. intros [= <- <-]. simpl.
    rewrite Hf. simpl. rewrite lookup_alter. case_decide; subst; [| done].
    by destruct (mFunctions st !! k).
  - intros [= <- <-]. by rewrite Hf.
Qed.

Lemma performUndoRedoOp_invariant fname params :
  preserves_invariant (performUndoRedoOp (NativeState := NativeState) fname params).
Proof.
  intros st r st' (Hlog & Hcur & Hwf). unfold performUndoRedoOp.
  unfold bind at 1, gets.
  destruct (mFunctions st !! fname) as [ft |] eqn:Hft; [| by intros [= <- <-]].
  destruct (ft_metatable ft) as [[c |] |]; try by intros [= <- <-].
  unfold bind at 1, modify. unfold bind at 1.
  destruct (lua_call fname (pushParamsToStack params)
              (on_provenance (set_mUndoRedoProvenanceDisable true) st))
    as [r1 st1] eqn:Hcall.
  assert (Hft1 : mFunctions (on_provenance (set_mUndoRedoProvenanceDisable true) st)
                 !! fname = Some ft) by done.
  destruct r1 as [[] | e].
  - pose proof (lua_call_ok_arity _ _ _ _ ft Hft1 Hcall) as Harity.
    pose proof (lua_call_ok_nil_free _ _ _ _ Hcall) as Hnf.
    apply lua_call_suppressed in Hcall as [Hp Hf]; [| done].
    unfold storeLastExec, pushParamsToStack in *. se_unfold. intros [= <- <-].
    unfold ledger_invariant, not_logging, cursor_ok in *. simpl. rewrite Hp, Hf.
    simpl. split; [done |]. split; [done |]. intros k ft'.
    rewrite lookup_alter. case_decide; [| apply Hwf]. subst k.
    rewrite Hft. simpl. intros [= <-].
    destruct (Hwf _ _ Hft) as (ps & Hle & Hlen & _).
    exists params. simpl. split; [| done].
    rewrite Hle. apply copyParamsToTable_table_of_params. lia.
  - apply lua_call_suppressed in Hcall as [Hp Hf]; [| done].
    intros [= <- <-].
    unfold ledger_invariant, not_logging, cursor_ok in *. rewrite Hp, Hf.
    simpl. done.
Qed.

Lemma issueUndo_invariant :
  preserves_invariant (issueUndo (NativeState := NativeState)).
Proof.
  intros st r st' Hinv Hres.
  apply issueUndo_cases in Hres as [[-> _] | Hrun]; [done |].
  destruct Hrun as (k & item & r1 & st1 & Hsp & Hitem & Hop & Hres).
  apply performUndoRedoOp_invariant in Hop; [| done].
  destruct r1 as [[] | e1]; destruct Hres as [_ ->]; [| done].
  destruct Hop as (Hlog & Hcur & Hwf).
  unfold ledger_invariant, not_logging, cursor_ok in *. simpl.
  split; [done |]. split; [lia | done].
Qed.

Lemma issueRedo_invariant :
  preserves_invariant (issueRedo (NativeState := NativeState)).
Proof.
  intros st r st' Hinv Hres.
  apply issueRedo_cases in Hres as [[-> _] | Hrun]; [done |].
  destruct Hrun as (item & r1 & st1 & Hitem & Hop & Hres).
  pose proof (performUndoRedoOp_provenance _ _ _ _ _ Hop) as [dis Hp].
  apply performUndoRedoOp_invariant in Hop; [| done].
  destruct r1 as [[] | e1]; destruct Hres as [_ ->]; [| done].
  destruct Hop as (Hlog & Hcur & Hwf). apply lookup_lt_Some in Hitem.
  unfold ledger_invariant, not_logging, cursor_ok in *. simpl.
  split; [done |]. split; [| done]. rewrite Hp. simpl. lia.
Qed.

Lemma clearProvenance_invariant :
  preserves_invariant (clearProvenance (NativeState := NativeState)).
Proof.
  intros st r st' (Hlog & Hcur & Hwf). unfold clearProvenance. se_unfold.
  intros [= <- <-]. unfold ledger_invariant, not_logging, cursor_ok. simpl.
  split; [done |]. split; [lia | done].
Qed.

Lemma setEnabled_invariant enabled :
  preserves_invariant (setEnabled (NativeState := NativeState) enabled).
Proof.
  intros st r st' (Hlog & Hcur & Hwf).
  unfold setEnabled, clearProvenance, this. se_unfold.
  unfold ledger_invariant, not_logging, cursor_ok in *.
  destruct (negb enabled && mEnabled (mProvenance st)); intros [= <- <-]; simpl;
    (split; [done |]; split; [lia | done]).
Qed.

Lemma enableProvReentryEx_invariant enable :
  preserves_invariant (enableProvReentryEx (NativeState := NativeState) enable).
Proof.
  intros st r st' (Hlog & Hcur & Hwf). unfold enableProvReentryEx. se_unfold.
  by intros [= <- <-].
Qed.

Lemma provenance_member_invariant m args :
  preserves_invariant (provenance_member (NativeState := NativeState) m args).
Proof.
  unfold provenance_member.
  destruct m, args as [| [] []];
    first [ apply issueUndo_invariant | apply issueRedo_invariant
          | apply setEnabled_invariant | apply clearProvenance_invariant
          | apply enableProvReentryEx_invariant
          | by intros st r st' Hinv [= <- <-] ].
Qed.

(** Of the function tables, the methods of the provenance object touch
    the last-exec entries only. *)
Lemma provenance_member_defaults m args st r st' k :
  provenance_member m args st = (r, st') ->
  ft_defaults <$> mFunctions st' !! k = ft_defaults <$> mFunctions st !! k.
Proof.
  unfold provenance_member. destruct m, args as [| [] []];
    try by intros [= <- <-].
  - intros Hres. apply issueUndo_cases in Hres as [[-> _] | Hrun]; [done |].
    destruct Hrun as (k0 & item & r1 & st1 & Hsp & Hitem & Hop & Hres).
    apply (performUndoRedoOp_defaults _ _ _ _ _ k) in Hop.
    destruct r1 as [[] | e1]; destruct Hres as [_ ->]; done.
  - intros Hres. apply issueRedo_cases in Hres as [[-> _] | Hrun]; [done |].
    destruct Hrun as (item & r1 & st1 & Hitem & Hop & Hres).
    apply (performUndoRedoOp_defaults _ _ _ _ _ k) in Hop.
    destruct r1 as [[] | e1]; destruct Hres as [_ ->]; done.
  - unfold setEnabled, clearProvenance, this. se_unfold.
    by destruct (negb b && mEnabled (mProvenance st)); intros [= <- <-].
Qed.

(** [logExecution], entered between two operations for a call that the
    wrapper has let through, keeps the invariant: the asserted equality
    of the ledger's length and the cursor holds after the truncation, and
    the new snapshot fills the last-exec table. *)
Lemma logExecution_invariant st fname exempt funParams emptyParams r st' :
  ledger_invariant st ->
  (exists ft, mFunctions st !! fname = Some ft /\
              length funParams = length (ft_defaults ft)) ->
  nil_free funParams ->
  logExecution fname exempt funParams emptyParams st = (r, st') ->
  ledger_invariant st'.
Proof.
  intros (Hlog & Hcur & Hwf) (ft & Hft & Hlen) Hnf.
  destruct (mUndoRedoProvenanceDisable (mProvenance st)) eqn:Hdis.
  - rewrite logExecution_disabled by done. by intros [= <- <-].
  - destruct exempt.
    + rewrite logExecution_exempt by done. by intros [= <- <-].
    + rewrite (logExecution_nonexempt _ _ ft) by done. intros [= <- <-].
      destruct (logged_ledger st fname ft funParams emptyParams Hcur)
        as (u & _ & _ & Hend).
      split; [done |]. split; [unfold cursor_ok; lia |].
      intros k ft'. simpl. rewrite lookup_insert. case_decide; [| apply Hwf].
      intros [= <-]. destruct (Hwf _ _ Hft) as (ps & Hle & Hps & Hpnf).
      exists funParams. simpl. split; [| done].
      rewrite Hle, size_table_of_params by done.
      replace (length ps) with (length funParams) by lia.
      apply copyParamsToTable_table_of_params. lia.
Qed.

Lemma exec_invariant fname args :
  preserves_invariant (exec (NativeState := NativeState) fname args).
Proof.
  intros st r st' Hinv. unfold exec, exec_with. unfold bind at 1, gets.
  destruct (mFunctions st !! fname) as [ft |] eqn:Hft; [| by intros [= <- <-]].
  destruct (ft_metatable ft) as [[c |] |]; try by intros [= <- <-].
  case_decide as Harity; [| by intros [= <- <-]].
  destruct (existsb is_nil args) eqn:Hnf; [by intros [= <- <-] |].
  unfold bind. destruct c as [f | m].
  - unfold call_native. destruct (f args (mNative st)) as [ns | e];
      [| by intros [= <- <-]].
    apply logExecution_invariant; [done | by exists ft | done].
  - destruct (provenance_member m args st) as [[[] | e] st1] eqn:Hm.
    + pose proof (provenance_member_defaults _ _ _ _ _ fname Hm) as Hd.
      apply provenance_member_invariant in Hm; [| done].
      rewrite Hft in Hd. simpl in Hd.
      destruct (mFunctions st1 !! fname) as [ft1 |] eqn:Hft1; [| done].
      injection Hd as Hd.
      apply logExecution_invariant; [done | | done].
      exists ft1. split; [done | congruence].
    + intros [= <- <-]. by apply provenance_member_invariant in Hm.
Qed.

Lemma bridge_op_invariant (c : SE (LuaScripting NativeState) unit) :
  bridge_op c -> preserves_invariant c.
Proof.
  destruct 1.
  - apply registerFunction_invariant.
  - apply setUndoRedoStackExempt_invariant.
  - apply registerLuaProvenanceFunctions_invariant.
  - apply exec_invariant.
  - apply issueUndo_invariant.
  - apply issueRedo_invariant.
  - apply clearProvenance_invariant.
  - apply setEnabled_invariant.
  - apply enableProvReentryEx_invariant.
Qed.

(** Whatever the application and its scripts do, and whether the
    operations return or throw, the bridge is left with no call being
    logged, the cursor within the ledger, and one value per parameter in
    every last-exec table.  (The flag that suppresses logging during a
    replay is not part of this: a replay that throws leaves it set.) *)
Lemma reachable_invariant st : reachable st -> ledger_invariant st.
Proof.
  induction 1 as [ns | st c r st' _ IH Hop Hrun].
  - split; [done |]. split; [unfold cursor_ok; simpl; lia |].
    intros k ft. simpl. by rewrite lookup_empty.
  - by apply (bridge_op_invariant c Hop st r st').
Qed.

(** "Cursor never exceeds ledger length." *)
Lemma reachable_cursor_ok st : reachable st -> cursor_ok st.
Proof. intros Hr. by destruct (reachable_invariant st Hr) as (_ & Hcur & _). Qed.

Lemma reachable_run st (c : SE (LuaScripting NativeState) unit) :
  reachable st -> bridge_op c -> reachable (snd (c st)).
Proof.
  intros Hr Hop. apply (reachable_step st c (fst (c st))); [done | done |].
  by destruct (c st).
Qed.

(** As long as no replay has thrown, a successful call of a function of
    the application that is not exempt leaves its parameters in the
    last-exec table. *)
Lemma reachable_exec_records_lastExec st fname ft f args st' :
  reachable st ->
  mUndoRedoProvenanceDisable (mProvenance st) = false ->
  mFunctions st !! fname = Some ft ->
  ft_metatable ft = Some (Some (NativeFunction f)) ->
  ft_exempt ft = false ->
  exec fname args st = (Ok tt, st') ->
  lastExec_of st' fname = Some (table_of_params args).
Proof.
  intros Hr Hdis Hft Hmt Hex.
  destruct (reachable_invariant st Hr) as (Hlog & _ & Hwf).
  apply (exec_records_lastExec st fname ft f); try done. by apply (Hwf fname).
Qed.

End Reachable.

(* ===================================================================== *)
(** ** Further properties of the ledger                                  *)
(* ===================================================================== *)

Section LedgerProps.

Context {NativeState : Type}.
Implicit Types (st : LuaScripting NativeState) (ft : FunctionTable NativeState).




Lemma undo_times_cursor K st st' :
  undo_times K st = (Ok tt, st') ->
  (K <= mStackPointer (mProvenance st))%nat /\
  mStackPointer (mProvenance st') = (mStackPointer (mProvenance st) - K)%nat /\
  mUndoRedoStack (mProvenance st') = mUndoRedoStack (mProvenance st).
Proof.
  revert st. induction K as [| K IH]; intros st.
  - simpl. unfold ret. intros [= <-]. repeat split; lia.
  - simpl. unfold bind.
    destruct (issueUndo st) as [[[] | e] st1] eqn:Hundo; [| done].
    intros Hrest. apply IH in Hrest as (HK & Hsp & Hstk).
    apply issueUndo_ok_provenance in Hundo as (k & item & Hsp0 & _ & Hp).
    rewrite Hp in HK, Hsp, Hstk. simpl in *. rewrite Hsp0, Hsp, Hstk.
    repeat split; lia.
Qed.

Lemma redo_times_cursor K st st' :
  cursor_ok st ->
  redo_times K st = (Ok tt, st') ->
  (mStackPointer (mProvenance st) + K
   <= length (mUndoRedoStack (mProvenance st)))%nat /\
  mStackPointer (mProvenance st') = (mStackPointer (mProvenance st) + K)%nat /\
  mUndoRedoStack (mProvenance st') = mUndoRedoStack (mProvenance st).
Proof.
  revert st. induction K as [| K IH]; intros st Hcur.
  - simpl. unfold ret. intros [= <-]. unfold cursor_ok in Hcur.
    repeat split; lia.
  - simpl. unfold bind.
    destruct (issueRedo st) as [[[] | e] st1] eqn:Hredo; [| done].
    intros Hrest.
    apply issueRedo_ok_provenance in Hredo as (item & Hitem & Hp).
    apply lookup_lt_Some in Hitem.
    apply IH in Hrest as (HK & Hsp & Hstk);
      [| unfold cursor_ok; rewrite Hp; simpl; lia].
    rewrite Hp in HK, Hsp, Hstk. simpl in *. rewrite Hsp, Hstk.
    repeat split; lia.
Qed.


(** X5.  A successful call of a function of the application that is not
    exempt, issued in an idle ledger, is recorded last, with the
    parameters of the call as redo parameters and the parameters that the
    last-exec table held -- those of the previous call of the function,
    or the defaults after registration -- as undo parameters; the
    last-exec table then holds the parameters of the call. *)
Theorem exec_records_previous_params st fname ft f ps args st' :
  idle st -> cursor_ok st ->
  mFunctions st !! fname = Some ft ->
  ft_metatable ft = Some (Some (NativeFunction f)) ->
  ft_exempt ft = false ->
  ft_lastExec ft = table_of_params ps ->
  length ps = length (ft_defaults ft) ->
  nil_free ps ->
  exec fname args st = (Ok tt, st') ->
  last (mUndoRedoStack (mProvenance st')) = Some (mkUndoRedoItem fname ps args) /\
  mStackPointer (mProvenance st') = length (mUndoRedoStack (mProvenance st')) /\
  lastExec_of st' fname = Some (table_of_params args).
Proof.
  intros Hidle Hcur Hft Hmt Hex Hle Hlen Hnf Hexec.
  assert (Hwf : lastExec_wf ft) by (by exists ps).
  pose proof (exec_records_lastExec _ _ _ _ _ _ Hidle Hft Hmt Hex Hwf Hexec) as Hlast.
  pose proof (exec_nonexempt_cursor_at_end _ _ _ _ _ Hidle Hcur Hft Hex Hexec)
    as Hend.
  split; [| done].
  revert Hexec. unfold exec, exec_with. unfold bind at 1, gets. rewrite Hft, Hmt.
  case_decide as Harity; [| done].
  destruct (existsb is_nil args) eqn:Hargs; [done |].
  unfold bind, call_native.
  destruct (f args (mNative st)) as [ns | e]; [| done].
  rewrite Hex, (logExecution_nonexempt _ _ ft) by done.
  intros [= <-]. unfold logged. simpl. rewrite last_snoc. do 2 f_equal.
  rewrite Hle. unfold pullParamsFromStack.
  rewrite size_table_of_params by done.
  case_decide as Hsz.
  - apply lastExec_read_table_of_params.
  - assert (length ps = O) as Hz by lia.
    destruct ps; [| done]. simpl in Hlen.
    by destruct (ft_defaults ft).
Qed.

(** X6.  A successful call of an exempt function of the application
    leaves the provenance object and every function table as they were:
    it is not recorded, it does not erase the redo history, and it does
    not update the last-exec table.  Only the native state changes. *)
Theorem exempt_call_leaves_ledger st fname ft f args st' :
  not_logging st ->
  mFunctions st !! fname = Some ft ->
  ft_metatable ft = Some (Some (NativeFunction f)) ->
  ft_exempt ft = true ->
  exec fname args st = (Ok tt, st') ->
  mProvenance st' = mProvenance st /\
  mFunctions st' = mFunctions st /\
  f args (mNative st) = Ok (mNative st').
Proof.
  intros Hlog Hft Hmt Hex. unfold exec, exec_with. unfold bind at 1, gets.
  rewrite Hft, Hmt. case_decide as Harity; [| done].
  destruct (existsb is_nil args) eqn:Hargs; [done |].
  unfold bind, call_native.
  destruct (f args (mNative st)) as [ns | e]; [| done].
  rewrite Hex.
  destruct (mUndoRedoProvenanceDisable (mProvenance st)) eqn:Hdis.
  - rewrite logExecution_disabled by done. by intros [= <-].
  - rewrite logExecution_exempt by done. by intros [= <-].
Qed.

(** X7.  [setEnabled(false)] on an enabled provenance object drops all
    records and resets the cursor, so that undo and redo are both refused
    afterwards, also after provenance is enabled again; any other call of
    [setEnabled] leaves records and cursor as they are. *)
Theorem setEnabled_clears_history :
  (forall st,
      mEnabled (mProvenance st) = true ->
      exists st',
        setEnabled false st = (Ok tt, st') /\
        mEnabled (mProvenance st') = false /\
        mUndoRedoStack (mProvenance st') = [] /\
        mStackPointer (mProvenance st') = O /\
        (exists what, issueUndo st' = (Throw (LuaProvenanceInvalidUndo what), st')) /\
        (exists what, issueRedo st' = (Throw (LuaProvenanceInvalidRedo what), st')) /\
        exists st'',
          setEnabled true st' = (Ok tt, st'') /\
          mUndoRedoStack (mProvenance st'') = [] /\
          mStackPointer (mProvenance st'') = O)
  /\ (forall st enabled,
         enabled = true \/ mEnabled (mProvenance st) = false ->
         exists st',
           setEnabled enabled st = (Ok tt, st') /\
           mEnabled (mProvenance st') = enabled /\
           mUndoRedoStack (mProvenance st') = mUndoRedoStack (mProvenance st) /\
           mStackPointer (mProvenance st') = mStackPointer (mProvenance st)).
Proof.
  split.
  - intros st Hen. unfold setEnabled, clearProvenance, this. se_unfold.
    rewrite Hen. simpl. eexists. split; [reflexivity |]. simpl.
    repeat split.
    + rewrite issueUndo_bottom by done. eauto.
    + rewrite issueRedo_top by done. eauto.
    + eexists. split; [reflexivity |]. done.
  - intros st enabled Hcase. unfold setEnabled, clearProvenance, this. se_unfold.
    assert (negb enabled && mEnabled (mProvenance st) = false) as ->.
    { destruct Hcase as [-> | ->]; [done | by rewrite andb_false_r]. }
    eexists. split; [reflexivity |]. done.
Qed.

(** X8.  [logExecution] never reads [mEnabled]: on a provenance object
    that is disabled it behaves exactly as on one that is enabled (it is
    the caller that has to ask [isEnabled]). *)
Theorem logExecution_ignores_mEnabled st b fname exempt funParams emptyParams :
  logExecution fname exempt funParams emptyParams (on_provenance (set_mEnabled b) st)
  = (fst (logExecution fname exempt funParams emptyParams st),
     on_provenance (set_mEnabled b)
       (snd (logExecution fname exempt funParams emptyParams st))).
Proof.
  destruct st as [[en sp stk lg re dis] fns ns].
  destruct lg.
  - rewrite !logExecution_logging by done. simpl. by destruct re.
  - destruct dis.
    + by rewrite !logExecution_disabled.
    + destruct exempt.
      * by rewrite !logExecution_exempt.
      * destruct (fns !! fname) as [ft |] eqn:Hft.
        -- by rewrite !(logExecution_nonexempt _ _ ft).
        -- unfold logExecution, this, getLastExecTable. se_unfold. simpl.
           by rewrite Hft.
Qed.

(** X9.  A record whose function is no longer registered blocks undo, and
    likewise redo: the operation throws [LuaProvenanceInvalidUndo]
    ([LuaProvenanceInvalidRedo]) and leaves the whole bridge as it was,
    the flag that suppresses logging included, so that repeating it fails
    in the same way. *)
Theorem replay_of_unregistered_function :
  (forall st k item,
      mStackPointer (mProvenance st) = S k ->
      mUndoRedoStack (mProvenance st) !! k = Some item ->
      mFunctions st !! function item = None ->
      issueUndo st
      = (Throw (LuaProvenanceInvalidUndo "Function table does not exist."), st))
  /\ (forall st item,
         mUndoRedoStack (mProvenance st) !! mStackPointer (mProvenance st)
           = Some item ->
         mFunctions st !! function item = None ->
         issueRedo st
         = (Throw (LuaProvenanceInvalidRedo "Function table does not exist."), st)).
Proof.
  split.
  - intros st k item Hsp Hitem Hnone.
    rewrite (issueUndo_run _ _ _ Hsp Hitem).
    unfold performUndoRedoOp. se_unfold. by rewrite Hnone.
  - intros st item Hitem Hnone.
    rewrite (issueRedo_run _ _ Hitem).
    unfold performUndoRedoOp. se_unfold. by rewrite Hnone.
Qed.

(** X10.  A successful undo or redo always ends in an idle ledger: it
    resets the flag that suppresses logging, also when an earlier replay
    that threw had left it set. *)
Theorem successful_replay_reenables_logging st st' :
  not_logging st ->
  issueUndo st = (Ok tt, st') \/ issueRedo st = (Ok tt, st') ->
  idle st'.
Proof.
  intros Hlog [Hundo | Hredo].
  - by apply issueUndo_ok_idle in Hundo as [Hidle _].
  - apply issueRedo_ok_provenance in Hredo as (item & _ & Hp).
    unfold idle. rewrite Hp. done.
Qed.

End LedgerProps.

(* ===================================================================== *)
(** ** The claims on the fixtures                                        *)
(* ===================================================================== *)

Lemma L_sparse_keys i :
  rawget (<[KInt 3 := LNumber 30]> (<[KInt 1 := LNumber 10]> ∅)) (KInt i) <> LNil
  <-> i = 1 \/ i = 3.
Proof.
  unfold rawget. destruct (decide (i = 3)) as [-> | H3].
  - rewrite lookup_insert_eq. simpl. split; [by right | done].
  - rewrite lookup_insert_ne by congruence.
    destruct (decide (i = 1)) as [-> | H1].
    + rewrite lookup_insert_eq. simpl. split; [by left | done].
    + rewrite lookup_insert_ne by congruence. rewrite lookup_empty. simpl.
      split; [done | lia].
Defined.

(** The table with keys 1 and 3 of [L_sparse] marshals to [[10]]. *)
Lemma vector_get_sparse_witness :
  index2adr L_sparse 2
  = Some (LTable (<[KInt 3 := LNumber 30]> (<[KInt 1 := LNumber 10]> ∅)) None)
  /\ get (T := list Z) 2 L_sparse = (Ok [10], L_sparse).
Proof.
  split; [reflexivity |].
  apply (proj2 (vector_get_stops_at_first_missing_key Z _ int_from_value
                  int_lawful_get)
           L_sparse 2 (<[KInt 3 := LNumber 30]> (<[KInt 1 := LNumber 10]> ∅)) None 10).
  - lia.
  - reflexivity.
  - apply L_sparse_keys.
  - reflexivity.
Defined.



(** Undo and redo on the bridge of the class test before any call, as the
    test does first. *)
Lemma undo_redo_boundaries_witness :
  (exists what, issueUndo bridge_A = (Throw (LuaProvenanceInvalidUndo what), bridge_A))
  /\ (exists what, issueRedo bridge_A = (Throw (LuaProvenanceInvalidRedo what), bridge_A)).
Proof.
  destruct (@undo_redo_boundaries A) as [Hundo Hredo].
  split; [apply Hundo | apply Hredo]; reflexivity.
Defined.

Lemma failed_replay_keeps_cursor_witness :
  (issueUndo loader_after_call
   = (Throw (NativeException "cannot open file"), snd (issueUndo loader_after_call))
   /\ mStackPointer (mProvenance (snd (issueUndo loader_after_call))) = 1%nat
   /\ mStackPointer (mProvenance loader_after_call) = 1%nat)
  /\ issueUndo (ledger_orphan 1)
     = (Throw (LuaProvenanceInvalidUndo "Function table does not exist."),
        ledger_orphan 1)
  /\ issueRedo (ledger_orphan 0)
     = (Throw (LuaProvenanceInvalidRedo "Function table does not exist."),
        ledger_orphan 0).
Proof.
  assert (Hthrow : issueUndo loader_after_call
                   = (Throw (NativeException "cannot open file"),
                      snd (issueUndo loader_after_call)))
    by (vm_compute; reflexivity).
  split; [| split].
  - split; [exact Hthrow |].
    destruct (proj1 (@failed_replay_keeps_cursor string) _ _ _ (or_introl Hthrow))
      as [Hsp _].
    split; [rewrite Hsp |]; reflexivity.
  - apply (proj1 (proj2 (@failed_replay_keeps_cursor unit)) (ledger_orphan 1)
             0%nat (mkUndoRedoItem "gone" [] [])); reflexivity.
  - apply (proj2 (proj2 (@failed_replay_keeps_cursor unit)) (ledger_orphan 0)
             (mkUndoRedoItem "gone" [] [])); reflexivity.
Defined.

(* ===================================================================== *)
(** ** Undo and redo of setters                                          *)
(* ===================================================================== *)

Section SetterProps.

Context {NativeState : Type}.
Variable set : string -> Params -> NativeState -> NativeState.
Implicit Types (st : LuaScripting NativeState) (ft : FunctionTable NativeState).

Lemma valid_params_length ft p : valid_params ft p -> length p = length (ft_defaults ft).
Proof. apply Forall2_length. Qed.

Lemma valid_params_nil_free ft p :
  nil_free (ft_defaults ft) -> valid_params ft p -> nil_free p.
Proof.
  unfold valid_params, nil_free. generalize (ft_defaults ft) as ds.
  induction p as [| a p IH]; intros ds Hds Hv; [done |].
  inversion Hv as [| a' d p' ds' Hty Hrest]; subst. simpl in *.
  apply orb_false_iff in Hds as [Hd Hds].
  rewrite (IH ds' Hds Hrest), orb_false_r.
  destruct a, d; simpl in *; congruence.
Qed.

Lemma valid_params_set_ft_lastExec t ft p :
  valid_params (set_ft_lastExec t ft) p <-> valid_params ft p.
Proof. done. Qed.

Lemma is_setter_set_ft_lastExec fname t ft :
  is_setter set fname ft -> is_setter set fname (set_ft_lastExec t ft).
Proof.
  intros (Hex & Hnf & c & Hmt & Hc). split; [done |]. split; [done |].
  exists c. split; [done |]. intros p s Hp. by apply Hc.
Qed.

Lemma set_ft_lastExec_id ft : set_ft_lastExec (ft_lastExec ft) ft = ft.
Proof. by destruct ft. Qed.

(** The undo parameters that [logExecution] gathers from a last-exec
    table made from [ps]. *)
Lemma gathered_undo_params ps (emptyParams : Params) :
  nil_free ps -> length emptyParams = length ps ->
  (if decide (size (table_of_params ps) <> O)
   then lastExec_read (table_of_params ps) (size (table_of_params ps))
   else emptyParams) = ps.
Proof.
  intros Hnf Hlen. rewrite size_table_of_params by done.
  case_decide as Hsz.
  - apply lastExec_read_table_of_params.
  - assert (length ps = O) as Hz by lia. rewrite Hz in Hlen.
    destruct ps, emptyParams; simpl in *; done.
Qed.

(** A call of a setter in an idle ledger: the native state is set, the
    call is recorded with the previous parameters as its undo parameters,
    and the last-exec table holds the new parameters. *)
Lemma exec_setter st fname ft ps p :
  idle st ->
  mFunctions st !! fname = Some ft ->
  is_setter set fname ft ->
  ft_lastExec ft = table_of_params ps ->
  valid_params ft ps ->
  valid_params ft p ->
  exec fname p st = (Ok tt, setter_called set fname ft ps p st).
Proof.
  intros Hidle Hft (Hex & Hnf & c & Hmt & Hc) Hle Hps Hp.
  pose proof (valid_params_length _ _ Hp) as Hlen.
  pose proof (valid_params_length _ _ Hps) as Hlens.
  pose proof (valid_params_nil_free _ _ Hnf Hp) as Hpnf.
  pose proof (valid_params_nil_free _ _ Hnf Hps) as Hpsnf.
  unfold exec. rewrite (exec_with_native _ _ _ _ ft c) by done.
  rewrite (Hc _ _ Hp), Hex.
  rewrite (logExecution_nonexempt _ _ ft) by done.
  unfold logged, setter_called. simpl. rewrite Hle.
  rewrite gathered_undo_params by (done || lia).
  rewrite size_table_of_params by done.
  replace (length ps) with (length p) by lia.
  rewrite copyParamsToTable_table_of_params by lia.
  destruct Hidle as [_ Hdis]. by rewrite Hdis.
Qed.

(** After the call every setter in sync is still in sync. *)
Lemma in_sync_after_call st fname ft ps p g :
  setter_laws set ->
  mFunctions st !! fname = Some ft ->
  is_setter set fname ft ->
  valid_params ft p ->
  in_sync set st g ->
  in_sync set (setter_called set fname ft ps p st) g.
Proof.
  intros [Hover Hcomm] Hft Hsetter Hp (gt & gs & Hgt & Hgsetter & Hgle & Hgs & Hgn).
  destruct (decide (fname = g)) as [<- | Hne].
  - exists (set_ft_lastExec (table_of_params p) ft), p. simpl.
    split; [apply lookup_insert_eq |].
    split; [by apply is_setter_set_ft_lastExec |].
    split; [done |]. split; [done |]. apply Hover.
  - exists gt, gs. simpl.
    split; [by rewrite lookup_insert_ne |].
    split; [done |]. split; [done |]. split; [done |].
    rewrite Hcomm by done. by rewrite Hgn.
Qed.

(** Undoing the call of a setter that was in sync gives the bridge from
    before the call back, with the record of the call as the first redo
    entry. *)
Lemma undo_setter_called st fname ft ps p tail :
  setter_laws set ->
  idle st -> cursor_ok st ->
  mFunctions st !! fname = Some ft ->
  is_setter set fname ft ->
  ft_lastExec ft = table_of_params ps ->
  valid_params ft ps ->
  valid_params ft p ->
  set fname ps (mNative st) = mNative st ->
  issueUndo (retail tail (setter_called set fname ft ps p st)) =
  (Ok tt, retail (mkUndoRedoItem fname ps p :: tail) st).
Proof.
  intros [Hover Hcomm] [Hlog Hdis] Hcur Hft Hsetter Hle Hps Hp Hsync.
  pose proof Hsetter as (Hex & Hnf & c & Hmt & Hc).
  pose proof (valid_params_length _ _ Hp) as Hlen.
  pose proof (valid_params_length _ _ Hps) as Hlens.
  pose proof (valid_params_nil_free _ _ Hnf Hps) as Hpsnf.
  destruct st as [[en sp stk lg re dis] fns ns].
  unfold cursor_ok in Hcur. simpl in *. subst lg dis.
  assert (Hstack :
    take (S sp) (Nat.iter (length stk - sp) pop_back stk
                 ++ [mkUndoRedoItem fname ps p]) ++ tail
    = take sp stk ++ mkUndoRedoItem fname ps p :: tail).
  { rewrite pop_back_iter.
    replace (length stk - (length stk - sp))%nat with sp by lia.
    rewrite take_ge by (rewrite length_app, length_take; simpl; lia).
    by rewrite <- app_assoc. }
  rewrite (issueUndo_run _ sp (mkUndoRedoItem fname ps p)).
  - simpl.
    erewrite (performUndoRedoOp_native _ fname ps
                (set_ft_lastExec (table_of_params p) ft) c
                (set fname ps (set fname p ns))).
    + unfold retail, replayed, on_provenance, setter_called. simpl.
      rewrite Hstack, Nat.sub_0_r, Hover, Hsync. do 2 f_equal.
      rewrite insert_insert_eq.
      rewrite copyParamsToTable_table_of_params by lia.
      rewrite <- Hle. unfold set_ft_lastExec; simpl.
      apply insert_id. rewrite Hft. by destruct ft.
    + done.
    + simpl. apply lookup_insert_eq.
    + done.
    + simpl. lia.
    + done.
    + simpl. by apply Hc.
  - done.
  - simpl. rewrite Hstack. apply list_lookup_middle.
    rewrite length_take. lia.
Qed.

Lemma setter_called_idle st fname ft ps p :
  cursor_ok st ->
  idle (setter_called set fname ft ps p st) /\
  cursor_ok (setter_called set fname ft ps p st) /\
  mStackPointer (mProvenance (setter_called set fname ft ps p st))
  = length (mUndoRedoStack (mProvenance (setter_called set fname ft ps p st))).
Proof.
  unfold cursor_ok, idle. simpl. intros Hcur.
  rewrite pop_back_iter, length_app, length_take. simpl.
  repeat split; lia.
Qed.

Lemma valid_call_after_call st fname ft ps p call :
  setter_laws set ->
  mFunctions st !! fname = Some ft ->
  is_setter set fname ft ->
  valid_params ft p ->
  valid_call set st call ->
  valid_call set (setter_called set fname ft ps p st) call.
Proof.
  intros Hlaws Hft Hsetter Hp [Hsync (gt & Hgt & Hq)]. split.
  - by apply in_sync_after_call.
  - simpl. destruct (decide (fname = call.1)) as [Heq | Hne].
    + exists (set_ft_lastExec (table_of_params p) ft).
      rewrite Heq, lookup_insert_eq. split; [done |].
      rewrite <- Heq in Hgt. by replace ft with gt by congruence.
    + exists gt. by rewrite lookup_insert_ne.
Qed.

Lemma retail_nil_at_end st :
  mStackPointer (mProvenance st) = length (mUndoRedoStack (mProvenance st)) ->
  retail [] st = st.
Proof.
  destruct st as [[en sp stk lg re dis] fns ns]. simpl. intros ->.
  unfold retail, on_provenance, set_mUndoRedoStack. simpl.
  by rewrite firstn_all, app_nil_r.
Qed.

Lemma undo_times_snoc K (st : LuaScripting NativeState) :
  undo_times (S K) st = (undo_times K ;;; issueUndo) st.
Proof.
  revert st. induction K as [| K IH]; intros st.
  - simpl. unfold bind, ret. by destruct (issueUndo st) as [[[] | e] st1].
  - change (undo_times (S (S K)) st) with ((issueUndo ;;; undo_times (S K)) st).
    change ((undo_times (S K);;; issueUndo) st)
      with (((issueUndo ;;; undo_times K) ;;; issueUndo) st).
    unfold bind.
    destruct (issueUndo st) as [[[] | e] st1]; [| done].
    by rewrite IH.
Qed.

(** Calls of setters followed by undos, with any redo entries [tail]
    behind the calls: the undos lead to the bridge that the calls not
    undone produce, up to the redo entries. *)
Lemma calls_undos_retail calls :
  setter_laws set ->
  forall st0 K tail,
    idle st0 -> cursor_ok st0 ->
    Forall (valid_call set st0) calls ->
    (K <= length calls)%nat ->
    exists stN stP tail',
      exec_all calls st0 = (Ok tt, stN) /\
      exec_all (take (length calls - K) calls) st0 = (Ok tt, stP) /\
      undo_times K (retail tail stN) = (Ok tt, retail tail' stP) /\
      (calls <> [] ->
       mStackPointer (mProvenance stN) = length (mUndoRedoStack (mProvenance stN))).
Proof.
  intros Hlaws. induction calls as [| [f p] calls IH];
    intros st0 K tail Hidle Hcur Hvalid HK.
  - simpl in HK. assert (K = O) as -> by lia.
    exists st0, st0, tail. simpl. unfold ret. repeat split; done.
  - apply Forall_cons in Hvalid as [Hfp Hvalid].
    destruct Hfp as [(ft & ps & Hft & Hsetter & Hle & Hps & Hsync) (ft' & Hft' & Hp)].
    simpl in Hft', Hp, Hft, Hsetter, Hsync.
    assert (ft' = ft) as -> by congruence.
    pose proof (exec_setter st0 f ft ps p Hidle Hft Hsetter Hle Hps Hp) as Hexec.
    set (st1 := setter_called set f ft ps p st0) in *.
    destruct (setter_called_idle st0 f ft ps p Hcur) as (Hidle1 & Hcur1 & Hend1).
    fold st1 in Hidle1, Hcur1, Hend1.
    assert (Hvalid1 : Forall (valid_call set st1) calls).
    { eapply Forall_impl; [exact Hvalid |]. intros call Hcall.
      by apply valid_call_after_call. }
    simpl in HK.
    destruct (decide (K <= length calls)%nat) as [Hle_K | Hgt_K].
    + destruct (IH st1 K tail Hidle1 Hcur1 Hvalid1 Hle_K)
        as (stN & stP & tail' & HN & HP & HU & Hend).
      exists stN, stP, tail'. repeat split.
      * simpl. unfold bind. by rewrite Hexec.
      * replace (length ((f, p) :: calls) - K)%nat
          with (S (length calls - K)) by (simpl; lia).
        simpl. unfold bind. by rewrite Hexec.
      * done.
      * intros _. destruct calls as [| c calls']; [| by apply Hend].
        simpl in HN. unfold ret in HN. by injection HN as <-.
    + assert (K = S (length calls)) as -> by lia.
      destruct (IH st1 (length calls) tail Hidle1 Hcur1 Hvalid1 ltac:(lia))
        as (stN & stP & tail' & HN & HP & HU & Hend).
      rewrite Nat.sub_diag in HP. simpl in HP. unfold ret in HP.
      injection HP as <-.
      exists stN, st0, (mkUndoRedoItem f ps p :: tail'). repeat split.
      * simpl. unfold bind. by rewrite Hexec.
      * replace (length ((f, p) :: calls) - S (length calls))%nat
          with O by (simpl; lia).
        done.
      * rewrite undo_times_snoc. unfold bind. rewrite HU.
        by apply undo_setter_called.
      * intros _. destruct calls as [| c calls']; [| by apply Hend].
        simpl in HN. unfold ret in HN. by injection HN as <-.
Qed.

(** C1 (for setters).  Let the registered functions that are called be
    setters obeying [setter_laws], in sync with the native state when the
    calls start, and let the ledger be idle.  Then [N] calls with valid
    parameters succeed, [K <= N] undos after them succeed, and they leave
    the native state, the cursor and the last-exec tables that the first
    [N - K] calls alone produce. *)
Theorem history_linearity_for_setters st0 calls K :
  setter_laws set ->
  idle st0 -> cursor_ok st0 ->
  Forall (valid_call set st0) calls ->
  (K <= length calls)%nat ->
  exists stN stK stP,
    exec_all calls st0 = (Ok tt, stN) /\
    undo_times K stN = (Ok tt, stK) /\
    exec_all (take (length calls - K) calls) st0 = (Ok tt, stP) /\
    mNative stK = mNative stP /\
    mStackPointer (mProvenance stK) = mStackPointer (mProvenance stP) /\
    mFunctions stK = mFunctions stP.
Proof.
  intros Hlaws Hidle Hcur Hvalid HK.
  destruct (calls_undos_retail calls Hlaws st0 K [] Hidle Hcur Hvalid HK)
    as (stN & stP & tail' & HN & HP & HU & Hend).
  destruct calls as [| c calls'].
  - simpl in HK. assert (K = O) as -> by lia.
    simpl in *. unfold ret in *. injection HN as <-. injection HP as <-.
    exists st0, st0, st0. repeat split; done.
  - rewrite retail_nil_at_end in HU by (by apply Hend).
    exists stN, (retail tail' stP), stP. repeat split; done.
Qed.

(** C6 (for setters).  Take the record just below the cursor, of a
    function that is a setter whose later call overwrites an earlier one,
    in a state whose native state holds what the record's call set.  Then
    [issueUndo] followed by [issueRedo] succeed and restore the native
    state from before the undo; the cursor and the records are as before,
    and in between the native state is the one that the record's undo
    parameters set. *)
Theorem undo_redo_round_trip_for_setters st k item ft :
  (forall p q s, set (function item) p (set (function item) q s)
                 = set (function item) p s) ->
  not_logging st ->
  mStackPointer (mProvenance st) = S k ->
  mUndoRedoStack (mProvenance st) !! k = Some item ->
  mFunctions st !! function item = Some ft ->
  is_setter set (function item) ft ->
  valid_params ft (undoParams item) ->
  valid_params ft (redoParams item) ->
  set (function item) (redoParams item) (mNative st) = mNative st ->
  exists st1 st2,
    issueUndo st = (Ok tt, st1) /\
    issueRedo st1 = (Ok tt, st2) /\
    mNative st1 = set (function item) (undoParams item) (mNative st) /\
    mNative st2 = mNative st /\
    mStackPointer (mProvenance st2) = mStackPointer (mProvenance st) /\
    mUndoRedoStack (mProvenance st2) = mUndoRedoStack (mProvenance st).
Proof.
  intros Hover Hlog Hsp Hitem Hft (Hex & Hnf & c & Hmt & Hc) Hu Hr Hsync.
  destruct item as [f u r]. simpl in *.
  pose proof (valid_params_length _ _ Hu) as Hlenu.
  pose proof (valid_params_length _ _ Hr) as Hlenr.
  pose proof (valid_params_nil_free _ _ Hnf Hu) as Hunf.
  pose proof (valid_params_nil_free _ _ Hnf Hr) as Hrnf.
  eexists _, _. split; [| split].
  - rewrite (issueUndo_run _ _ _ Hsp Hitem). simpl.
    rewrite (performUndoRedoOp_native _ f u ft c (set f u (mNative st)))
      by (done || by apply Hc).
    reflexivity.
  - erewrite (issueRedo_run _ (mkUndoRedoItem f u r)).
    + simpl.
      erewrite (performUndoRedoOp_native _ f r _ c
                  (set f r (set f u (mNative st)))).
      * reflexivity.
      * done.
      * simpl. apply lookup_insert_eq.
      * done.
      * simpl. lia.
      * done.
      * simpl. by apply Hc.
    + simpl. rewrite Hsp. simpl. by rewrite Nat.sub_0_r.
  - simpl. rewrite Hover, Hsync, Hsp. simpl. by rewrite Nat.sub_0_r.
Qed.

End SetterProps.

(* ===================================================================== *)
(** ** Redoing what was undone                                           *)
(* ===================================================================== *)

Section SetterRedo.

Context {NativeState : Type}.
Variable set : string -> Params -> NativeState -> NativeState.
Implicit Types (st : LuaScripting NativeState) (ft : FunctionTable NativeState).

(** Redoing the call of a setter whose record is the first redo entry
    gives the bridge after the call back. *)
Lemma redo_setter_called st fname ft ps p tail :
  idle st -> cursor_ok st ->
  mFunctions st !! fname = Some ft ->
  is_setter set fname ft ->
  ft_lastExec ft = table_of_params ps ->
  valid_params ft ps ->
  valid_params ft p ->
  issueRedo (retail (mkUndoRedoItem fname ps p :: tail) st) =
  (Ok tt, retail tail (setter_called set fname ft ps p st)).
Proof.
  intros [Hlog Hdis] Hcur Hft Hsetter Hle Hps Hp.
  pose proof Hsetter as (Hex & Hnf & c & Hmt & Hc).
  pose proof (valid_params_length _ _ Hp) as Hlen.
  pose proof (valid_params_length _ _ Hps) as Hlens.
  pose proof (valid_params_nil_free _ _ Hnf Hp) as Hpnf.
  destruct st as [[en sp stk lg re dis] fns ns].
  unfold cursor_ok in Hcur. simpl in *. subst lg dis.
  assert (Hstack :
    take (S sp) (Nat.iter (length stk - sp) pop_back stk
                 ++ [mkUndoRedoItem fname ps p]) ++ tail
    = take sp stk ++ mkUndoRedoItem fname ps p :: tail).
  { rewrite pop_back_iter.
    replace (length stk - (length stk - sp))%nat with sp by lia.
    rewrite take_ge by (rewrite length_app, length_take; simpl; lia).
    by rewrite <- app_assoc. }
  rewrite (issueRedo_run _ (mkUndoRedoItem fname ps p)).
  - simpl.
    erewrite (performUndoRedoOp_native _ fname p ft c (set fname p ns)).
    + unfold retail, replayed, on_provenance, setter_called. simpl.
      rewrite Hstack. do 3 f_equal.
      rewrite Hle. f_equal. apply copyParamsToTable_table_of_params. lia.
    + done.
    + done.
    + done.
    + done.
    + done.
    + simpl. by apply Hc.
  - simpl. apply list_lookup_middle. rewrite length_take. lia.
Qed.

(** Calls of setters, undos and as many redos, with any redo entries
    [tail] behind the calls: the redos lead back to the bridge after the
    calls. *)
Lemma calls_undos_redos_retail calls :
  setter_laws set ->
  forall st0 K tail,
    idle st0 -> cursor_ok st0 ->
    Forall (valid_call set st0) calls ->
    (K <= length calls)%nat ->
    exists stN stP tail',
      exec_all calls st0 = (Ok tt, stN) /\
      exec_all (take (length calls - K) calls) st0 = (Ok tt, stP) /\
      undo_times K (retail tail stN) = (Ok tt, retail tail' stP) /\
      redo_times K (retail tail' stP) = (Ok tt, retail tail stN) /\
      (calls <> [] ->
       mStackPointer (mProvenance stN) = length (mUndoRedoStack (mProvenance stN))).
Proof.
  intros Hlaws. induction calls as [| [f p] calls IH];
    intros st0 K tail Hidle Hcur Hvalid HK.
  - simpl in HK. assert (K = O) as -> by lia.
    exists st0, st0, tail. simpl. unfold ret. repeat split; done.
  - apply Forall_cons in Hvalid as [Hfp Hvalid].
    destruct Hfp as [(ft & ps & Hft & Hsetter & Hle & Hps & Hsync) (ft' & Hft' & Hp)].
    simpl in Hft', Hp, Hft, Hsetter, Hsync.
    assert (ft' = ft) as -> by congruence.
    pose proof (exec_setter set st0 f ft ps p Hidle Hft Hsetter Hle Hps Hp) as Hexec.
    set (st1 := setter_called set f ft ps p st0) in *.
    destruct (setter_called_idle set st0 f ft ps p Hcur) as (Hidle1 & Hcur1 & Hend1).
    fold st1 in Hidle1, Hcur1, Hend1.
    assert (Hvalid1 : Forall (valid_call set st1) calls).
    { eapply Forall_impl; [exact Hvalid |]. intros call Hcall.
      by apply valid_call_after_call. }
    simpl in HK.
    destruct (decide (K <= length calls)%nat) as [Hle_K | Hgt_K].
    + destruct (IH st1 K tail Hidle1 Hcur1 Hvalid1 Hle_K)
        as (stN & stP & tail' & HN & HP & HU & HR & Hend).
      exists stN, stP, tail'. split; [| split; [| split; [| split]]].
      * simpl. unfold bind. by rewrite Hexec.
      * replace (length ((f, p) :: calls) - K)%nat
          with (S (length calls - K)) by (simpl; lia).
        simpl. unfold bind. by rewrite Hexec.
      * done.
      * done.
      * intros _. destruct calls as [| c calls']; [| by apply Hend].
        simpl in HN. unfold ret in HN. by injection HN as <-.
    + assert (K = S (length calls)) as -> by lia.
      destruct (IH st1 (length calls) tail Hidle1 Hcur1 Hvalid1 ltac:(lia))
        as (stN & stP & tail' & HN & HP & HU & HR & Hend).
      rewrite Nat.sub_diag in HP. simpl in HP. unfold ret in HP.
      injection HP as <-.
      exists stN, st0, (mkUndoRedoItem f ps p :: tail').
      split; [| split; [| split; [| split]]].
      * simpl. unfold bind. by rewrite Hexec.
      * replace (length ((f, p) :: calls) - S (length calls))%nat
          with O by (simpl; lia).
        done.
      * rewrite undo_times_snoc. unfold bind. rewrite HU.
        by apply undo_setter_called.
      * change (redo_times (S (length calls))
                  (retail (mkUndoRedoItem f ps p :: tail') st0))
          with ((issueRedo ;;; redo_times (length calls))
                  (retail (mkUndoRedoItem f ps p :: tail') st0)).
        unfold bind.
        rewrite (redo_setter_called st0 f ft ps p tail') by done.
        exact HR.
      * intros _. destruct calls as [| c calls']; [| by apply Hend].
        simpl in HN. unfold ret in HN. by injection HN as <-.
Qed.

(** X11.  For setters in sync with the native state: after [N] calls
    with valid parameters, [K <= N] undos followed by [K] redos all
    succeed and give back the whole bridge as it was after the calls --
    native state, records, cursor and last-exec tables. *)
Theorem undos_then_redos_restore_for_setters st0 calls K :
  setter_laws set ->
  idle st0 -> cursor_ok st0 ->
  Forall (valid_call set st0) calls ->
  (K <= length calls)%nat ->
  exists stN stK,
    exec_all calls st0 = (Ok tt, stN) /\
    undo_times K stN = (Ok tt, stK) /\
    redo_times K stK = (Ok tt, stN).
Proof.
  intros Hlaws Hidle Hcur Hvalid HK.
  destruct (calls_undos_redos_retail calls Hlaws st0 K [] Hidle Hcur Hvalid HK)
    as (stN & stP & tail' & HN & HP & HU & HR & Hend).
  destruct calls as [| c calls'].
  - simpl in HK. assert (K = O) as -> by lia.
    simpl in *. unfold ret in *. injection HN as <-.
    exists st0, st0. repeat split; done.
  - rewrite retail_nil_at_end in HU, HR by (by apply Hend).
    exists stN, (retail tail' stP). repeat split; done.
Qed.

End SetterRedo.

Lemma A_set_laws : setter_laws A_set.
Proof.
  split.
  - intros f p q s. unfold A_set.
    destruct (String.eqb f "set_i1"); [reflexivity |].
    destruct (String.eqb f "set_i2"); [reflexivity |].
    destruct (String.eqb f "set_s1"); reflexivity.
  - intros f g p q s Hne. unfold A_set.
    destruct (String.eqb_spec f "set_i1") as [-> | Hf1];
      [| destruct (String.eqb_spec f "set_i2") as [-> | Hf2];
         [| destruct (String.eqb_spec f "set_s1") as [-> | Hf3]]];
      (destruct (String.eqb_spec g "set_i1") as [-> | Hg1];
       [| destruct (String.eqb_spec g "set_i2") as [-> | Hg2];
          [| destruct (String.eqb_spec g "set_s1") as [-> | Hg3]]]);
      first [reflexivity | exfalso; apply Hne; reflexivity].
Qed.

Lemma set_i1_is_setter : is_setter A_set "set_i1" ft_set_i1.
Proof.
  split; [reflexivity |]. split; [reflexivity |].
  exists set_i1. split; [reflexivity |].
  intros p s Hp. inversion Hp as [| a d p' ds Hty Hrest]; subst.
  inversion Hrest; subst. destruct a; try discriminate. reflexivity.
Qed.

Lemma set_i2_is_setter : is_setter A_set "set_i2" ft_set_i2.
Proof.
  split; [reflexivity |]. split; [reflexivity |].
  exists set_i2. split; [reflexivity |].
  intros p s Hp. inversion Hp as [| a d p' ds Hty Hrest]; subst.
  inversion Hrest; subst. destruct a; try discriminate. reflexivity.
Qed.

Lemma bridge_A_set_i1 : mFunctions bridge_A !! "set_i1" = Some ft_set_i1.
Proof. reflexivity. Qed.

Lemma bridge_A_set_i2 : mFunctions bridge_A !! "set_i2" = Some ft_set_i2.
Proof. reflexivity. Qed.

Lemma bridge_A_native : mNative bridge_A = A_new.
Proof. reflexivity. Qed.

Lemma valid_number_params n : valid_params ft_set_i1 [LNumber n].
Proof. repeat constructor. Qed.

Lemma calls_A_valid : Forall (valid_call A_set bridge_A) calls_A.
Proof.
  assert (Hi1 : in_sync A_set bridge_A "set_i1").
  { exists ft_set_i1, [LNumber 0].
    split; [apply bridge_A_set_i1 |]. split; [apply set_i1_is_setter |].
    split; [reflexivity |]. split; [apply valid_number_params |].
    rewrite bridge_A_native. reflexivity. }
  assert (Hi2 : in_sync A_set bridge_A "set_i2").
  { exists ft_set_i2, [LNumber 0].
    split; [apply bridge_A_set_i2 |]. split; [apply set_i2_is_setter |].
    split; [reflexivity |]. split; [apply (valid_number_params 0) |].
    rewrite bridge_A_native. reflexivity. }
  unfold calls_A.
  apply Forall_cons. split.
  { split; [exact Hi1 |]. exists ft_set_i1.
    split; [apply bridge_A_set_i1 | apply valid_number_params]. }
  apply Forall_cons. split.
  { split; [exact Hi1 |]. exists ft_set_i1.
    split; [apply bridge_A_set_i1 | apply valid_number_params]. }
  apply Forall_cons. split.
  { split; [exact Hi2 |]. exists ft_set_i2.
    split; [apply bridge_A_set_i2 | apply (valid_number_params 10)]. }
  apply Forall_nil_2.
Qed.

Lemma bridge_A_idle : idle bridge_A.
Proof. split; reflexivity. Qed.

Lemma bridge_A_cursor_ok : cursor_ok bridge_A.
Proof. exact (Nat.le_refl 0). Qed.

(** The end-to-end scenario of the specification: three calls, two
    undos. *)
Lemma history_linearity_witness :
  exists stN stK stP,
    exec_all calls_A bridge_A = (Ok tt, stN) /\
    undo_times 2 stN = (Ok tt, stK) /\
    exec_all (take (length calls_A - 2) calls_A) bridge_A = (Ok tt, stP) /\
    mNative stK = mNative stP /\
    mStackPointer (mProvenance stK) = mStackPointer (mProvenance stP) /\
    mFunctions stK = mFunctions stP.
Proof.
  apply (history_linearity_for_setters A_set bridge_A calls_A 2 A_set_laws
           bridge_A_idle bridge_A_cursor_ok calls_A_valid).
  simpl. lia.
Defined.

(** The values of that scenario: after [set_i1(1)], [set_i1(2)],
    [set_i2(10)] and two undos, [i1 = 1], [i2 = 0] and the cursor is 1. *)
Example scenario_after_two_undos :
  let st := snd (undo_times 2 bridge_A_after_calls) in
  fst (undo_times 2 bridge_A_after_calls) = Ok tt /\
  i1 (mNative st) = 1 /\ i2 (mNative st) = 0 /\
  mStackPointer (mProvenance st) = 1%nat.
Proof. repeat split; reflexivity. Qed.

(** C1 as stated fails for a function that accumulates, and for a setter
    whose part of the native state did not start at the default: two calls
    of [addShaderPath] and one undo leave three paths, not the one path of
    the first call; and [set_s1("Test String")] undone leaves the static
    [s1] empty, not at its initial ["nop"]. *)
Lemma history_linearity_counterexample :
  (let calls := [("addShaderPath", [LString "a"]); ("addShaderPath", [LString "b"])] in
   let stN := snd (exec_all calls bridge_paths) in
   let stK := snd (undo_times 1 stN) in
   let stP := snd (exec_all (take (length calls - 1) calls) bridge_paths) in
   fst (exec_all calls bridge_paths) = Ok tt /\
   fst (undo_times 1 stN) = Ok tt /\
   fst (exec_all (take (length calls - 1) calls) bridge_paths) = Ok tt /\
   mNative stK = ["a"; "b"; "a"] /\
   mNative stP = ["a"] /\
   mNative stK <> mNative stP)
  /\
  (let calls := [("set_s1", [LString "Test String"])] in
   let stN := snd (exec_all calls bridge_static) in
   let stK := snd (undo_times 1 stN) in
   let stP := snd (exec_all (take (length calls - 1) calls) bridge_static) in
   fst (exec_all calls bridge_static) = Ok tt /\
   fst (undo_times 1 stN) = Ok tt /\
   fst (exec_all (take (length calls - 1) calls) bridge_static) = Ok tt /\
   s1 (mNative stK) = "" /\
   s1 (mNative stP) = "nop" /\
   mNative stK <> mNative stP).
Proof.
  split; cbv zeta.
  - assert (HK : mNative (snd (undo_times 1 (snd (exec_all
                   [("addShaderPath", [LString "a"]); ("addShaderPath", [LString "b"])]
                   bridge_paths)))) = ["a"; "b"; "a"]) by reflexivity.
    assert (HP : mNative (snd (exec_all
                   (take (length [("addShaderPath", [LString "a"]);
                                  ("addShaderPath", [LString "b"])] - 1)
                      [("addShaderPath", [LString "a"]); ("addShaderPath", [LString "b"])])
                   bridge_paths)) = ["a"]) by reflexivity.
    split; [reflexivity |]. split; [reflexivity |]. split; [reflexivity |].
    split; [exact HK |]. split; [exact HP |].
    rewrite HK, HP. discriminate.
  - assert (HK : s1 (mNative (snd (undo_times 1 (snd (exec_all
                   [("set_s1", [LString "Test String"])] bridge_static))))) = "")
      by reflexivity.
    assert (HP : s1 (mNative (snd (exec_all
                   (take (length [("set_s1", [LString "Test String"])] - 1)
                      [("set_s1", [LString "Test String"])])
                   bridge_static))) = "nop") by reflexivity.
    split; [reflexivity |]. split; [reflexivity |]. split; [reflexivity |].
    split; [exact HK |]. split; [exact HP |].
    intros Heq. apply (f_equal s1) in Heq. rewrite HK, HP in Heq. discriminate.
Qed.

(** C6 as stated fails for a function that accumulates: undoing and
    redoing the one call of [addShaderPath] leaves three paths where there
    was one. *)
Lemma undo_redo_round_trip_counterexample :
  let st1 := snd (issueUndo paths_after_call) in
  let st2 := snd (issueRedo st1) in
  mNative paths_after_call = ["a"] /\
  fst (issueUndo paths_after_call) = Ok tt /\
  fst (issueRedo st1) = Ok tt /\
  mNative st2 = ["a"; ""; "a"] /\
  mNative st2 <> mNative paths_after_call.
Proof.
  cbv zeta.
  assert (H0 : mNative paths_after_call = ["a"]) by reflexivity.
  assert (H2 : mNative (snd (issueRedo (snd (issueUndo paths_after_call))))
               = ["a"; ""; "a"]) by reflexivity.
  split; [exact H0 |]. split; [reflexivity |]. split; [reflexivity |].
  split; [exact H2 |]. rewrite H0, H2. discriminate.
Qed.

(** Undo and redo of [set_i2(10)], the last call of the scenario. *)
Lemma undo_redo_round_trip_witness :
  exists st1 st2,
    issueUndo bridge_A_after_calls = (Ok tt, st1) /\
    issueRedo st1 = (Ok tt, st2) /\
    mNative st1 = A_set "set_i2" [LNumber 0] (mNative bridge_A_after_calls) /\
    mNative st2 = mNative bridge_A_after_calls /\
    mStackPointer (mProvenance st2) = mStackPointer (mProvenance bridge_A_after_calls) /\
    mUndoRedoStack (mProvenance st2) = mUndoRedoStack (mProvenance bridge_A_after_calls).
Proof.
  apply (undo_redo_round_trip_for_setters A_set bridge_A_after_calls 2%nat
           item_set_i2 ft_set_i2_called).
  - intros p q s. apply (proj1 A_set_laws).
  - reflexivity.
  - reflexivity.
  - reflexivity.
  - reflexivity.
  - apply is_setter_set_ft_lastExec, set_i2_is_setter.
  - apply (valid_number_params 0).
  - apply (valid_number_params 10).
  - reflexivity.
Defined.

(** Three calls of the loader, two undos and a new call: the two undone
    records are dropped, and redo is refused. *)
Lemma branch_truncation_witness :
  (exists undo st',
      logExecution "loadDataset" false [LString "d.uvf"] [LString ""]
        (snd (undo_times 2 loader_after_calls)) = (Ok tt, st') /\
      mUndoRedoStack (mProvenance st') =
        take (mStackPointer (mProvenance (snd (undo_times 2 loader_after_calls))))
             (mUndoRedoStack (mProvenance (snd (undo_times 2 loader_after_calls))))
        ++ [mkUndoRedoItem "loadDataset" undo [LString "d.uvf"]] /\
      mStackPointer (mProvenance st')
      = S (mStackPointer (mProvenance (snd (undo_times 2 loader_after_calls)))))
  /\ exists what,
      issueRedo (snd (exec "loadDataset" [LString "d.uvf"]
                        (snd (undo_times 2 loader_after_calls))))
      = (Throw (LuaProvenanceInvalidRedo what),
         snd (exec "loadDataset" [LString "d.uvf"]
                (snd (undo_times 2 loader_after_calls)))).
Proof.
  split.
  - apply (proj1 (@branch_truncation string)
             (snd (undo_times 2 loader_after_calls)) "loadDataset"
             (mkFunctionTable "" false [LString ""]
                (table_of_params [LString "a.uvf"])
                (Some (Some (NativeFunction loadDataset))))).
    + split; reflexivity.
    + unfold cursor_ok. vm_compute. lia.
    + vm_compute. reflexivity.
  - apply (proj2 (@branch_truncation string) loader_after_calls 2%nat
             (snd (undo_times 2 loader_after_calls)) "loadDataset"
             (mkFunctionTable "" false [LString ""]
                (table_of_params [LString "a.uvf"])
                (Some (Some (NativeFunction loadDataset))))
             [LString "d.uvf"]).
    + reflexivity.
    + lia.
    + vm_compute. reflexivity.
    + vm_compute. reflexivity.
    + reflexivity.
    + vm_compute. reflexivity.
Defined.

(** The same on the scenario of the specification: after the three
    calls, two undos and [set_i1(42)], redo is refused and [i1 = 42],
    [i2 = 0]. *)
Example scenario_redo_refused :
  let st := snd (exec "set_i1" [LNumber 42]
                   (snd (undo_times 2 bridge_A_after_calls))) in
  fst (issueRedo st)
  = Throw (LuaProvenanceInvalidRedo "Redo pointer at top of stack.") /\
  i1 (mNative st) = 42 /\ i2 (mNative st) = 0 /\
  mStackPointer (mProvenance st) = 2%nat /\
  length (mUndoRedoStack (mProvenance st)) = 2%nat.
Proof. repeat split; reflexivity. Qed.

(** C3 as stated fails: after [registerLuaProvenanceFunctions] on a fresh
    bridge the five names are not all exempt. *)
Lemma not_all_five_exempt :
  ~ Forall (fun name =>
              is_exempt (snd (registerLuaProvenanceFunctions bridge_unit)) name
              = Some true)
           provenance_names.
Proof.
  intros Hall. unfold provenance_names in Hall.
  do 4 (apply Forall_cons in Hall as [_ Hall]).
  apply Forall_cons in Hall as [Hreentry _].
  vm_compute in Hreentry. discriminate Hreentry.
Qed.

Lemma provenance_functions_exemptions_witness :
  exists st',
    registerLuaProvenanceFunctions bridge_unit = (Ok tt, st') /\
    is_exempt st' "provenance.undo" = Some true /\
    is_exempt st' "provenance.redo" = Some true /\
    is_exempt st' "provenance.enable" = Some true /\
    is_exempt st' "provenance.clear" = Some true /\
    is_exempt st' "provenance.enableReentryException" = Some false.
Proof.
  apply (provenance_functions_exemptions bridge_unit).
  unfold provenance_names. repeat (apply Forall_cons; split; [reflexivity |]).
  apply Forall_nil_2.
Defined.

(** Because it is not exempt, a call of
    [provenance.enableReentryException] is recorded in the ledger, while a
    call of [provenance.clear] is not. *)
Example enableReentryException_is_recorded :
  let st := snd (registerLuaProvenanceFunctions bridge_unit) in
  mUndoRedoStack (mProvenance
    (snd (exec "provenance.enableReentryException" [LBoolean false] st)))
  = [mkUndoRedoItem "provenance.enableReentryException"
       [LBoolean false] [LBoolean false]]
  /\ mUndoRedoStack (mProvenance (snd (exec "provenance.clear" [] st))) = [].
Proof. split; reflexivity. Qed.

(** The loader after one call is a state that a script reaches. *)
Lemma loader_after_call_reachable : reachable loader_after_call.
Proof.
  apply (reachable_run bridge_loader (exec "loadDataset" [LString "data.uvf"]));
    [| constructor].
  apply (reachable_run (LuaScripting_new "")
           (registerFunction (NativeFunction loadDataset) [LString ""]
              "loadDataset" "")); constructor.
Qed.

(** C7 at the failing input.  The loader is called once; undoing that
    call replays it on the empty file name, which throws, and
    [performUndoRedoOp] leaves [mUndoRedoProvenanceDisable] set.  The next
    direct call succeeds and loads ["b.uvf"], but [logExecution] returns
    before the last-exec table is rewritten: the table still holds the
    parameters of the first call, and the call is not recorded. *)
Theorem lastExec_stale_after_failed_replay :
  let st1 := snd (issueUndo loader_after_call) in
  let st2 := snd (exec "loadDataset" [LString "b.uvf"] st1) in
  fst (issueUndo loader_after_call) = Throw (NativeException "cannot open file") /\
  mUndoRedoProvenanceDisable (mProvenance st1) = true /\
  fst (exec "loadDataset" [LString "b.uvf"] st1) = Ok tt /\
  mNative st2 = "b.uvf" /\
  lastExec_of st2 "loadDataset" = Some (table_of_params [LString "data.uvf"]) /\
  lastExec_of st2 "loadDataset" <> Some (table_of_params [LString "b.uvf"]) /\
  mUndoRedoStack (mProvenance st2)
  = [mkUndoRedoItem "loadDataset" [LString ""] [LString "data.uvf"]].
Proof.
  cbv zeta.
  assert (Hle : lastExec_of
                  (snd (exec "loadDataset" [LString "b.uvf"]
                          (snd (issueUndo loader_after_call)))) "loadDataset"
                = Some (table_of_params [LString "data.uvf"]))
    by (vm_compute; reflexivity).
  split; [reflexivity |]. split; [reflexivity |]. split; [reflexivity |].
  split; [reflexivity |]. split; [exact Hle |]. split; [| reflexivity].
  rewrite Hle. intros Heq. apply (inj Some) in Heq.
  assert (Hget : rawget (table_of_params [LString "data.uvf"]) (KInt 0)
                 = rawget (table_of_params [LString "b.uvf"]) (KInt 0))
    by (by rewrite Heq).
  vm_compute in Hget. discriminate Hget.
Qed.

(* ===================================================================== *)
(** ** The render areas of the two-by-two view                           *)
(* ===================================================================== *)

Module RendererProps.
Import Renderer.

Lemma GLint_id z : - 2 ^ 31 <= z < 2 ^ 31 -> GLint z = z.
Proof. apply static_cast_int_id. Qed.

Lemma UINT32_id z : 0 <= z < 2 ^ 32 -> UINT32 z = z.
Proof. intros Hz. unfold UINT32. by rewrite Z.mod_small. Qed.

Lemma half_bounds w : 0 <= w < 2 ^ 31 -> 0 <= w / 2 <= w /\ w / 2 < 2 ^ 31.
Proof. intros Hw. Z.div_mod_to_equations. lia. Qed.

(** The viewport of each area, in a window of size [w] by [h]. *)
Lemma SetRenderTargetArea_rect w h a :
  0 <= w < 2 ^ 31 -> 0 <= h < 2 ^ 31 ->
  SetRenderTargetArea (mkUINTVECTOR2 w h) a =
  match a with
  | RA_TOPLEFT => Some (mkRect 0 (h / 2) (w / 2) (h - h / 2))
  | RA_TOPRIGHT => Some (mkRect (w / 2) (h / 2) (w - w / 2) (h - h / 2))
  | RA_LOWERLEFT => Some (mkRect 0 0 (w / 2) (h / 2))
  | RA_LOWERRIGHT => Some (mkRect (w / 2) 0 (w - w / 2) (h / 2))
  | RA_FULLSCREEN => Some (mkRect 0 0 w h)
  | RA_INVALID => None
  end.
Proof.
  intros Hw Hh.
  destruct (half_bounds w Hw) as [Hw2 Hw2'].
  destruct (half_bounds h Hh) as [Hh2 Hh2'].
  destruct a; simpl; unfold SetViewPort, sub, div; simpl;
    rewrite ?Z.sub_0_r;
    rewrite ?(UINT32_id (w / 2)), ?(UINT32_id (h / 2)) by lia;
    rewrite ?(UINT32_id (w - w / 2)), ?(UINT32_id (h - h / 2)),
      ?(UINT32_id w), ?(UINT32_id h) by lia;
    rewrite ?(GLint_id (w / 2)), ?(GLint_id (h / 2)),
      ?(GLint_id (w - w / 2)), ?(GLint_id (h - h / 2)),
      ?(GLint_id w), ?(GLint_id h), ?(GLint_id 0) by lia;
    reflexivity.
Qed.

(** The scissor setting of each area. *)
Lemma SetRenderTargetAreaScissor_box w h a :
  0 <= w < 2 ^ 31 -> 0 <= h < 2 ^ 31 ->
  SetRenderTargetAreaScissor (mkUINTVECTOR2 w h) a =
  match a with
  | RA_TOPLEFT => ScissorBox (mkRect 0 (h / 2) (w / 2) h)
  | RA_TOPRIGHT => ScissorBox (mkRect (w / 2) (h / 2) w h)
  | RA_LOWERLEFT => ScissorBox (mkRect 0 0 (w / 2) (h / 2))
  | RA_LOWERRIGHT => ScissorBox (mkRect (w / 2) 0 w (h / 2))
  | RA_FULLSCREEN => ScissorDisabled
  | RA_INVALID => ScissorUntouched
  end.
Proof.
  intros Hw Hh.
  destruct (half_bounds w Hw) as [Hw2 Hw2'].
  destruct (half_bounds h Hh) as [Hh2 Hh2'].
  destruct a; simpl;
    rewrite ?(UINT32_id (w / 2)), ?(UINT32_id (h / 2)) by lia;
    rewrite ?(GLint_id (w / 2)), ?(GLint_id (h / 2)),
      ?(GLint_id w), ?(GLint_id h), ?(GLint_id 0) by lia;
    reflexivity.
Qed.

(** X17.  In a window whose size fits the GL parameters, the viewports
    that [SetRenderTargetArea] sets for the four quadrants tile the
    window: every pixel of the window lies in the viewport of exactly one
    quadrant, and every viewport lies within the window.  The viewport of
    [RA_FULLSCREEN] is the whole window, and an area outside the
    enumeration sets no viewport. *)
Theorem quadrant_viewports_tile_window m_vWinSize :
  window_size m_vWinSize ->
  (forall px py,
      0 <= px < x m_vWinSize -> 0 <= py < y m_vWinSize ->
      exists a r,
        a ∈ quadrants /\
        SetRenderTargetArea m_vWinSize a = Some r /\ inside r px py /\
        forall b s,
          b ∈ quadrants -> SetRenderTargetArea m_vWinSize b = Some s ->
          inside s px py -> b = a)
  /\ (forall a r px py,
         SetRenderTargetArea m_vWinSize a = Some r -> inside r px py ->
         0 <= px < x m_vWinSize /\ 0 <= py < y m_vWinSize)
  /\ SetRenderTargetArea m_vWinSize RA_FULLSCREEN
     = Some (mkRect 0 0 (x m_vWinSize) (y m_vWinSize))
  /\ SetRenderTargetArea m_vWinSize RA_INVALID = None.
Proof.
  destruct m_vWinSize as [w h]. intros [Hw Hh]. cbn [x y] in *.
  destruct (half_bounds w Hw) as [Hw2 Hw2'].
  destruct (half_bounds h Hh) as [Hh2 Hh2'].
  split; [| split; [| split]].
  - intros px py Hpx Hpy.
    assert (Hother : forall a b r s,
               SetRenderTargetArea (mkUINTVECTOR2 w h) a = Some r ->
               inside r px py ->
               b ∈ quadrants ->
               SetRenderTargetArea (mkUINTVECTOR2 w h) b = Some s ->
               inside s px py -> a ∈ quadrants -> b = a).
    { intros a b r s Ha Hr Hb Hs Hin Haq.
      rewrite SetRenderTargetArea_rect in Ha, Hs by done.
      unfold quadrants in Hb, Haq.
      repeat (apply elem_of_cons in Hb as [-> | Hb]);
        try (by apply elem_of_nil in Hb);
        repeat (apply elem_of_cons in Haq as [-> | Haq]);
        try (by apply elem_of_nil in Haq);
        injection Ha as <-; injection Hs as <-;
        unfold inside in Hr, Hin; simpl in Hr, Hin;
        first [reflexivity | lia]. }
    destruct (decide (px < w / 2)) as [Hleft | Hright];
      destruct (decide (py < h / 2)) as [Hlow | Hhigh].
    + exists RA_LOWERLEFT, (mkRect 0 0 (w / 2) (h / 2)).
      assert (Hin : inside (mkRect 0 0 (w / 2) (h / 2)) px py)
        by (unfold inside; simpl; lia).
      assert (Hq : RA_LOWERLEFT ∈ quadrants) by (unfold quadrants; rewrite !elem_of_cons; auto).
      pose proof (SetRenderTargetArea_rect w h RA_LOWERLEFT Hw Hh) as Hr.
      split; [done |]. split; [done |]. split; [done |].
      intros b s Hb Hs Hbin. by apply (Hother RA_LOWERLEFT b _ s Hr Hin).
    + exists RA_TOPLEFT, (mkRect 0 (h / 2) (w / 2) (h - h / 2)).
      assert (Hin : inside (mkRect 0 (h / 2) (w / 2) (h - h / 2)) px py)
        by (unfold inside; simpl; lia).
      assert (Hq : RA_TOPLEFT ∈ quadrants) by (unfold quadrants; rewrite !elem_of_cons; auto).
      pose proof (SetRenderTargetArea_rect w h RA_TOPLEFT Hw Hh) as Hr.
      split; [done |]. split; [done |]. split; [done |].
      intros b s Hb Hs Hbin. by apply (Hother RA_TOPLEFT b _ s Hr Hin).
    + exists RA_LOWERRIGHT, (mkRect (w / 2) 0 (w - w / 2) (h / 2)).
      assert (Hin : inside (mkRect (w / 2) 0 (w - w / 2) (h / 2)) px py)
        by (unfold inside; simpl; lia).
      assert (Hq : RA_LOWERRIGHT ∈ quadrants) by (unfold quadrants; rewrite !elem_of_cons; auto).
      pose proof (SetRenderTargetArea_rect w h RA_LOWERRIGHT Hw Hh) as Hr.
      split; [done |]. split; [done |]. split; [done |].
      intros b s Hb Hs Hbin. by apply (Hother RA_LOWERRIGHT b _ s Hr Hin).
    + exists RA_TOPRIGHT, (mkRect (w / 2) (h / 2) (w - w / 2) (h - h / 2)).
      assert (Hin : inside (mkRect (w / 2) (h / 2) (w - w / 2) (h - h / 2)) px py)
        by (unfold inside; simpl; lia).
      assert (Hq : RA_TOPRIGHT ∈ quadrants) by (unfold quadrants; rewrite !elem_of_cons; auto).
      pose proof (SetRenderTargetArea_rect w h RA_TOPRIGHT Hw Hh) as Hr.
      split; [done |]. split; [done |]. split; [done |].
      intros b s Hb Hs Hbin. by apply (Hother RA_TOPRIGHT b _ s Hr Hin).
  - intros a r px py Ha Hin.
    rewrite SetRenderTargetArea_rect in Ha by done.
    destruct a; try done; injection Ha as <-;
      unfold inside in Hin; simpl in Hin; lia.
  - by rewrite SetRenderTargetArea_rect.
  - done.
Qed.

(** X18.  For each of the four quadrants the scissor box that
    [SetRenderTargetAreaScissor] sets contains the viewport that
    [SetRenderTargetArea] sets for the same area, and within the window
    the two hold the same pixels (the boxes of the upper and the right
    quadrants are given the window's width and height and reach beyond
    the window).  [RA_FULLSCREEN] switches the scissor test off, and an
    area outside the enumeration leaves the scissor state alone. *)
Theorem scissor_box_clipped_is_viewport m_vWinSize :
  window_size m_vWinSize ->
  (forall a,
      a ∈ quadrants ->
      exists r box,
        SetRenderTargetArea m_vWinSize a = Some r /\
        SetRenderTargetAreaScissor m_vWinSize a = ScissorBox box /\
        (forall px py, inside r px py -> inside box px py) /\
        (forall px py,
            0 <= px < x m_vWinSize -> 0 <= py < y m_vWinSize ->
            inside box px py -> inside r px py))
  /\ SetRenderTargetAreaScissor m_vWinSize RA_FULLSCREEN = ScissorDisabled
  /\ SetRenderTargetAreaScissor m_vWinSize RA_INVALID = ScissorUntouched.
Proof.
  destruct m_vWinSize as [w h]. intros [Hw Hh]. cbn [x y] in *.
  destruct (half_bounds w Hw) as [Hw2 Hw2'].
  destruct (half_bounds h Hh) as [Hh2 Hh2'].
  split; [| done].
  intros a Ha.
  rewrite SetRenderTargetArea_rect, SetRenderTargetAreaScissor_box by done.
  unfold quadrants in Ha.
  repeat (apply elem_of_cons in Ha as [-> | Ha]);
    try (by apply elem_of_nil in Ha);
    (eexists _, _; split; [reflexivity |]; split; [reflexivity |];
     split; intros px py; unfold inside; simpl; lia).
Qed.

End RendererProps.

(* ===================================================================== *)
(** ** Properties of the server set-up                                   *)
(* ===================================================================== *)

Module TvkServerProps.
Import TvkServer.

Lemma pretty_N_go_length (k : nat) :
  forall x s,
    (10 ^ N.of_nat k <= x < 10 ^ N.of_nat (S k))%N ->
    String.length (pretty_N_go x s) = (String.length s + S k)%nat.
Proof.
  induction k as [| k IH]; intros x s Hx.
  - change (10 ^ N.of_nat 0)%N with 1%N in Hx.
    change (10 ^ N.of_nat 1)%N with 10%N in Hx.
    rewrite pretty_N_go_step by lia.
    replace (x `div` 10)%N with 0%N
      by (symmetry; apply N.div_small; lia).
    rewrite pretty_N_go_0. simpl. lia.
  - rewrite pretty_N_go_step.
    + rewrite IH.
      * simpl. lia.
      * rewrite !Nat2N.inj_succ, !N.pow_succ_r' in Hx.
        rewrite Nat2N.inj_succ, N.pow_succ_r'.
        split.
        -- apply N.div_le_lower_bound; lia.
        -- apply N.Div0.div_lt_upper_bound. lia.
    + assert (0 < 10 ^ N.of_nat (S k))%N; [| lia].
      apply N.neq_0_lt_0, N.pow_nonzero. lia.
Qed.

(** The number of characters that [snprintf] reports for a port. *)
Lemma snprintf_hu_written port :
  0 <= port < 65536 ->
  snd (snprintf_hu port) =
  if decide (port < 10) then 1%nat
  else if decide (port < 100) then 2%nat
  else if decide (port < 1000) then 3%nat
  else if decide (port < 10000) then 4%nat
  else 5%nat.
Proof.
  intros Hport. unfold snprintf_hu. simpl.
  destruct port as [| p | p]; [done | | lia].
  unfold pretty, pretty_Z, pretty, pretty_positive, pretty, pretty_N.
  rewrite decide_False by done.
  assert (Hlen : forall k : nat,
             (10 ^ N.of_nat k <= N.pos p < 10 ^ N.of_nat (S k))%N ->
             String.length (pretty_N_go (N.pos p) "") = S k).
  { intros k Hk. by rewrite (pretty_N_go_length k). }
  repeat case_decide.
  - apply (Hlen 0%nat). simpl. lia.
  - apply (Hlen 1%nat). simpl. lia.
  - apply (Hlen 2%nat). simpl. lia.
  - apply (Hlen 3%nat). simpl. lia.
  - apply (Hlen 4%nat). simpl. lia.
Qed.

(** X19.  The constructor accepts a port only when its decimal
    representation has exactly four characters: for every other port it
    prints "Server setup: port conversion to string failed" and exits
    with [EXIT_FAILURE] before it has called [getaddrinfo] or opened a
    socket; for a port between 1000 and 9999 it goes on to call
    [getaddrinfo] with the port in decimal. *)
Theorem TvkServer_port_has_four_digits port gai_ret result listen_ret listen_s :
  0 <= port < 65536 ->
  (~ 1000 <= port <= 9999 ->
   TvkServer_new port gai_ret result listen_ret listen_s
   = (Exited EXIT_FAILURE,
      [fprintf_stderr ("Server setup: port conversion to string failed" +:+ LF);
       call_exit EXIT_FAILURE]))
  /\ (1000 <= port <= 9999 ->
      exists events,
        snd (TvkServer_new port gai_ret result listen_ret listen_s)
        = call_getaddrinfo (pretty port) :: events).
Proof.
  intros Hport.
  pose proof (snprintf_hu_written port Hport) as Hw.
  unfold TvkServer_new.
  destruct (snprintf_hu port) as [portc written] eqn:Hs.
  assert (portc = pretty port) as -> by (unfold snprintf_hu in Hs; congruence).
  simpl in Hw. split.
  - intros Hout. rewrite decide_True; [done |].
    rewrite Hw. repeat case_decide; lia.
  - intros Hin. rewrite decide_False by (rewrite Hw; repeat case_decide; lia).
    destruct (decide (gai_ret <> 0)); [simpl; eauto |].
    destruct (bind_loop result listen_s) as [[[a |] s] events]; [| simpl; eauto].
    destruct (decide (listen_ret < 0)); simpl; eauto.
Qed.

Lemma opened_cons e events :
  opened (e :: events) =
  match e with
  | call_socket _ fd => if decide (fd = -1) then opened events else fd :: opened events
  | _ => opened events
  end.
Proof.
  unfold opened. destruct e; try reflexivity.
  simpl. by destruct (decide (fd = -1)).
Qed.

Lemma closed_cons e events :
  closed (e :: events) =
  match e with
  | call_close fd => fd :: closed events
  | _ => closed events
  end.
Proof. unfold closed. by destruct e. Qed.

Lemma bind_loop_spec result :
  forall listen_s0,
    let '(r, listen_s, events) := bind_loop result listen_s0 in
    opened events
    = closed events ++ (if r is Some _ then [listen_s] else [])
    /\ match r with
       | None => Forall unusable result
       | Some a =>
           exists before after,
             result = before ++ a :: after /\
             Forall unusable before /\
             socket_ret a <> -1 /\ bind_ret a = 0 /\ listen_s = socket_ret a
       end.
Proof.
  induction result as [| a result IH]; intros listen_s0; simpl.
  - split; [done | constructor].
  - destruct (decide (socket_ret a = -1)) as [Hs | Hs].
    + specialize (IH (socket_ret a)).
      destruct (bind_loop result (socket_ret a)) as [[r s] events].
      destruct IH as [Hfd Hr]. split.
      * rewrite opened_cons, closed_cons. by rewrite decide_True by done.
      * destruct r as [b |].
        -- destruct Hr as (before & after & -> & Hbefore & Hb).
           exists (a :: before), after. split; [done |]. split; [| done].
           constructor; [by left | done].
        -- constructor; [by left | done].
    + destruct (decide (bind_ret a = 0)) as [Hb | Hb].
      * split.
        -- rewrite !opened_cons, !closed_cons. by rewrite decide_False by done.
        -- exists [], result. repeat split; done.
      * specialize (IH (socket_ret a)).
        destruct (bind_loop result (socket_ret a)) as [[r s] events].
        destruct IH as [Hfd Hr]. split.
        -- rewrite !opened_cons, !closed_cons. rewrite decide_False by done.
           simpl. by rewrite Hfd.
        -- destruct r as [b |].
           ++ destruct Hr as (before & after & -> & Hbefore & Hb').
              exists (a :: before), after. split; [done |]. split; [| done].
              constructor; [by right | done].
           ++ constructor; [by right | done].
Qed.

(** X20.  The loop over the addresses binds the first address that can
    be used and closes every socket it opened for an address before it:
    when the constructor ends, each descriptor that [socket] handed out
    has been given to [close], in the same order, except the descriptor
    of the bound address, which is the one the server listens on; and
    when no address can be used, all of them have been closed and the
    constructor exits with "Could not bind". *)
Theorem TvkServer_closes_unbound_sockets
    port gai_ret result listen_ret listen_s0 outcome events :
  TvkServer_new port gai_ret result listen_ret listen_s0 = (outcome, events) ->
  (forall listen_s,
      outcome = Listening listen_s ->
      opened events = closed events ++ [listen_s] /\
      exists before a after,
        result = before ++ a :: after /\
        Forall unusable before /\
        socket_ret a = listen_s /\ listen_s <> -1 /\ bind_ret a = 0 /\
        gai_ret = 0 /\ 0 <= listen_ret)
  /\ (snd (snprintf_hu port) = 4%nat -> gai_ret = 0 ->
      Forall unusable result ->
      outcome = Exited EXIT_FAILURE /\
      opened events = closed events /\
      last events = Some (call_exit EXIT_FAILURE) /\
      fprintf_stderr ("Could not bind" +:+ LF) ∈ events).
Proof.
  unfold TvkServer_new.
  destruct (snprintf_hu port) as [portc written] eqn:Hs. simpl.
  destruct (decide (written <> 4%nat)) as [Hw | Hw].
  { intros [= <- <-]. split; [done |]. intros Hw'. done. }
  destruct (decide (gai_ret <> 0)) as [Hg | Hg].
  { intros [= <- <-]. split; [done |]. intros _ Hg'. done. }
  pose proof (bind_loop_spec result listen_s0) as Hloop.
  destruct (bind_loop result listen_s0) as [[r s] evs].
  destruct Hloop as [Hfd Hr].
  assert (Hopened : forall tail,
             opened tail = [] ->
             opened (call_getaddrinfo portc :: evs ++ tail) = opened evs).
  { intros tail Htail. unfold opened in *. simpl.
    by rewrite omap_app, Htail, app_nil_r. }
  assert (Hclosed : forall tail,
             closed tail = [] ->
             closed (call_getaddrinfo portc :: evs ++ tail) = closed evs).
  { intros tail Htail. unfold closed in *. simpl.
    by rewrite omap_app, Htail, app_nil_r. }
  destruct r as [a |].
  - destruct Hr as (before & after & -> & Hbefore & Hsock & Hbind & ->).
    assert (Husable : ~ Forall unusable (before ++ a :: after)).
    { intros Hall. apply Forall_app in Hall as [_ Hall].
      apply Forall_cons in Hall as [Ha _]. destruct Ha as [Ha | Ha]; done. }
    destruct (decide (listen_ret < 0)) as [Hl | Hl]; intros [= <- <-].
    + split; [done |]. intros _ _ Hall. by destruct Husable.
    + split.
      * intros listen_s [= <-].
        rewrite Hopened, Hclosed by done. split; [done |].
        exists before, a, after. repeat split; try done; lia.
      * intros _ _ Hall. by destruct Husable.
  - intros [= <- <-]. split; [done |]. intros _ _ _.
    rewrite Hopened, Hclosed by done. rewrite app_nil_r in Hfd.
    split; [done |]. split; [done |]. split.
    + replace (call_getaddrinfo portc
               :: evs ++ [fprintf_stderr ("Could not bind" +:+ LF);
                          call_exit EXIT_FAILURE])
        with ((call_getaddrinfo portc
               :: evs ++ [fprintf_stderr ("Could not bind" +:+ LF)])
              ++ [call_exit EXIT_FAILURE])
        by (simpl; by rewrite <- app_assoc).
      apply last_snoc.
    + rewrite elem_of_cons, elem_of_app, !elem_of_cons. right. right. by left.
Qed.

End TvkServerProps.

(* ===================================================================== *)
(** ** Properties of the shader search                                   *)
(* ===================================================================== *)

Module ShaderLoadingProps.
Import ShaderLoading.

Section LoadAndVerifyShaderProps.

Variable GLSLProgram : Type.
Variable FileExists : string -> bool.
Variable GetSubDirList : list string.
Variable GetFilename : string -> string.
Variable GetFromResourceOnMac : option (string -> string).
Variable GetGLSLProgram : string -> string -> option GLSLProgram.
Variable IsValid : GLSLProgram -> bool.

Local Abbreviation LoadAndVerifyShader :=
  (LoadAndVerifyShader GLSLProgram FileExists GetSubDirList GetFilename
     GetFromResourceOnMac GetGLSLProgram IsValid).
Local Abbreviation LoadAndVerifyShader_in :=
  (LoadAndVerifyShader_in GLSLProgram FileExists GetSubDirList GetFilename
     GetFromResourceOnMac GetGLSLProgram IsValid).
Local Abbreviation resource_file := (resource_file FileExists GetFromResourceOnMac).
Local Abbreviation loads_from :=
  (loads_from GLSLProgram FileExists GetFromResourceOnMac GetGLSLProgram IsValid).

(** Whenever the function answers [true] it has set the program, the
    program is valid, it was built from two files that exist, and
    nothing was released. *)
Lemma LoadAndVerifyShader_true vs fs p0 b p events :
  LoadAndVerifyShader vs fs p0 b = (true, p, events) ->
  exists prog avs afs,
    p = Some prog /\ IsValid prog = true /\
    FileExists avs = true /\ FileExists afs = true /\
    GetGLSLProgram avs afs = Some prog /\
    forall q, FreeGLSLProgram GLSLProgram q ∉ events.
Proof using Type.
  unfold ShaderLoading.LoadAndVerifyShader. intros Hrun.
  repeat case_match; simplify_eq.
  all: match goal with
       | H : _ && _ = true |- _ => apply andb_true_iff in H as [Hvs Hfs]
       end.
  all: match goal with
       | H : negb (IsValid ?prog) = false,
         G : GetGLSLProgram ?avs ?afs = Some ?prog |- _ =>
           apply negb_false_iff in H; exists prog, avs, afs
       end.
  all: repeat split; try done.
  all: intros q Hq.
  all: rewrite ?elem_of_app, ?elem_of_cons, ?elem_of_nil in Hq.
  all: by repeat destruct Hq as [Hq | Hq].
Qed.

Lemma LoadAndVerifyShader_loads dir vs fs p0 p :
  loads_from dir vs fs p ->
  LoadAndVerifyShader (dir +:+ "/" +:+ vs) (dir +:+ "/" +:+ fs) p0 false
  = (true, Some p, []).
Proof using Type.
  intros (Hv & Hf & Hg & Hval). unfold ShaderLoading.LoadAndVerifyShader.
  rewrite !andb_false_r. rewrite Hv, Hf. simpl. rewrite Hg. simpl.
  by rewrite Hval.
Qed.

Lemma LoadAndVerifyShader_missing dir vs fs p0 :
  FileExists (resource_file (dir +:+ "/" +:+ vs)) = false \/
  FileExists (resource_file (dir +:+ "/" +:+ fs)) = false ->
  LoadAndVerifyShader (dir +:+ "/" +:+ vs) (dir +:+ "/" +:+ fs) p0 false
  = (false, None, []).
Proof using Type.
  intros Hmiss. unfold ShaderLoading.LoadAndVerifyShader.
  rewrite !andb_false_r.
  destruct Hmiss as [-> | ->]; [done | by rewrite andb_false_r].
Qed.

(** X21.  [LoadAndVerifyShader] answers [true] only with a program in
    hand: the program it has stored is valid and was built from a vertex
    and a fragment shader file that both exist, and nothing was
    released.  This holds for a single location and for the search
    through a list of directories. *)
Theorem LoadAndVerifyShader_true_means_loaded :
  (forall vs fs p0 b p events,
      LoadAndVerifyShader vs fs p0 b = (true, p, events) ->
      exists prog avs afs,
        p = Some prog /\ IsValid prog = true /\
        FileExists avs = true /\ FileExists afs = true /\
        GetGLSLProgram avs afs = Some prog /\
        forall q, FreeGLSLProgram GLSLProgram q ∉ events)
  /\ (forall dirs vs fs p0 p events,
         LoadAndVerifyShader_in dirs vs fs p0 = (true, p, events) ->
         exists prog avs afs,
           p = Some prog /\ IsValid prog = true /\
           FileExists avs = true /\ FileExists afs = true /\
           GetGLSLProgram avs afs = Some prog).
Proof using Type.
  split; [apply LoadAndVerifyShader_true |].
  induction dirs as [| dir dirs IH]; intros vs fs p0 p events; simpl.
  - intros Hrun. apply LoadAndVerifyShader_true in Hrun
      as (prog & avs & afs & Hp & Hval & Hv & Hf & Hg & _).
    by exists prog, avs, afs.
  - destruct (LoadAndVerifyShader (dir +:+ "/" +:+ vs) (dir +:+ "/" +:+ fs) p0 false)
      as [[loaded p1] ev1] eqn:Hrun.
    destruct loaded.
    + intros [= <- <-]. apply LoadAndVerifyShader_true in Hrun
        as (prog & avs & afs & Hp & Hval & Hv & Hf & Hg & _).
      by exists prog, avs, afs.
    + destruct (LoadAndVerifyShader_in dirs vs fs p1) as [[loaded' p2] ev2] eqn:Hrest.
      intros [= -> <- <-]. by apply (IH vs fs p1 p2 ev2).
Qed.

(** X22.  The directories are tried in the order given, and the first
    one from which the pair loads wins: when the pair loads from [dir]
    and, in each directory listed before it, one of the two files is
    missing, the search answers [true] with the program of [dir], reports
    nothing, and never looks at the directories listed after it. *)
Theorem LoadAndVerifyShader_first_directory_wins
    before dir after vs fs p0 p :
  Forall (fun d =>
            FileExists (resource_file (d +:+ "/" +:+ vs)) = false \/
            FileExists (resource_file (d +:+ "/" +:+ fs)) = false) before ->
  loads_from dir vs fs p ->
  LoadAndVerifyShader_in (before ++ dir :: after) vs fs p0 = (true, Some p, []).
Proof using Type.
  intros Hbefore Hdir. revert p0.
  induction Hbefore as [| d before Hd _ IH]; intros p0; simpl.
  - by rewrite (LoadAndVerifyShader_loads dir vs fs p0 p Hdir).
  - rewrite (LoadAndVerifyShader_missing d vs fs p0 Hd). by rewrite IH.
Qed.

End LoadAndVerifyShaderProps.

End ShaderLoadingProps.

(* ===================================================================== *)
(** ** The further properties on the fixtures                            *)
(* ===================================================================== *)





(** The first call of the loader after its registration: its undo
    parameters are the defaults. *)
Lemma exec_records_previous_params_witness :
  last (mUndoRedoStack (mProvenance loader_after_call))
  = Some (mkUndoRedoItem "loadDataset" [LString ""] [LString "data.uvf"]) /\
  mStackPointer (mProvenance loader_after_call)
  = length (mUndoRedoStack (mProvenance loader_after_call)) /\
  lastExec_of loader_after_call "loadDataset"
  = Some (table_of_params [LString "data.uvf"]).
Proof.
  apply (exec_records_previous_params bridge_loader "loadDataset"
           (mkFunctionTable "" false [LString ""] (table_of_params [LString ""])
              (Some (Some (NativeFunction loadDataset))))
           loadDataset [LString ""] [LString "data.uvf"]).
  - split; reflexivity.
  - unfold cursor_ok. vm_compute. lia.
  - vm_compute. reflexivity.
  - reflexivity.
  - reflexivity.
  - reflexivity.
  - reflexivity.
  - reflexivity.
  - vm_compute. reflexivity.
Defined.

(** A call of the loader registered as exempt. *)
Lemma exempt_call_leaves_ledger_witness :
  mProvenance (snd (exec "loadDataset" [LString "a.uvf"] bridge_loader_exempt))
  = mProvenance bridge_loader_exempt /\
  mFunctions (snd (exec "loadDataset" [LString "a.uvf"] bridge_loader_exempt))
  = mFunctions bridge_loader_exempt /\
  loadDataset [LString "a.uvf"] (mNative bridge_loader_exempt)
  = Ok (mNative (snd (exec "loadDataset" [LString "a.uvf"] bridge_loader_exempt))).
Proof.
  apply (exempt_call_leaves_ledger bridge_loader_exempt "loadDataset"
           (mkFunctionTable "" true [LString ""] (table_of_params [LString ""])
              (Some (Some (NativeFunction loadDataset))))
           loadDataset [LString "a.uvf"]).
  - reflexivity.
  - vm_compute. reflexivity.
  - reflexivity.
  - reflexivity.
  - vm_compute. reflexivity.
Defined.

Lemma setEnabled_clears_history_witness :
  (exists st',
      setEnabled false loader_after_calls = (Ok tt, st') /\
      mEnabled (mProvenance st') = false /\
      mUndoRedoStack (mProvenance st') = [] /\
      mStackPointer (mProvenance st') = O /\
      (exists what, issueUndo st' = (Throw (LuaProvenanceInvalidUndo what), st')) /\
      (exists what, issueRedo st' = (Throw (LuaProvenanceInvalidRedo what), st')) /\
      exists st'',
        setEnabled true st' = (Ok tt, st'') /\
        mUndoRedoStack (mProvenance st'') = [] /\
        mStackPointer (mProvenance st'') = O)
  /\ exists st',
      setEnabled true loader_after_calls = (Ok tt, st') /\
      mEnabled (mProvenance st') = true /\
      mUndoRedoStack (mProvenance st') = mUndoRedoStack (mProvenance loader_after_calls) /\
      mStackPointer (mProvenance st') = mStackPointer (mProvenance loader_after_calls).
Proof.
  destruct (@setEnabled_clears_history string) as [Hoff Hon].
  split.
  - apply Hoff. reflexivity.
  - apply Hon. by left.
Defined.

Lemma replay_of_unregistered_function_witness :
  issueUndo (ledger_orphan 1)
  = (Throw (LuaProvenanceInvalidUndo "Function table does not exist."),
     ledger_orphan 1)
  /\ issueRedo (ledger_orphan 0)
     = (Throw (LuaProvenanceInvalidRedo "Function table does not exist."),
        ledger_orphan 0).
Proof.
  destruct (@replay_of_unregistered_function unit) as [Hundo Hredo].
  split.
  - apply (Hundo (ledger_orphan 1) O (mkUndoRedoItem "gone" [] [])); reflexivity.
  - apply (Hredo (ledger_orphan 0) (mkUndoRedoItem "gone" [] [])); reflexivity.
Defined.

(** Three loads and three undos, the last of which throws and leaves
    logging suppressed; the redo that follows succeeds and lifts the
    suppression. *)
Lemma successful_replay_reenables_logging_witness :
  mUndoRedoProvenanceDisable
    (mProvenance (snd (undo_times 3 loader_after_calls))) = true /\
  idle (snd (issueRedo (snd (undo_times 3 loader_after_calls)))).
Proof.
  split; [vm_compute; reflexivity |].
  apply (successful_replay_reenables_logging
           (snd (undo_times 3 loader_after_calls))).
  - vm_compute. reflexivity.
  - right. vm_compute. reflexivity.
Defined.

(** The three calls of the scenario, two undos and two redos. *)
Lemma undos_then_redos_restore_witness :
  exists stN stK,
    exec_all calls_A bridge_A = (Ok tt, stN) /\
    undo_times 2 stN = (Ok tt, stK) /\
    redo_times 2 stK = (Ok tt, stN).
Proof.
  apply (undos_then_redos_restore_for_setters A_set bridge_A calls_A 2 A_set_laws
           bridge_A_idle bridge_A_cursor_ok calls_A_valid).
  unfold calls_A. simpl. lia.
Defined.

(** The sequence 1, 2, 3 of [int]s pushed on an empty stack and read
    back. *)
Lemma vector_push_get_round_trip_witness :
  push (T := list Z) [1; 2; 3] (mkState [] ∅)
  = (Ok tt,
     push_value (LTable (sequence_fields 1 (LNumber <$> [1; 2; 3]) ∅) None)
       (mkState [] ∅))
  /\ (push (T := list Z) [1; 2; 3] ;;;
      let* t := lua_gettop in get (T := list Z) t) (mkState [] ∅)
     = (Ok [1; 2; 3],
        push_value (LTable (sequence_fields 1 (LNumber <$> [1; 2; 3]) ∅) None)
          (mkState [] ∅)).
Proof.
  apply (vector_push_get_round_trip int_from_value LNumber (mkState [] ∅)
           [1; 2; 3] int_lawful_get int_lawful_push).
  repeat constructor; discriminate.
Defined.

(** A number where a table is expected, and a table of booleans whose
    second element is a number. *)
Lemma vector_get_rejects_witness :
  (exists what,
      get (T := list bool) 1 (mkState [LNumber 1] ∅)
      = (Throw (LuaRuntimeError what), mkState [LNumber 1] ∅))
  /\ fst (get (T := list bool) 1 L_mixed)
     = Throw (LuaRuntimeError "bad argument: unexpected type").
Proof.
  destruct (@vector_get_rejects bool _ bool_from_value) as [Htype Helem].
  split.
  - apply Htype. intros f m Heq. vm_compute in Heq. discriminate Heq.
  - apply (Helem bool_lawful_get bool_rejecting_get L_mixed 1
             (<[KInt 2 := LNumber 7]> (<[KInt 1 := LBoolean true]> ∅)) None
             [true]).
    + lia.
    + reflexivity.
    + intros [| i] x Hx; simpl in Hx; [| done]. injection Hx as <-.
      split; [vm_compute; discriminate | reflexivity].
    + vm_compute. discriminate.
    + reflexivity.
Defined.

Lemma bool_binding_strict_witness :
  get (T := bool) 1 (mkState [LBoolean true] ∅)
  = (Ok true, mkState [LBoolean true] ∅)
  /\ exists what,
      get (T := bool) 1 (mkState [LNumber 1] ∅)
      = (Throw (LuaRuntimeError what), mkState [LNumber 1] ∅).
Proof.
  destruct bool_binding_strict as (_ & Hget & Hstrict).
  split.
  - apply Hget. reflexivity.
  - apply Hstrict. intros b Heq. vm_compute in Heq. discriminate Heq.
Defined.


Lemma LuaClassInstance_get_on_tables_witness :
  LuaClassInstance_get (-1) "globalID" 1 L_tables = (Ok (mkInstance (-1)), L_tables)
  /\ LuaClassInstance_get (-1) "globalID" 2 L_tables
     = (Throw (LuaError "Unable to find class metatable."), L_tables).
Proof.
  destruct (LuaClassInstance_get_on_tables (-1) "globalID") as [Hmark Hnone].
  split.
  - apply (Hmark L_tables 1 {[ KStr "_DefaultInstance_" := LBoolean false ]}
             (Some {[ KStr "globalID" := LNumber 7 ]})).
    + reflexivity.
    + vm_compute. discriminate.
  - apply (Hnone L_tables 2 ∅); reflexivity.
Defined.

(** The window of the batch renderer's script, 320 by 240, and the
    pixel (200, 100). *)
Lemma quadrant_viewports_tile_window_witness :
  exists a r,
    a ∈ Renderer.quadrants /\
    Renderer.SetRenderTargetArea (Renderer.mkUINTVECTOR2 320 240) a = Some r /\
    Renderer.inside r 200 100 /\
    forall b s,
      b ∈ Renderer.quadrants ->
      Renderer.SetRenderTargetArea (Renderer.mkUINTVECTOR2 320 240) b = Some s ->
      Renderer.inside s 200 100 -> b = a.
Proof.
  apply (proj1 (RendererProps.quadrant_viewports_tile_window
                  (Renderer.mkUINTVECTOR2 320 240)
                  ltac:(unfold Renderer.window_size; simpl; lia)) 200 100);
    simpl; lia.
Defined.

(** The upper right quadrant of that window. *)
Lemma scissor_box_clipped_is_viewport_witness :
  exists r box,
    Renderer.SetRenderTargetArea (Renderer.mkUINTVECTOR2 320 240)
      Renderer.RA_TOPRIGHT = Some r /\
    Renderer.SetRenderTargetAreaScissor (Renderer.mkUINTVECTOR2 320 240)
      Renderer.RA_TOPRIGHT = Renderer.ScissorBox box /\
    (forall px py, Renderer.inside r px py -> Renderer.inside box px py) /\
    (forall px py,
        0 <= px < 320 -> 0 <= py < 240 ->
        Renderer.inside box px py -> Renderer.inside r px py).
Proof.
  apply (proj1 (RendererProps.scissor_box_clipped_is_viewport
                  (Renderer.mkUINTVECTOR2 320 240)
                  ltac:(unfold Renderer.window_size; simpl; lia))
           Renderer.RA_TOPRIGHT).
  unfold Renderer.quadrants. rewrite !elem_of_cons. auto.
Defined.

(** Port 80 is refused, port 8080 is looked up. *)
Lemma TvkServer_port_has_four_digits_witness :
  TvkServer.TvkServer_new 80 0 TvkServer.two_addresses 0 0
  = (TvkServer.Exited TvkServer.EXIT_FAILURE,
     [TvkServer.fprintf_stderr
        ("Server setup: port conversion to string failed" +:+ TvkServer.LF);
      TvkServer.call_exit TvkServer.EXIT_FAILURE])
  /\ exists events,
      snd (TvkServer.TvkServer_new 8080 0 TvkServer.two_addresses 0 0)
      = TvkServer.call_getaddrinfo (pretty 8080) :: events.
Proof.
  split.
  - apply (TvkServerProps.TvkServer_port_has_four_digits 80 0
             TvkServer.two_addresses 0 0); lia.
  - apply (TvkServerProps.TvkServer_port_has_four_digits 8080 0
             TvkServer.two_addresses 0 0); lia.
Defined.

(** Two addresses, of which the first cannot be bound: its socket is
    closed and the server listens on the socket of the second. *)
Lemma TvkServer_closes_unbound_sockets_witness :
  fst (TvkServer.TvkServer_new 8080 0 TvkServer.two_addresses 0 0)
  = TvkServer.Listening 3 /\
  TvkServer.opened (snd (TvkServer.TvkServer_new 8080 0 TvkServer.two_addresses 0 0))
  = TvkServer.closed (snd (TvkServer.TvkServer_new 8080 0 TvkServer.two_addresses 0 0))
    ++ [3].
Proof.
  split; [vm_compute; reflexivity |].
  apply (proj1 (TvkServerProps.TvkServer_closes_unbound_sockets 8080 0
                  TvkServer.two_addresses 0 0 (TvkServer.Listening 3)
                  (snd (TvkServer.TvkServer_new 8080 0 TvkServer.two_addresses 0 0))
                  ltac:(vm_compute; reflexivity)) 3).
  reflexivity.
Defined.

(** The shaders are in the directory [Shaders], which is searched after
    the current directory. *)
Lemma LoadAndVerifyShader_true_means_loaded_witness :
  exists prog avs afs,
    Some ("Shaders/a.vert", "Shaders/a.frag") = Some prog /\
    ShaderLoading.always_valid prog = true /\
    ShaderLoading.only_in_Shaders avs = true /\
    ShaderLoading.only_in_Shaders afs = true /\
    ShaderLoading.pair_program avs afs = Some prog.
Proof.
  apply (proj2 (ShaderLoadingProps.LoadAndVerifyShader_true_means_loaded
                  (string * string) ShaderLoading.only_in_Shaders [] id None
                  ShaderLoading.pair_program ShaderLoading.always_valid)
           ["."; "Shaders"] "a.vert" "a.frag" None
           (Some ("Shaders/a.vert", "Shaders/a.frag")) []).
  vm_compute. reflexivity.
Defined.

Lemma LoadAndVerifyShader_first_directory_wins_witness :
  ShaderLoading.LoadAndVerifyShader_in (string * string)
    ShaderLoading.only_in_Shaders [] id None ShaderLoading.pair_program
    ShaderLoading.always_valid (["."] ++ "Shaders" :: []) "a.vert" "a.frag" None
  = (true, Some ("Shaders/a.vert", "Shaders/a.frag"), []).
Proof.
  apply (ShaderLoadingProps.LoadAndVerifyShader_first_directory_wins
           (string * string) ShaderLoading.only_in_Shaders [] id None
           ShaderLoading.pair_program ShaderLoading.always_valid
           ["."] "Shaders" [] "a.vert" "a.frag" None
           ("Shaders/a.vert", "Shaders/a.frag")).
  - repeat constructor.
  - repeat split.
Defined.
